(** * Distributed-tensor dispatch, convolution sharding rules and the
      tensor-parallel halo-exchange convolution

    A shallow embedding of
      - torch/distributed/_tensor/tp_conv.py
      - torch/distributed/_tensor/ops/conv_ops.py
      - torch/distributed/_tensor/dispatch.py
    together with the properties stated about them. *)

From Stdlib Require Import Ascii String.
From stdpp Require Import base numbers option list strings gmap.

Local Open Scope string_scope.
Local Open Scope list_scope.
Local Open Scope Z_scope.

Set Warnings "-register-all".

(** * Python preliminaries *)

Module Py.

(** The exceptions the embedded code can raise.  [ChainedRuntimeError] is
    [raise RuntimeError(msg) from cause]; [ReferenceError] stands for the
    use of an address that names no object, which a run whose arguments
    are live objects never meets. *)
Inductive exn : Type :=
| RuntimeError (msg : string)
| ChainedRuntimeError (msg : string) (cause : exn)
| NotImplementedError (msg : string)
| AssertionError (msg : string)
| IndexError
| KeyError (key : string)
| TypeError
| ValueError
| AttributeError
| ZeroDivisionError
| ReferenceError.

(** [str(e)] of an exception: its message (empty for the bare ones). *)
Definition exn_str (e : exn) : string :=
  match e with
  | RuntimeError m | ChainedRuntimeError m _
  | NotImplementedError m | AssertionError m => m
  | KeyError k => k
  | _ => ""
  end.

(** A computation that returns or raises. *)
Inductive result (A : Type) : Type :=
| Ok (a : A)
| Raise (e : exn).
Arguments Ok {A} a.
Arguments Raise {A} e.

#[global] Instance result_ret : MRet result := @Ok.
#[global] Instance result_bind : MBind result := fun A B f m =>
  match m with
  | Ok a => f a
  | Raise e => Raise e
  end.
#[global] Instance result_fmap : FMap result := fun A B f m =>
  match m with
  | Ok a => Ok (f a)
  | Raise e => Raise e
  end.

Definition is_ok {A} (r : result A) : bool :=
  match r with Ok _ => true | Raise _ => false end.

(** [assert c, msg] *)
Definition py_assert (c : bool) (msg : string) : result unit :=
  if c then Ok tt else Raise (AssertionError msg).

(** [l[i]] on a Python sequence: negative indices count from the end,
    anything out of range raises IndexError. *)
Definition py_index (len i : Z) : option nat :=
  if (0 <=? i) && (i <? len) then Some (Z.to_nat i)
  else if (- len <=? i) && (i <? 0) then Some (Z.to_nat (len + i))
  else None.

Definition getitem {A} (l : list A) (i : Z) : result A :=
  match py_index (Z.of_nat (length l)) i with
  | Some n => match l !! n with Some a => Ok a | None => Raise IndexError end
  | None => Raise IndexError
  end.

(** [l[i] = x] on a Python list. *)
Definition setitem {A} (l : list A) (i : Z) (x : A) : result (list A) :=
  match py_index (Z.of_nat (length l)) i with
  | Some n => Ok (<[n := x]> l)
  | None => Raise IndexError
  end.

(** [a // b] and [a % b] on Python ints: floor division, the remainder has
    the sign of the divisor, a zero divisor raises. *)
Definition floordiv (a b : Z) : result Z :=
  if b =? 0 then Raise ZeroDivisionError else Ok (a / b).
Definition pymod (a b : Z) : result Z :=
  if b =? 0 then Raise ZeroDivisionError else Ok (a mod b).

(** Bounds of the slice [l[start:stop]] (step 1) on a sequence of length
    [len], as [slice.indices] computes them. *)
Definition slice_bound (len i : Z) : Z :=
  if i <? 0 then Z.max 0 (len + i) else Z.min i len.

Definition py_slice {A} (start stop : option Z) (l : list A) : list A :=
  let len := Z.of_nat (length l) in
  let a := from_option (slice_bound len) 0 start in
  let b := from_option (slice_bound len) len stop in
  take (Z.to_nat (b - a)) (drop (Z.to_nat a) l).

(** [s[-1] == c] style helpers on strings. *)
Fixpoint last_char (s : string) : option Ascii.ascii :=
  match s with
  | EmptyString => None
  | String c EmptyString => Some c
  | String _ s' => last_char s'
  end.

Fixpoint is_prefix (p s : string) : bool :=
  match p, s with
  | EmptyString, _ => true
  | String a p', String b s' => if Ascii.eqb a b then is_prefix p' s' else false
  | String _ _, EmptyString => false
  end.

Definition newline : string := String (ascii_of_nat 10) EmptyString.

(** [p in s] on strings. *)
Fixpoint contains (p s : string) : bool :=
  is_prefix p s ||
  match s with
  | EmptyString => false
  | String _ s' => contains p s'
  end.

End Py.
Import Py.


(** * The tensor-parallel halo-exchange convolution (tp_conv.py) *)

Module TPConv.

Section Tensors.
Context {elem : Type}.
Variable ezero : elem.
Variable eadd : elem -> elem -> elem.

(** A 4-dimensional tensor of shape [(N, C, H, W)], kept as its [W] columns
    along the last axis; a column holds the [N * C * H] entries that share
    one index on that axis.  Entries are of an arbitrary type [elem]. *)
Record tensor : Type := Tensor {
  tN : Z;
  tC : Z;
  tH : Z;
  cols : list (list elem)
}.

Definition width (t : tensor) : Z := Z.of_nat (length (cols t)).
Definition shape (t : tensor) : list Z := [tN t; tC t; tH t; width t].

Definition with_cols (t : tensor) (cs : list (list elem)) : tensor :=
  {| tN := tN t; tC := tC t; tH := tH t; cols := cs |}.

Definition same_lead (a b : tensor) : bool :=
  (tN a =? tN b) && (tC a =? tC b) && (tH a =? tH b).

Definition zero_col (t : tensor) : list elem :=
  replicate (Z.to_nat (tN t * tC t * tH t)) ezero.

(** [t[:, :, :, start:stop]] *)
Definition slice_last (start stop : option Z) (t : tensor) : tensor :=
  with_cols t (py_slice start stop (cols t)).

(** [torch.zeros_like(t)] *)
Definition zeros_like (t : tensor) : tensor :=
  with_cols t (replicate (length (cols t)) (zero_col t)).

(** [torch.cat(ts, dim=-1)] *)
Definition cat_last (ts : list tensor) : result tensor :=
  match ts with
  | [] => Raise (RuntimeError "torch.cat(): expected a non-empty list of Tensors")
  | t :: rest =>
      if forallb (same_lead t) rest
      then Ok (with_cols t (concat (map cols ts)))
      else Raise (RuntimeError "Sizes of tensors must match except in dimension 3")
  end.

(** [torch.nn.functional.pad(t, (l, r), "constant", 0)]: zero columns are
    added on the last axis, a negative amount removes columns. *)
Definition pad_last (t : tensor) (l r : Z) : result tensor :=
  if width t + l + r <? 0
  then Raise (RuntimeError "The input size, plus negative padding, resulted in a negative output size")
  else
    let left := if l <? 0 then drop (Z.to_nat (- l)) (cols t)
                else replicate (Z.to_nat l) (zero_col t) ++ cols t in
    let both := if r <? 0 then take (length left - Z.to_nat (- r)) left
                else left ++ replicate (Z.to_nat r) (zero_col t) in
    Ok (with_cols t both).

(** Broadcasting of the last axis of [v] to [n] columns. *)
Definition broadcast_last (n : nat) (v : tensor) : result (list (list elem)) :=
  if decide (length (cols v) = n) then Ok (cols v)
  else match cols v with
       | [c] => Ok (replicate n c)
       | _ => Raise (RuntimeError "The size of tensor a must match the size of tensor b at non-singleton dimension 3")
       end.

(** The common size of two sizes under broadcasting. *)
Definition broadcast_size (a b : nat) : result nat :=
  if decide (a = b) then Ok a
  else if decide (a = 1%nat) then Ok b
  else if decide (b = 1%nat) then Ok a
  else Raise (RuntimeError "The size of tensor a must match the size of tensor b at non-singleton dimension 3").

(** [torch.add(a, b)] on tensors with the same leading sizes. *)
Definition add (a b : tensor) : result tensor :=
  if negb (same_lead a b)
  then Raise (RuntimeError "The size of tensor a must match the size of tensor b")
  else
    n ← broadcast_size (length (cols a)) (length (cols b));
    ca ← broadcast_last n a;
    cb ← broadcast_last n b;
    Ok (with_cols a (zip_with (zip_with eadd) ca cb)).

(** [t[:, :, :, start:stop] = v] *)
Definition assign_slice_last (start stop : option Z) (t v : tensor) : result tensor :=
  let len := width t in
  let a := from_option (slice_bound len) 0 start in
  let b := from_option (slice_bound len) len stop in
  let n := Z.to_nat (b - a) in
  if negb (same_lead t v)
  then Raise (RuntimeError "shape mismatch in slice assignment")
  else
    cv ← broadcast_last n v;
    Ok (with_cols t (take (Z.to_nat a) (cols t) ++ cv ++ drop (Z.to_nat a + n) (cols t))).

(** ** Arguments of the local operator *)

Inductive arg : Type :=
| ATensor (t : tensor)
| AInts (l : list Z)
| ABools (l : list bool)
| AInt (z : Z)
| ABool (b : bool)
| ANone
| ASeq (l : list arg).

Definition kwargs : Type := list (string * arg).

(** [torch._ops.OpOverload]: its qualified name and what calling it does. *)
Record OpOverload : Type := {
  op_name : string;
  op_run : list arg -> kwargs -> result arg
}.

Definition aten_convolution_default : string := "aten.convolution.default".
Definition aten_convolution_backward_default : string :=
  "aten.convolution_backward.default".

(** [a.shape] *)
Definition shape_of (a : arg) : result (list Z) :=
  match a with
  | ATensor t => Ok (shape t)
  | _ => Raise AttributeError
  end.

Definition as_tensor (a : arg) : result tensor :=
  match a with
  | ATensor t => Ok t
  | _ => Raise AttributeError
  end.

(** [a[i]] where an int is expected.  The hyperparameters of a convolution
    are sequences of ints; a sequence of bools, whose entries Python would
    compare and divide as the ints 0 and 1, is not counted among them and
    is answered with TypeError, as is every argument that is no sequence. *)
Definition int_at (a : arg) (i : Z) : result Z :=
  match a with
  | AInts l => getitem l i
  | _ => Raise TypeError
  end.

(** ** Point-to-point communication *)

Inductive p2p_kind : Type := isend | irecv.

(** [dist.P2POp(kind, tensor, peer)] *)
Record P2POp : Type := {
  p2p_op : p2p_kind;
  p2p_tensor : tensor;
  p2p_peer : Z
}.

(** A rank's program: it returns or raises, or it posts one batch of
    point-to-point operations ([dist.batch_isend_irecv] followed by [wait]
    on every request) and goes on with the contents of its receive buffers,
    in the order of the [irecv] operations of the batch. *)
Inductive comm (A : Type) : Type :=
| Return (r : result A)
| BatchIsendIrecv (ops : list P2POp) (k : list tensor -> comm A).
Arguments Return {A} r.
Arguments BatchIsendIrecv {A} ops k.

Fixpoint comm_bind {A B} (f : A -> comm B) (m : comm A) : comm B :=
  match m with
  | Return (Ok a) => f a
  | Return (Raise e) => Return (Raise e)
  | BatchIsendIrecv ops k => BatchIsendIrecv ops (fun r => comm_bind f (k r))
  end.

#[global] Instance comm_mret : MRet comm := fun A a => Return (Ok a).
#[global] Instance comm_mbind : MBind comm := @comm_bind.

(** A step that does not communicate. *)
Definition lift {A} (r : result A) : comm A := Return r.

(** The batches a program posts when its receive buffers are filled by
    [feed]. *)
Fixpoint posted {A} (feed : list P2POp -> list tensor) (p : comm A)
  : list (list P2POp) :=
  match p with
  | Return _ => []
  | BatchIsendIrecv ops k => ops :: posted feed (k (feed ops))
  end.

(** ** [_requires_data_exchange] and [_is_supported] *)

Definition _requires_data_exchange (padding : arg) : result bool :=
  p ← int_at padding 1;
  Ok (negb (p =? 0)).

Definition _is_supported (input_size kernel_size : list Z)
    (stride padding dilation : arg) : result bool :=
  d1 ← int_at dilation 1;
  if negb (d1 =? 1)
  then Raise (RuntimeError "Dilation must be 1 for tensor parallel convolution.")
  else
    p1 ← int_at padding 1;
    if negb (p1 =? 0) then
      s1 ← int_at stride 1;
      if negb (s1 =? 1)
      then Raise (RuntimeError
        "Stride must be 1 when there is padding for tensor parallel convolution.")
      else
        k3 ← getitem kernel_size 3;
        i3 ← getitem input_size 3;
        if i3 <? k3 / 2
        then Raise (RuntimeError
          "kernel_size[3] // 2 should be less than or equal to input_size[3] for tensor parallel convolution.")
        else Ok true
    else
      i3 ← getitem input_size 3;
      s1 ← int_at stride 1;
      m ← pymod i3 s1;
      divisible_and_equal ←
        (if m =? 0 then k3 ← getitem kernel_size 3; Ok (s1 =? k3) else Ok false);
      if negb divisible_and_equal
      then Raise (RuntimeError
        "It requires that input_size[3] is divisible by stride[1] and stride[1] equals kernel_size[3] when there is padding for tensor parallel convolution.")
      else Ok true.


(** ** [tp_convolution] *)

(** [a, b, c = l] *)
Definition unpack3 {A} (l : list A) : result (A * A * A) :=
  match l with
  | [a; b; c] => Ok (a, b, c)
  | _ => Raise ValueError
  end.

(** [t[:, :, :, ...]] where [t] is whatever the caller passed. *)
Definition indexable (a : arg) : result tensor :=
  match a with
  | ATensor t => Ok t
  | _ => Raise TypeError
  end.

(** Step 2 of both functions: the local input with the halos received from
    the neighbours put next to it. *)
Definition reconstruct (rank size : Z) (in_tensor recv_from_left recv_from_right : tensor)
  : result tensor :=
  if rank =? 0 then cat_last [in_tensor; recv_from_right]
  else if rank =? size - 1 then cat_last [recv_from_left; in_tensor]
  else cat_last [recv_from_left; in_tensor; recv_from_right].

(** The batch both functions post: two sends, two receives. *)
Definition halo_batch (send_to_right send_to_left recv_from_left recv_from_right : tensor)
    (right left : Z) : list P2POp :=
  let send_op_right := {| p2p_op := isend; p2p_tensor := send_to_right; p2p_peer := right |} in
  let send_op_left := {| p2p_op := isend; p2p_tensor := send_to_left; p2p_peer := left |} in
  let recv_op_right := {| p2p_op := irecv; p2p_tensor := recv_from_right; p2p_peer := right |} in
  let recv_op_left := {| p2p_op := irecv; p2p_tensor := recv_from_left; p2p_peer := left |} in
  [send_op_right; send_op_left; recv_op_left; recv_op_right].

(** Steps 2 to 4 of [tp_convolution], once the halos are there. *)
Definition tp_convolution_local (op_call : OpOverload) (rank size : Z)
    (local_tensor_args : list arg) (local_tensor_kwargs : kwargs)
    (in_tensor recv_from_left recv_from_right : tensor) : result arg :=
  (* step2 reconstruct local input tensor *)
  in_tensor ← reconstruct rank size in_tensor recv_from_left recv_from_right;
  (* step3 feed local input tensor to op_call *)
  local_tensor_args ← setitem local_tensor_args 0 (ATensor in_tensor);
  local_results ← op_run op_call local_tensor_args local_tensor_kwargs;
  (* step4 remove extra ouputs from the results *)
  padding_arg ← getitem local_tensor_args 4;
  padding ← int_at padding_arg 1;
  local_results ← as_tensor local_results;
  let w := width local_results in
  let local_results :=
    if rank =? 0 then slice_last None (Some (w - padding)) local_results
    else if rank =? size - 1 then slice_last (Some padding) None local_results
    else slice_last (Some padding) (Some (w - padding)) local_results in
  Ok (ATensor local_results).

(** What [tp_convolution] does after [wait]: [received] holds the contents
    of [recv_from_left] and [recv_from_right], in the order of the batch. *)
Definition tp_convolution_resume (op_call : OpOverload) (rank size : Z)
    (local_tensor_args : list arg) (local_tensor_kwargs : kwargs)
    (in_tensor : tensor) (received : list tensor) : comm arg :=
  recv_from_left ← lift (getitem received 0);
  recv_from_right ← lift (getitem received 1);
  lift (tp_convolution_local op_call rank size local_tensor_args
          local_tensor_kwargs in_tensor recv_from_left recv_from_right).

(** The [else] branch of [tp_convolution]: steps 0 and 1, then the rest. *)
Definition tp_convolution_exchange (op_call : OpOverload) (rank size : Z)
    (local_tensor_args : list arg) (local_tensor_kwargs : kwargs)
    (in_tensor : arg) (weight_shape : list Z) : comm arg :=
  (* step 0 compute the overlap pixels of the input tensor *)
  w3 ← lift (getitem weight_shape 3);
  let d := w3 - 1 in
  let d1 := d / 2 in
  let d2 := d - d1 in
  _ ← lift (py_assert (d1 + d2 =? d) "");
  right ← lift (pymod (rank + 1) size);
  left ← lift (pymod (rank - 1 + size) size);
  (* step1 dist comms *)
  in_tensor ← lift (indexable in_tensor);
  let send_to_right := slice_last (Some (- d1)) None in_tensor in
  let send_to_left := slice_last None (Some d2) in_tensor in
  let recv_from_right := zeros_like send_to_left in
  let recv_from_left := zeros_like send_to_right in
  BatchIsendIrecv
    (halo_batch send_to_right send_to_left recv_from_left recv_from_right right left)
    (tp_convolution_resume op_call rank size local_tensor_args
       local_tensor_kwargs in_tensor).

Definition tp_convolution (op_call : OpOverload) (rank size : Z)
    (local_tensor_args : list arg) (local_tensor_kwargs : kwargs) : comm arg :=
  _ ← lift (py_assert (String.eqb (op_name op_call) aten_convolution_default) "");
  _ ← lift (py_assert (Z.of_nat (length local_tensor_args) =? 9) "");
  in_tensor ← lift (getitem local_tensor_args 0);
  weight ← lift (getitem local_tensor_args 1);
  bias ← lift (getitem local_tensor_args 2);
  '(stride, padding, dilation) ← lift (unpack3 (py_slice (Some 3) (Some 6) local_tensor_args));
  in_shape ← lift (shape_of in_tensor);
  weight_shape ← lift (shape_of weight);
  supported ← lift (_is_supported in_shape weight_shape stride padding dilation);
  _ ← lift (py_assert supported "");
  exchange ← lift (_requires_data_exchange padding);
  if negb exchange then
    lift (op_run op_call local_tensor_args local_tensor_kwargs)
  else
    tp_convolution_exchange op_call rank size local_tensor_args
      local_tensor_kwargs in_tensor weight_shape.

(** ** [tp_convolution_backward] *)

(** [local_results[0]]: a tuple or list gives its first entry; indexing a
    4-dimensional tensor gives a 3-dimensional one, on which the four-index
    slices that follow raise IndexError. *)
Definition first_result (a : arg) : result tensor :=
  match a with
  | ASeq l => x ← getitem l 0; indexable x
  | ATensor _ => Raise IndexError
  | _ => Raise TypeError
  end.

(** [l = list(local_results); l[0] = t] *)
Definition replace_first (a : arg) (t : tensor) : result arg :=
  match a with
  | ASeq l => l' ← setitem l 0 (ATensor t); Ok (ASeq l')
  | _ => Raise TypeError
  end.

(** Step 5 after the second exchange: the overlap received from the
    neighbours is added into the edge columns of the trimmed gradient. *)
Definition aggregate (rank size d1 d2 : Z)
    (grad_in_tensor recv_from_left recv_from_right : tensor) : result tensor :=
  if rank =? 0 then
    let g := slice_last None (Some (- d2)) grad_in_tensor in
    s ← add (slice_last (Some (- d1)) None g) recv_from_right;
    assign_slice_last (Some (- d1)) None g s
  else if rank =? size - 1 then
    let g := slice_last (Some d1) None grad_in_tensor in
    s ← add (slice_last None (Some d2) g) recv_from_left;
    assign_slice_last None (Some d2) g s
  else
    let g := slice_last (Some d1) (Some (- d2)) grad_in_tensor in
    s ← add (slice_last (Some (- d1)) None g) recv_from_right;
    g ← assign_slice_last (Some (- d1)) None g s;
    s ← add (slice_last None (Some d2) g) recv_from_left;
    assign_slice_last None (Some d2) g s.

(** Steps 2 to 4 of [tp_convolution_backward], once the halos of the input
    are there: the local results and the local gradient of the input. *)
Definition tp_convolution_backward_local (op_call : OpOverload) (rank size : Z)
    (local_tensor_args : list arg) (local_tensor_kwargs : kwargs)
    (grad_out_tensor : arg) (in_tensor recv_from_left recv_from_right : tensor)
  : result (arg * tensor) :=
  (* step2 reconstruct local input tensor *)
  in_tensor ← reconstruct rank size in_tensor recv_from_left recv_from_right;
  (* step3 reconstruct local gradient output tensor *)
  _ ← shape_of grad_out_tensor;
  padding_arg ← getitem local_tensor_args 5;
  padding ← int_at padding_arg 1;
  grad_out_tensor ← as_tensor grad_out_tensor;
  grad_out_tensor ←
    (if rank =? 0 then pad_last grad_out_tensor 0 padding
     else if rank =? size - 1 then pad_last grad_out_tensor padding 0
     else pad_last grad_out_tensor padding padding);
  (* step4 feed local input tensor to op_call *)
  local_tensor_args ← setitem local_tensor_args 0 (ATensor grad_out_tensor);
  local_tensor_args ← setitem local_tensor_args 1 (ATensor in_tensor);
  local_results ← op_run op_call local_tensor_args local_tensor_kwargs;
  (* step5 aggregate gradients for edge pixels *)
  grad_in_tensor ← first_result local_results;
  Ok (local_results, grad_in_tensor).

(** The end of step 5, once the overlaps of the gradient are there. *)
Definition tp_convolution_backward_finish (rank size d1 d2 : Z) (local_results : arg)
    (grad_in_tensor recv_from_left recv_from_right : tensor) : result arg :=
  grad_in_tensor ← aggregate rank size d1 d2 grad_in_tensor recv_from_left recv_from_right;
  replace_first local_results grad_in_tensor.

(** What [tp_convolution_backward] does after the second [wait]. *)
Definition tp_convolution_backward_resume_grad (rank size d1 d2 : Z)
    (local_results : arg) (grad_in_tensor : tensor) (received : list tensor) : comm arg :=
  recv_from_left ← lift (getitem received 0);
  recv_from_right ← lift (getitem received 1);
  lift (tp_convolution_backward_finish rank size d1 d2 local_results
          grad_in_tensor recv_from_left recv_from_right).

(** What it does after the first [wait], up to the second exchange. *)
Definition tp_convolution_backward_resume (op_call : OpOverload) (rank size : Z)
    (local_tensor_args : list arg) (local_tensor_kwargs : kwargs)
    (grad_out_tensor : arg) (in_tensor : tensor) (d1 d2 right left : Z)
    (received : list tensor) : comm arg :=
  recv_from_left ← lift (getitem received 0);
  recv_from_right ← lift (getitem received 1);
  '(local_results, grad_in_tensor) ← lift (
    tp_convolution_backward_local op_call rank size local_tensor_args
      local_tensor_kwargs grad_out_tensor in_tensor recv_from_left recv_from_right);
  let send_to_right := slice_last (Some (- d2)) None grad_in_tensor in
  let send_to_left := slice_last None (Some d1) grad_in_tensor in
  let recv_from_right := zeros_like send_to_left in
  let recv_from_left := zeros_like send_to_right in
  BatchIsendIrecv
    (halo_batch send_to_right send_to_left recv_from_left recv_from_right right left)
    (tp_convolution_backward_resume_grad rank size d1 d2 local_results grad_in_tensor).

(** The [else] branch of [tp_convolution_backward]: steps 0 and 1, then
    the rest. *)
Definition tp_convolution_backward_exchange (op_call : OpOverload) (rank size : Z)
    (local_tensor_args : list arg) (local_tensor_kwargs : kwargs)
    (grad_out_tensor in_tensor : arg) (weight_shape : list Z) : comm arg :=
  (* step 0 compute the overlap pixels of the input tensor *)
  w3 ← lift (getitem weight_shape 3);
  let d := w3 - 1 in
  let d1 := d / 2 in
  let d2 := d - d1 in
  _ ← lift (py_assert (d1 + d2 =? d) "");
  right ← lift (pymod (rank + 1) size);
  left ← lift (pymod (rank - 1 + size) size);
  (* step1 dist comms *)
  in_tensor ← lift (indexable in_tensor);
  let send_to_right := slice_last (Some (- d1)) None in_tensor in
  let send_to_left := slice_last None (Some d2) in_tensor in
  let recv_from_right := zeros_like send_to_left in
  let recv_from_left := zeros_like send_to_right in
  BatchIsendIrecv
    (halo_batch send_to_right send_to_left recv_from_left recv_from_right right left)
    (tp_convolution_backward_resume op_call rank size local_tensor_args
       local_tensor_kwargs grad_out_tensor in_tensor d1 d2 right left).

Definition tp_convolution_backward (op_call : OpOverload) (rank size : Z)
    (local_tensor_args : list arg) (local_tensor_kwargs : kwargs) : comm arg :=
  _ ← lift (py_assert (String.eqb (op_name op_call) aten_convolution_backward_default) "");
  _ ← lift (py_assert (Z.of_nat (length local_tensor_args) =? 11) "");
  grad_out_tensor ← lift (getitem local_tensor_args 0);
  in_tensor ← lift (getitem local_tensor_args 1);
  weight ← lift (getitem local_tensor_args 2);
  bias ← lift (getitem local_tensor_args 3);
  '(stride, padding, dilation) ← lift (unpack3 (py_slice (Some 4) (Some 7) local_tensor_args));
  in_shape ← lift (shape_of in_tensor);
  weight_shape ← lift (shape_of weight);
  supported ← lift (_is_supported in_shape weight_shape stride padding dilation);
  _ ← lift (py_assert supported "");
  exchange ← lift (_requires_data_exchange padding);
  if negb exchange then
    lift (op_run op_call local_tensor_args local_tensor_kwargs)
  else
    tp_convolution_backward_exchange op_call rank size local_tensor_args
      local_tensor_kwargs grad_out_tensor in_tensor weight_shape.

(** ** The shape of the exchange

    A program follows the ring when every batch it posts is a
    [halo_batch] addressed to [(rank + 1) % size] and
    [(rank - 1 + size) % size], when rank 0 goes on without looking at what
    came from the left, and rank [size - 1] without looking at what came
    from the right. *)
Inductive follows_ring (rank size : Z) : comm arg -> Prop :=
| ring_return (r : result arg) : follows_ring rank size (Return r)
| ring_batch (send_to_right send_to_left recv_from_left recv_from_right : tensor)
    (k : list tensor -> comm arg) :
    (rank = 0 -> forall l l' r, k [l; r] = k [l'; r]) ->
    (rank = size - 1 -> forall l r r', k [l; r] = k [l; r']) ->
    (forall received, follows_ring rank size (k received)) ->
    follows_ring rank size
      (BatchIsendIrecv
         (halo_batch send_to_right send_to_left recv_from_left recv_from_right
            ((rank + 1) mod size) ((rank - 1 + size) mod size)) k).

Definition posts_a_batch {A} (p : comm A) : bool :=
  match p with
  | Return _ => false
  | BatchIsendIrecv _ _ => true
  end.

(** The peers a batch sends to and receives from. *)
Definition send_peers (ops : list P2POp) : list Z :=
  omap (fun o => match p2p_op o with isend => Some (p2p_peer o) | irecv => None end) ops.
Definition recv_peers (ops : list P2POp) : list Z :=
  omap (fun o => match p2p_op o with irecv => Some (p2p_peer o) | isend => None end) ops.

(** ** All ranks together *)

(** Modelled from the spec: the point-to-point layer of the process group
    ([dist.batch_isend_irecv] and [wait], which tp_conv.py only calls).
    Ranks are the positions of a list.  The [j]-th receive a rank posts for
    peer [q] is filled with the [j]-th tensor that [q] sends to that rank in
    the same round; a receive nobody serves, or one whose buffer has another
    shape than the tensor sent, never completes. *)
Fixpoint sends_to (dst : Z) (ops : list P2POp) : list tensor :=
  match ops with
  | [] => []
  | o :: ops' =>
      match p2p_op o with
      | isend => if p2p_peer o =? dst then p2p_tensor o :: sends_to dst ops'
                 else sends_to dst ops'
      | irecv => sends_to dst ops'
      end
  end.

Fixpoint receive (batches : list (list P2POp)) (me : Z) (seen : list Z)
    (ops : list P2POp) : option (list tensor) :=
  match ops with
  | [] => Some []
  | o :: ops' =>
      match p2p_op o with
      | isend => receive batches me seen ops'
      | irecv =>
          let q := p2p_peer o in
          if q <? 0 then None
          else
            from ← batches !! Z.to_nat q;
            t ← sends_to me from !! length (List.filter (Z.eqb q) seen);
            if forallb (fun '(a, b) => a =? b) (zip (shape t) (shape (p2p_tensor o)))
            then rest ← receive batches me (q :: seen) ops'; Some (t :: rest)
            else None
      end
  end.

Definition batch_of {A} (p : comm A) : list P2POp :=
  match p with
  | Return _ => []
  | BatchIsendIrecv ops _ => ops
  end.

Definition returned {A} (p : comm A) : option (result A) :=
  match p with
  | Return r => Some r
  | BatchIsendIrecv _ _ => None
  end.

Definition resume {A} (batches : list (list P2POp)) (me : nat) (p : comm A)
  : option (comm A) :=
  match p with
  | Return r => Some (Return r)
  | BatchIsendIrecv ops k => k <$> receive batches (Z.of_nat me) [] ops
  end.

(** Runs the programs of all ranks round by round; [None] when some rank
    waits for ever or [fuel] rounds were not enough. *)
Fixpoint run_ranks {A} (fuel : nat) (ps : list (comm A)) : option (list (result A)) :=
  match mapM returned ps with
  | Some rs => Some rs
  | None =>
      match fuel with
      | O => None
      | S fuel' =>
          ps' ← mapM (fun '(i, p) => resume (batch_of <$> ps) i p) (imap pair ps);
          run_ranks fuel' ps'
      end
  end.

(** Modelled from the spec: re-sharding a tensor over [n] ranks along the
    last axis ([torch.chunk], not among the sources): consecutive pieces of
    [ceil(W / n)] columns, the last ones shorter or empty. *)
Fixpoint chunks {A} (n size : nat) (l : list A) : list (list A) :=
  match n with
  | O => []
  | S n' => take size l :: chunks n' size (drop size l)
  end.

Definition shard_last (n : nat) (t : tensor) : list tensor :=
  let size := Z.to_nat ((width t + Z.of_nat n - 1) / Z.of_nat n) in
  with_cols t <$> chunks n size (cols t).

End Tensors.

Arguments Return {elem A} r.
Arguments BatchIsendIrecv {elem A} ops k.

(** ** Reference operators on single rows of integers

    The local operators are not among the sources.  To run the embedding on
    concrete inputs they are modelled on tensors of shape [(1, 1, 1, W)]
    with a kernel of shape [(1, 1, 1, k)], no bias, dilation 1, one group
    and no padding of the height. *)

Definition row (l : list Z) : tensor (elem := Z) :=
  {| tN := 1; tC := 1; tH := 1; cols := (fun x => [x]) <$> l |}.

Definition row_of (t : tensor (elem := Z)) : list Z :=
  (fun c => default 0 (head c)) <$> cols t.

Definition is_row (t : tensor (elem := Z)) : bool :=
  (tN t =? 1) && (tC t =? 1) && (tH t =? 1).

Definition dot (w x : list Z) : Z := foldr Z.add 0 (zip_with Z.mul w x).

(** [out[j] = sum_t w[t] * x[j * s + t]] for [j < n] *)
Definition correlate (w x : list Z) (s n : nat) : list Z :=
  (fun j => dot w (drop (j * s) x)) <$> seq 0 n.

Definition zeros (n : Z) : list Z := replicate (Z.to_nat n) 0.

Definition conv_row (x w : list Z) (s p : Z) : result (list Z) :=
  let W := Z.of_nat (length x) in
  let k := Z.of_nat (length w) in
  if (s <=? 0) || (p <? 0) then Raise (RuntimeError "non-positive stride or negative padding is not supported")
  else if W + 2 * p - (k - 1) - 1 <? 0 then Raise (RuntimeError "Kernel size can't be greater than actual input size")
  else
    let n := (W + 2 * p - (k - 1) - 1) / s + 1 in
    Ok (correlate w (zeros p ++ x ++ zeros p) (Z.to_nat s) (Z.to_nat n)).

Definition unsupported {A} : result A :=
  Raise (RuntimeError "outside the reference operator").

(** Modelled from the spec: [aten.convolution] (not among the sources),
    the standard convolution, on single rows. *)
Definition convolution_ref : OpOverload (elem := Z) := {|
  op_name := aten_convolution_default;
  op_run := fun args _ =>
    match args with
    | [ATensor x; ATensor w; ANone; AInts [_; s]; AInts [0; p]; AInts [1; 1];
       ABool false; AInts _; AInt 1] =>
        if is_row x && is_row w
        then ATensor ∘ row <$> conv_row (row_of x) (row_of w) s p
        else unsupported
    | _ => unsupported
    end
|}.

(** Gradients of [conv_row] with stride 1 against an incoming gradient [g]:
    [gx[i] = sum_t w[t] * g[i + p - t]], [gw[t] = sum_j g[j] * x[j + t - p]]. *)
Definition conv_row_backward (g x w : list Z) (p : Z) : list Z * list Z * list Z :=
  let k := length w in
  let gpad := zeros (Z.of_nat k - 1) ++ g ++ zeros (Z.of_nat k - 1) in
  let full := correlate (reverse w) gpad 1 (length x + 2 * Z.to_nat p) in
  let gx := take (length x) (drop (Z.to_nat p) full) in
  let gw := correlate g (zeros p ++ x ++ zeros p) 1 k in
  (gx, gw, [foldr Z.add 0 g]).

(** Modelled from the spec: [aten.convolution_backward] (not among the
    sources) on single rows with stride 1: the gradients of the input, of
    the weight and of the bias. *)
Definition convolution_backward_ref : OpOverload (elem := Z) := {|
  op_name := aten_convolution_backward_default;
  op_run := fun args _ =>
    match args with
    | [ATensor g; ATensor x; ATensor w; _; AInts [_; 1]; AInts [0; p]; AInts [1; 1];
       ABool false; AInts _; AInt 1; _] =>
        if is_row g && is_row x && is_row w && (0 <=? p)
           && (width g =? width x + 2 * p - (width w - 1))
        then let '(gx, gw, gb) := conv_row_backward (row_of g) (row_of x) (row_of w) p in
             Ok (ASeq [ATensor (row gx); ATensor (row gw); ATensor (row gb)])
        else unsupported
    | _ => unsupported
    end
|}.

(** The nine arguments of a forward call and the eleven of a backward call
    on rows. *)
Definition conv_args (x w : list Z) (stride padding dilation : list Z) : list (arg (elem := Z)) :=
  [ATensor (row x); ATensor (row w); ANone; AInts stride; AInts padding;
   AInts dilation; ABool false; AInts [0; 0]; AInt 1].

Definition conv_backward_args (g x w : list Z) (stride padding dilation : list Z)
  : list (arg (elem := Z)) :=
  [ATensor (row g); ATensor (row x); ATensor (row w); ANone; AInts stride;
   AInts padding; AInts dilation; ABool false; AInts [0; 0]; AInt 1;
   ABools [true; true; false]].

(** [tp_convolution] on every rank of a world, each with its own shard. *)
Definition tp_convolution_world (op_call : OpOverload (elem := Z))
    (shards : list (list Z)) (w stride padding dilation : list Z)
  : option (list (result (arg (elem := Z)))) :=
  run_ranks 2
    (imap (fun r x => tp_convolution 0 op_call (Z.of_nat r) (Z.of_nat (length shards))
                        (conv_args x w stride padding dilation) [])
          shards).

(** [tp_convolution_backward] on every rank of a world. *)
Definition tp_convolution_backward_world (op_call : OpOverload (elem := Z))
    (grads shards : list (list Z)) (w stride padding dilation : list Z)
  : option (list (result (arg (elem := Z)))) :=
  run_ranks 3
    (imap (fun r '(g, x) =>
             tp_convolution_backward 0 Z.add op_call (Z.of_nat r) (Z.of_nat (length shards))
               (conv_backward_args g x w stride padding dilation) [])
          (zip grads shards)).

(** The oracle: the shards gathered on one rank, one plain convolution,
    the result sharded again. *)
Definition oracle (op_call : OpOverload (elem := Z))
    (shards : list (list Z)) (w stride padding dilation : list Z)
  : result (list (tensor (elem := Z))) :=
  full ← cat_last (row <$> shards);
  out ← op_run op_call (<[0%nat := ATensor full]> (conv_args [] w stride padding dilation)) [];
  out ← as_tensor out;
  Ok (shard_last (length shards) out).

End TPConv.

(** * Sharding descriptors, operator schemas and rule results *)

Module Sharding.

(** [Shard(dim)], [Replicate()] and the pending-reduction marker
    [_Partial()]. *)
Inductive Placement : Type :=
| Shard (dim : Z)
| Replicate
| _Partial.

Definition is_shard (p : Placement) : bool :=
  match p with Shard _ => true | _ => false end.
Definition is_replicate (p : Placement) : bool :=
  match p with Replicate => true | _ => false end.
Definition is_partial (p : Placement) : bool :=
  match p with _Partial => true | _ => false end.

Record DeviceMesh : Type := {
  device_type : string;
  mesh_sizes : list Z
}.

Definition mesh_ndim (m : DeviceMesh) : nat := length (mesh_sizes m).

Record TensorMeta : Type := {
  tm_shape : list Z;
  tm_stride : list Z;
  tm_dtype : string
}.

Record DTensorSpec : Type := {
  mesh : DeviceMesh;
  placements : list Placement;
  tensor_meta : option TensorMeta
}.

(** A local [torch.Tensor], known by its identity; its contents live with
    the operators that compute on it. *)
Definition tensor : Type := nat.

(** A distributed-tensor wrapper is known by its address in the store of
    wrappers. *)
Definition loc : Type := nat.

(** The objects that travel through arguments, schemas and results. *)
Inductive value : Type :=
| VNone
| VBool (b : bool)
| VInt (z : Z)
| VStr (s : string)
| VTensor (t : tensor)
| VDTensor (l : loc)
| VSpec (s : DTensorSpec)
| VList (vs : list value)
| VTuple (vs : list value)
| VDict (kvs : list (string * value)).

(** [torch._C.Argument] and [torch._C.FunctionSchema] *)
Record Argument : Type := {
  arg_name : string;
  is_out : bool
}.

Record FunctionSchema : Type := {
  name : string;
  overload_name : string;
  arguments : list Argument
}.

Record OpSchema : Type := {
  func_schema : FunctionSchema;
  args_schema : list value;
  kwargs_schema : list (string * value);
  is_inplace : bool;
  is_out_variant : bool
}.

(** [OpSchema(func_schema, args_schema, kwargs_schema)], with
    [__post_init__]. *)
Definition new_OpSchema (func_schema : FunctionSchema) (args_schema : list value)
    (kwargs_schema : list (string * value)) : result OpSchema :=
  match last_char (name func_schema) with
  | None => Raise IndexError
  | Some c =>
      Ok {| func_schema := func_schema;
            args_schema := args_schema;
            kwargs_schema := kwargs_schema;
            is_inplace := Ascii.eqb c "_"%char;
            is_out_variant := contains "out" (overload_name func_schema) |}
  end.

(** The [args_spec] property. *)
Definition args_spec (s : OpSchema) : list value :=
  List.filter (fun item => match item with VSpec _ => true | _ => false end)
              (args_schema s).

Record OutputSharding : Type := {
  output_spec : value;
  schema_suggestions : option (list OpSchema);
  failed_reason : option string
}.

(** [OutputSharding(output_spec)] *)
Definition new_OutputSharding (output_spec : value) : OutputSharding :=
  {| output_spec := output_spec; schema_suggestions := None; failed_reason := None |}.

(** ** Attribute access on values *)

(** [v.mesh], [v.placements], [v.tensor_meta]: attributes of a descriptor. *)
Definition as_spec (v : value) : result DTensorSpec :=
  match v with
  | VSpec s => Ok s
  | _ => Raise AttributeError
  end.

(** [m.shape], [m.dtype] on the [tensor_meta] of a descriptor, which may be
    [None]. *)
Definition meta_of (s : DTensorSpec) : result TensorMeta :=
  match tensor_meta s with
  | Some m => Ok m
  | None => Raise AttributeError
  end.

(** An int where arithmetic needs one ([bool] is a subclass of [int]). *)
Definition as_int (v : value) : result Z :=
  match v with
  | VInt z => Ok z
  | VBool b => Ok (Z.b2z b)
  | _ => Raise TypeError
  end.

(** [v[i]] on a list or a tuple. *)
Definition item (v : value) (i : Z) : result value :=
  match v with
  | VList l | VTuple l => getitem l i
  | _ => Raise TypeError
  end.

Definition int_item (v : value) (i : Z) : result Z :=
  x ← item v i; as_int x.

(** [torch.Size(v)] *)
Definition to_size (v : value) : result (list Z) :=
  match v with
  | VList l | VTuple l => mapM as_int l
  | _ => Raise TypeError
  end.

(** ** [from_dim_map], [dim_map] and [sums] *)

(** Modelled from the spec: the [dim_map] property of a descriptor
    (placement_types.py is not among the sources): one entry per tensor
    dimension, [-1] when it is not sharded, the mesh dimension that shards
    it otherwise. *)
Definition dim_map (s : DTensorSpec) : result (list Z) :=
  m ← match tensor_meta s with
      | Some m => Ok m
      | None => Raise (AssertionError "tensor_meta is not set")
      end;
  foldl (fun acc '(i, p) =>
           r ← acc;
           match p with
           | Shard d => setitem r d (Z.of_nat i)
           | _ => Ok r
           end)
        (Ok (replicate (length (tm_shape m)) (-1)))
        (imap pair (placements s)).

(** Modelled from the spec: the [sums] property (placement_types.py is not
    among the sources): the mesh dimensions that carry a pending
    reduction. *)
Definition sums (s : DTensorSpec) : list Z :=
  omap (fun '(i, p) => if is_partial p then Some (Z.of_nat i) else None)
       (imap pair (placements s)).

(** Modelled from the spec: [DTensorSpec.from_dim_map] (placement_types.py
    is not among the sources): every mesh dimension is Replicate, except
    those of [sums], which carry a pending reduction, and those named by
    [dim_map], which shard the tensor dimension that names them. *)
Definition from_dim_map (mesh : DeviceMesh) (dim_map sums : list Z)
    (tensor_meta : option TensorMeta) : result DTensorSpec :=
  let placements := replicate (mesh_ndim mesh) Replicate in
  placements ← foldl (fun acc s => pl ← acc; setitem pl s _Partial)
                     (Ok placements) sums;
  placements ← foldl (fun acc '(i, m) =>
                        pl ← acc;
                        if 0 <=? m then
                          placement ← getitem pl m;
                          match placement with
                          | Shard _ => Raise (RuntimeError "DeviceMesh dimension cann't be mapped to two dimension of the same tensor")
                          | _Partial => Raise (RuntimeError "DeviceMesh dimension cannot be both shard and partial!")
                          | Replicate => setitem pl m (Shard (Z.of_nat i))
                          end
                        else Ok pl)
                     (Ok placements) (imap pair dim_map);
  Ok {| mesh := mesh; placements := placements; tensor_meta := tensor_meta |}.

Definition fully_replicate (s : DTensorSpec) : bool :=
  forallb is_replicate (placements s).

(** A descriptor is well formed when it has one placement for each mesh
    dimension and every [Shard] names a dimension of a tensor of [ndim]
    dimensions. *)
Definition well_formed (s : DTensorSpec) (ndim : nat) : bool :=
  bool_decide (length (placements s) = mesh_ndim (mesh s))
  && forallb (fun p => match p with
                       | Shard d => bool_decide (is_Some (py_index (Z.of_nat ndim) d))
                       | _ => true
                       end) (placements s).

(** ** Induction on values, through the lists they hold *)

Section ValueInduction.
Variable P : value -> Prop.
Hypothesis Hleaf : forall v,
  match v with VList _ | VTuple _ | VDict _ => False | _ => True end -> P v.
Hypothesis Hlist : forall vs, Forall P vs -> P (VList vs).
Hypothesis Htuple : forall vs, Forall P vs -> P (VTuple vs).
Hypothesis Hdict : forall kvs, Forall (fun kv => P kv.2) kvs -> P (VDict kvs).

Fixpoint value_nested_ind (v : value) : P v :=
  match v with
  | VList vs =>
      Hlist vs ((fix go (l : list value) : Forall P l :=
                   match l with
                   | [] => List.Forall_nil P
                   | x :: xs => @List.Forall_cons _ P x xs (value_nested_ind x) (go xs)
                   end) vs)
  | VTuple vs =>
      Htuple vs ((fix go (l : list value) : Forall P l :=
                    match l with
                    | [] => List.Forall_nil P
                    | x :: xs => @List.Forall_cons _ P x xs (value_nested_ind x) (go xs)
                    end) vs)
  | VDict kvs =>
      Hdict kvs ((fix go (l : list (string * value)) : Forall (fun kv => P kv.2) l :=
                    match l with
                    | [] => List.Forall_nil _
                    | (k, x) :: xs => @List.Forall_cons _ (fun kv => P kv.2) (k, x) xs (value_nested_ind x) (go xs)
                    end) kvs)
  | VNone => Hleaf VNone I
  | VBool b => Hleaf (VBool b) I
  | VInt z => Hleaf (VInt z) I
  | VStr s => Hleaf (VStr s) I
  | VTensor t => Hleaf (VTensor t) I
  | VDTensor l => Hleaf (VDTensor l) I
  | VSpec d => Hleaf (VSpec d) I
  end.
End ValueInduction.

(** ** A mesh and descriptors to run the code on *)

Definition mesh_of_two : DeviceMesh := {| device_type := "cuda"; mesh_sizes := [2] |}.

Definition float32 : string := "torch.float32".

(** A descriptor on [mesh_of_two] for a contiguous tensor of four
    dimensions. *)
Definition descriptor (placements : list Placement) (n c h w : Z) : DTensorSpec :=
  {| mesh := mesh_of_two;
     placements := placements;
     tensor_meta := Some {| tm_shape := [n; c; h; w];
                            tm_stride := [c * h * w; h * w; w; 1];
                            tm_dtype := float32 |} |}.

Definition plain (n : string) : Argument := {| arg_name := n; is_out := false |}.

End Sharding.
Import Sharding.

(** * The convolution rules (ops/conv_ops.py) *)

Module ConvOps.

Definition convolution_rules (op_schema : OpSchema) : result OutputSharding :=
  match args_schema op_schema with
  | [input_spec; weight_spec; bias_spec; stride; padding; dilation;
     transposed; output_padding; groups] =>
      input_spec ← as_spec input_spec;
      in_shape ← tm_shape <$> meta_of input_spec;
      weight_spec ← as_spec weight_spec;
      weight_shape ← tm_shape <$> meta_of weight_spec;
      N ← getitem in_shape 0;
      C_in ← getitem in_shape 1;
      H_in ← getitem in_shape 2;
      W_in ← getitem in_shape 3;
      C_out ← getitem weight_shape 0;
      p0 ← int_item padding 0;
      d0 ← int_item dilation 0;
      k2 ← getitem weight_shape 2;
      s0 ← int_item stride 0;
      q ← floordiv (H_in + 2 * p0 - d0 * (k2 - 1) - 1) s0;
      let H_out := q + 1 in
      p1 ← int_item padding 1;
      d1 ← int_item dilation 1;
      k3 ← getitem weight_shape 3;
      s1 ← int_item stride 1;
      q ← floordiv (W_in + 2 * p1 - d1 * (k3 - 1) - 1) s1;
      let W_out := q + 1 in
      let output_shape := [N; C_out; H_out; W_out] in
      let output_stride := [C_out * H_out * W_out; H_out * W_out; W_out; 1] in
      output_dim_map ← dim_map input_spec;
      let pending_sums := sums input_spec in
      dtype ← tm_dtype <$> meta_of input_spec;
      let tensor_meta :=
        {| tm_shape := output_shape; tm_stride := output_stride; tm_dtype := dtype |} in
      spec ← from_dim_map (mesh input_spec) output_dim_map pending_sums (Some tensor_meta);
      Ok (new_OutputSharding (VSpec spec))
  | _ => Raise ValueError
  end.

Definition convolution_backward_rules (op_schema : OpSchema) : result OutputSharding :=
  _ ← getitem (args_schema op_schema) 0;
  match args_schema op_schema with
  | [grad_output_spec; input_spec; weight_spec; bias_shape_opt; stride; padding;
     dilation; transposed; output_padding; groups; output_mask] =>
      weight_tensor_meta ← tensor_meta <$> as_spec weight_spec;
      bias_size ← to_size bias_shape_opt;
      input ← as_spec input_spec;
      dtype ← tm_dtype <$> meta_of input;
      let bias_tensor_meta :=
        {| tm_shape := bias_size; tm_stride := [1]; tm_dtype := dtype |} in
      let grad_input_spec := input_spec in
      grad_weight_spec ← from_dim_map (mesh input) [-1; -1; -1; -1] [0] weight_tensor_meta;
      grad_bias_spec ← from_dim_map (mesh input) [-1] [0] (Some bias_tensor_meta);
      Ok (new_OutputSharding
            (VList [grad_input_spec; VSpec grad_weight_spec; VSpec grad_bias_spec]))
  | _ => Raise ValueError
  end.

(** The registry that [register_prop_rule] fills at import time. *)
Definition rules : gmap string (OpSchema -> result OutputSharding) :=
  {[ "aten.convolution.default" := convolution_rules;
     "aten.convolution_backward.default" := convolution_backward_rules ]}.

(** The descriptors a rule resolved. *)
Definition resolved (o : OutputSharding) : list value :=
  match output_spec o with
  | VList l | VTuple l => l
  | VNone => []
  | v => [v]
  end.

(** The descriptors among the inputs of a schema. *)
Definition input_descriptors (s : OpSchema) : list DTensorSpec :=
  omap (fun v => match v with VSpec d => Some d | _ => None end)
       (args_schema s ++ (kwargs_schema s).*2).

(** ** Schemas to run the rules on *)

Definition convolution_schema : FunctionSchema :=
  {| name := "aten::convolution"; overload_name := "";
     arguments := plain <$> ["input"; "weight"; "bias"; "stride"; "padding"; "dilation";
                             "transposed"; "output_padding"; "groups"] |}.

Definition convolution_backward_schema : FunctionSchema :=
  {| name := "aten::convolution_backward"; overload_name := "";
     arguments := plain <$> ["grad_output"; "input"; "weight"; "bias_sizes"; "stride";
                             "padding"; "dilation"; "transposed"; "output_padding";
                             "groups"; "output_mask"] |}.

Definition pair_of (a b : Z) : value := VList [VInt a; VInt b].

(** [aten.convolution] of an input [(2, 3, h, w)] with sixteen kernels
    [(3, k, k)]. *)
Definition convolution_call (placements : list Placement) (h w k stride padding dilation : Z)
  : OpSchema :=
  {| func_schema := convolution_schema;
     args_schema := [VSpec (descriptor placements 2 3 h w);
                     VSpec (descriptor [Replicate] 16 3 k k);
                     VNone; pair_of stride stride; pair_of padding padding;
                     pair_of dilation dilation; VBool false; pair_of 0 0; VInt 1];
     kwargs_schema := [];
     is_inplace := false;
     is_out_variant := false |}.

(** [aten.convolution_backward] of the same call, against the gradient of
    an output [(2, 16, 8, 8)] of a kernel [(3, 3)] with padding 1. *)
Definition convolution_backward_call (placements : list Placement) : OpSchema :=
  {| func_schema := convolution_backward_schema;
     args_schema := [VSpec (descriptor placements 2 16 8 8);
                     VSpec (descriptor placements 2 3 8 8);
                     VSpec (descriptor [Replicate] 16 3 3 3);
                     VList [VInt 16]; pair_of 1 1; pair_of 1 1; pair_of 1 1;
                     VBool false; pair_of 0 0; VInt 1;
                     VList [VBool true; VBool true; VBool true]];
     kwargs_schema := [];
     is_inplace := false;
     is_out_variant := false |}.

End ConvOps.

(** * Operator dispatch (dispatch.py) *)

Module Dispatch.

(** The two fields of a distributed-tensor wrapper that dispatch.py reads
    and writes.  [_spec] is assigned through [cast], which checks nothing,
    hence a value. *)
Record DTensor : Type := {
  _local_tensor : tensor;
  _spec : value
}.

Section Dispatcher.

(** Whatever the local operators and the collectives act on. *)
Context {world : Type}.

(** The state a dispatch runs in: the distributed-tensor wrappers by
    address; the [_spec] attributes that were set on objects which are not
    wrappers; the schemas the sharding rule was invoked on, in order; and
    the outside world. *)
Record state : Type := {
  wrappers : gmap loc DTensor;
  foreign_specs : list (value * value);
  rule_calls : list OpSchema;
  ext : world
}.

Definition M (A : Type) : Type := state -> state * result A.

#[global] Instance M_ret : MRet M := fun A a s => (s, Ok a).
#[global] Instance M_bind : MBind M := fun A B f m s =>
  match m s with
  | (s', Ok a) => f a s'
  | (s', Raise e) => (s', Raise e)
  end.

Definition lift {A} (r : result A) : M A := fun s => (s, r).
Definition raise {A} (e : exn) : M A := fun s => (s, Raise e).

(** Running an outside computation, which only sees the world. *)
Definition outside {A} (f : world -> world * result A) : M A := fun s =>
  let '(w, r) := f (ext s) in
  ({| wrappers := wrappers s; foreign_specs := foreign_specs s;
      rule_calls := rule_calls s; ext := w |}, r).

Definition read_wrapper (l : loc) : M DTensor := fun s =>
  match wrappers s !! l with
  | Some d => (s, Ok d)
  | None => (s, Raise ReferenceError)
  end.

(** [obj._spec = spec]: on a wrapper the field is overwritten; a tensor or
    a descriptor takes the new attribute; the builtin objects refuse it. *)
Definition set_spec (obj spec : value) : M unit := fun s =>
  match obj with
  | VDTensor l =>
      match wrappers s !! l with
      | Some d =>
          ({| wrappers := <[l := {| _local_tensor := _local_tensor d; _spec := spec |}]> (wrappers s);
              foreign_specs := foreign_specs s;
              rule_calls := rule_calls s; ext := ext s |}, Ok tt)
      | None => (s, Raise ReferenceError)
      end
  | VTensor _ | VSpec _ =>
      ({| wrappers := wrappers s;
          foreign_specs := foreign_specs s ++ [(obj, spec)];
          rule_calls := rule_calls s; ext := ext s |}, Ok tt)
  | _ => (s, Raise AttributeError)
  end.

(** A sharding rule: the result it returns or the exception it raises, and
    the schema as the call leaves it, since a rule may update the
    non-tensor entries of the schema it is given. *)
Definition rule : Type := OpSchema -> OpSchema * result OutputSharding.

(** A rule that leaves its schema alone. *)
Definition pure_rule (f : OpSchema -> result OutputSharding) : rule :=
  fun s => (s, f s).

(** [sharding_prop_func(schema)] *)
Definition call_rule (sharding_prop_func : rule) (schema : OpSchema)
  : M (OpSchema * result OutputSharding) := fun s =>
  ({| wrappers := wrappers s; foreign_specs := foreign_specs s;
      rule_calls := rule_calls s ++ [schema]; ext := ext s |},
   Ok (sharding_prop_func schema)).

(** [torch._ops.OpOverload]: [str(op_call)], [op_call._schema] and the call
    itself, on local values. *)
Record OpOverload : Type := {
  op_key : string;
  _schema : FunctionSchema;
  op_run : list value -> list (string * value) -> world -> world * result value
}.

(** ** Module globals and the functions dispatch.py imports *)

(** [_ENABLE_FALLBACK]; [False] in the module, tests switch it on. *)
Variable _ENABLE_FALLBACK : bool.

(** [repr] of a schema, for the messages. *)
Variable repr : OpSchema -> string.

(** [redistribute_dtensor(arg, mesh, placements)] returns a wrapper of its
    own that [pack_args_kwargs_with_local_tensor] drops after reading its
    local tensor; it never enters the store. *)
Variable redistribute_dtensor :
  DTensor -> DeviceMesh -> list Placement -> world -> world * result DTensor.

(** [wrap(res, spec)] of utils.py. *)
Variable wrap : value -> value -> M value.

(** [torch.ops.aten.view(x, shape)], which dispatches again. *)
Variable aten_view : value -> value -> M value.

(** Modelled from the spec: [unwrap_schema] (utils.py is not among the
    sources): a distributed tensor is replaced by its descriptor, anything
    else passes through. *)
Definition unwrap_schema (e : value) : M value :=
  match e with
  | VDTensor l => d ← read_wrapper l; mret (_spec d)
  | _ => mret e
  end.

(** Modelled from the spec: [unwrap_local_tensor] (utils.py is not among
    the sources): a distributed tensor is replaced by its local shard,
    anything else passes through. *)
Definition unwrap_local_tensor (e : value) : M value :=
  match e with
  | VDTensor l => d ← read_wrapper l; mret (VTensor (_local_tensor d))
  | _ => mret e
  end.

(** ** Trees of values: [tree_map], [tree_flatten], [tree_unflatten] *)

Fixpoint tree_map (f : value -> M value) (v : value) : M value :=
  match v with
  | VList vs =>
      vs' ← (fix go (l : list value) : M (list value) :=
               match l with
               | [] => mret []
               | x :: xs => y ← tree_map f x; ys ← go xs; mret (y :: ys)
               end) vs;
      mret (VList vs')
  | VTuple vs =>
      vs' ← (fix go (l : list value) : M (list value) :=
               match l with
               | [] => mret []
               | x :: xs => y ← tree_map f x; ys ← go xs; mret (y :: ys)
               end) vs;
      mret (VTuple vs')
  | VDict kvs =>
      kvs' ← (fix go (l : list (string * value)) : M (list (string * value)) :=
                match l with
                | [] => mret []
                | (k, x) :: xs => y ← tree_map f x; ys ← go xs; mret ((k, y) :: ys)
                end) kvs;
      mret (VDict kvs')
  | _ => f v
  end.

(** [tree_map] on a tuple of arguments and on a dictionary of keyword
    arguments. *)
Definition tree_map_args (f : value -> M value) (args : list value) : M (list value) :=
  v ← tree_map f (VTuple args);
  match v with
  | VTuple l => mret l
  | _ => raise TypeError
  end.

Definition tree_map_kwargs (f : value -> M value) (kwargs : list (string * value))
  : M (list (string * value)) :=
  v ← tree_map f (VDict kwargs);
  match v with
  | VDict l => mret l
  | _ => raise TypeError
  end.

Inductive TreeSpec : Type :=
| LeafSpec
| ListSpec (children : list TreeSpec)
| TupleSpec (children : list TreeSpec)
| DictSpec (keys : list string) (children : list TreeSpec).

Fixpoint tree_flatten (v : value) : list value * TreeSpec :=
  match v with
  | VList vs =>
      let r := (fix go (l : list value) : list value * list TreeSpec :=
                  match l with
                  | [] => ([], [])
                  | x :: xs =>
                      let '(lx, sx) := tree_flatten x in
                      let '(lxs, sxs) := go xs in
                      (lx ++ lxs, sx :: sxs)
                  end) vs in
      (r.1, ListSpec r.2)
  | VTuple vs =>
      let r := (fix go (l : list value) : list value * list TreeSpec :=
                  match l with
                  | [] => ([], [])
                  | x :: xs =>
                      let '(lx, sx) := tree_flatten x in
                      let '(lxs, sxs) := go xs in
                      (lx ++ lxs, sx :: sxs)
                  end) vs in
      (r.1, TupleSpec r.2)
  | VDict kvs =>
      let r := (fix go (l : list (string * value)) : list value * list TreeSpec :=
                  match l with
                  | [] => ([], [])
                  | (_, x) :: xs =>
                      let '(lx, sx) := tree_flatten x in
                      let '(lxs, sxs) := go xs in
                      (lx ++ lxs, sx :: sxs)
                  end) kvs in
      (r.1, DictSpec kvs.*1 r.2)
  | _ => ([v], LeafSpec)
  end.

(** Rebuilds a tree from the front of [leaves]; what is left comes back. *)
Fixpoint unflatten_from (spec : TreeSpec) (leaves : list value)
  : option (value * list value) :=
  let children :=
    fix go (cs : list TreeSpec) (leaves : list value) : option (list value * list value) :=
      match cs with
      | [] => Some ([], leaves)
      | c :: cs' =>
          '(v, leaves) ← unflatten_from c leaves;
          '(vs, leaves) ← go cs' leaves;
          Some (v :: vs, leaves)
      end in
  match spec with
  | LeafSpec =>
      match leaves with
      | v :: rest => Some (v, rest)
      | [] => None
      end
  | ListSpec cs => '(vs, rest) ← children cs leaves; Some (VList vs, rest)
  | TupleSpec cs => '(vs, rest) ← children cs leaves; Some (VTuple vs, rest)
  | DictSpec keys cs => '(vs, rest) ← children cs leaves; Some (VDict (zip keys vs), rest)
  end.

Definition tree_unflatten (leaves : list value) (spec : TreeSpec) : result value :=
  match unflatten_from spec leaves with
  | Some (v, []) => Ok v
  | _ => Raise ValueError
  end.


(** ** [pack_args_kwargs_with_local_tensor] *)

(** One round of the loop over [enumerate(flatten_args)]. *)
Definition pack_leaf (redistribute_with_schema : bool)
    (flatten_args_schema : list value) (i : nat) (arg : value) : M (list value) :=
  match arg with
  | VDTensor l =>
      arg ← read_wrapper l;
      arg ← (if redistribute_with_schema then
               target_spec ← lift (getitem flatten_args_schema (Z.of_nat i));
               target_spec ← lift (as_spec target_spec);
               outside (redistribute_dtensor arg (mesh target_spec) (placements target_spec))
             else mret arg);
      (* reuse the schema list and update it with local tensor *)
      lift (setitem flatten_args_schema (Z.of_nat i) (VTensor (_local_tensor arg)))
  | _ => mret flatten_args_schema
  end.

Definition pack_args_kwargs_with_local_tensor (args args_schema : value)
    (redistribute_with_schema : bool) : M value :=
  let '(flatten_args, args_tree_spec) := tree_flatten args in
  let '(flatten_args_schema, _) := tree_flatten args_schema in
  flatten_args_schema ←
    foldl (fun acc '(i, arg) =>
             schema ← acc; pack_leaf redistribute_with_schema schema i arg)
          (mret flatten_args_schema) (imap pair flatten_args);
  lift (tree_unflatten flatten_args_schema args_tree_spec).

(** ** The decomposition table *)

(** [kwargs[key]] and [key in kwargs] *)
Fixpoint kw_get (key : string) (kwargs : list (string * value)) : option value :=
  match kwargs with
  | [] => None
  | (k, v) :: rest => if String.eqb k key then Some v else kw_get key rest
  end.

(** Binding the positional and keyword arguments of a call of [f] to the
    parameters [params] of [f]. *)
Definition bind_call (params : list string) (args : list value)
    (kwargs : list (string * value)) : result (list value) :=
  if (length params <? length args)%nat then Raise TypeError
  else
    let positional := take (length args) params in
    if existsb (fun '(k, _) => negb (bool_decide (k ∈ params))
                               || bool_decide (k ∈ positional)) kwargs
    then Raise TypeError
    else
      rest ← mapM (fun p => match kw_get p kwargs with
                            | Some v => Ok v
                            | None => Raise TypeError
                            end)
                  (drop (length args) params);
      Ok (args ++ rest).

Definition _reshape_alias (args : list value) (kwargs : list (string * value)) : M value :=
  bound ← lift (bind_call ["x"; "shape"; "strides"] args kwargs);
  match bound with
  | [x; shape; strides] => aten_view x shape
  | _ => raise TypeError
  end.

(** [_CURRENT_DECOMPOSITION_TABLE], keyed by the operator. *)
Definition _CURRENT_DECOMPOSITION_TABLE
  : gmap string (list value -> list (string * value) -> M value) :=
  {[ "aten._reshape_alias.default" := _reshape_alias ]}.

(** ** [propagate_input_sharding]

    [_DEBUG_VERBOSE] is [False] in the module: the branch that prints the
    schema and the local shapes is not taken. *)

Definition propagate_input_sharding (op_call : OpOverload) (args : list value)
    (kwargs : list (string * value)) (op_to_rules : gmap string rule)
  : M (OpSchema * bool * option OutputSharding) :=
  (* unwrap the args/kwargs schema *)
  args_schema ← tree_map_args unwrap_schema args;
  kwargs_schema ← tree_map_kwargs unwrap_schema kwargs;
  op_schema ← lift (new_OpSchema (_schema op_call) args_schema kwargs_schema);
  let op_key := op_key op_call in
  match op_to_rules !! op_key with
  | None =>
      (* step 1. If there's not even one sharding rule implemented for the
         operator, we fall back to local tensor compute *)
      if negb _ENABLE_FALLBACK then
        raise (NotImplementedError
                 ("Operator " +:+ op_key +:+ " does not have a DistributedTensor rule registered."))
      else mret (op_schema, false, None)
  | Some sharding_prop_func =>
      (* step 2. there's sharding propagation rule, run sharding
         propagation to get output sharding *)
      '(op_schema, outcome) ← call_rule sharding_prop_func op_schema;
      match outcome with
      | Raise e =>
          raise (ChainedRuntimeError
                   ("Sharding propagation failed on op " +:+ op_key +:+ "." +:+ newline +:+
                    "Input schema: " +:+ repr op_schema +:+ "." +:+ newline +:+
                    "Error: " +:+ exn_str e) e)
      | Ok output_sharding =>
          (* step 3. if can't get output_spec from sharding propagation, we
             do auto redistribute on inputs to get an eligble input *)
          match output_spec output_sharding with
          | VNone =>
              match schema_suggestions output_sharding with
              | Some suggestions =>
                  (* pick the first suggestion for now, *)
                  target_schema ← lift (getitem suggestions 0);
                  (* run sharding propagation again with target schema *)
                  '(target_schema, outcome) ← call_rule sharding_prop_func target_schema;
                  output_sharding ← lift outcome;
                  mret (target_schema, true, Some output_sharding)
              | None =>
                  raise (RuntimeError
                           ("Sharding propagation failed on op " +:+ op_key +:+ "!" +:+
                            "Input schema: " +:+ repr op_schema +:+ "." +:+
                            "Failed reason: " +:+ default "None" (failed_reason output_sharding)))
              end
          | _ => mret (op_schema, false, Some output_sharding)
          end
      end
  end.

(** ** [operator_dispatch] *)

(** The loop of the out-variant branch over the formal arguments. *)
Fixpoint collect_outs (arguments : list Argument) (kwargs : list (string * value))
    (output_specs : list value) (spec_idx : Z) : M (list value) :=
  match arguments with
  | [] => mret []
  | arg :: rest =>
      if is_out arg then
        out_dt ← lift (match kw_get (arg_name arg) kwargs with
                       | Some v => Ok v
                       | None => Raise (KeyError (arg_name arg))
                       end);
        spec ← lift (getitem output_specs spec_idx);
        _ ← set_spec out_dt spec;
        out_dts ← collect_outs rest kwargs output_specs (spec_idx + 1);
        mret (out_dt :: out_dts)
      else collect_outs rest kwargs output_specs spec_idx
  end.

Definition operator_dispatch (op_call : OpOverload) (args : list value)
    (kwargs : list (string * value)) (op_to_rules : gmap string rule)
    (custom_dispatch_ops : gmap string (list value -> list (string * value) -> M value))
  : M value :=
  (* first we need to lift some private aten aliases to public calls *)
  match _CURRENT_DECOMPOSITION_TABLE !! op_key op_call with
  | Some decomposition => decomposition args kwargs
  | None =>
  (* STEP 0. See if threre're user defined custom aten operator
     implementations. Custom operators take the highest priority *)
  match custom_dispatch_ops !! op_key op_call with
  | Some custom => custom args kwargs
  | None =>
  '(target_schema, redistribute, output_sharding) ←
    propagate_input_sharding op_call args kwargs op_to_rules;
  match output_sharding with
  | None =>
      (* default to local tensor ops, this is wrong but we use it now to
         enable more tensor point-wise ops *)
      tensor_args ← tree_map_args unwrap_local_tensor args;
      tensor_kwargs ← tree_map_kwargs unwrap_local_tensor kwargs;
      local_results ← outside (op_run op_call tensor_args tensor_kwargs);
      spec ← lift (getitem (args_spec target_schema) 0);
      wrap local_results spec
  | Some output_sharding =>
      local_tensor_args ←
        pack_args_kwargs_with_local_tensor (VTuple args)
          (VTuple (args_schema target_schema)) redistribute;
      local_tensor_kwargs ←
        pack_args_kwargs_with_local_tensor (VDict kwargs)
          (VDict (kwargs_schema target_schema)) redistribute;
      (* run local op computation with potentially modified args/kwargs *)
      local_tensor_args ← lift (match local_tensor_args with
                                | VTuple l | VList l => Ok l
                                | _ => Raise TypeError
                                end);
      local_tensor_kwargs ← lift (match local_tensor_kwargs with
                                  | VDict l => Ok l
                                  | _ => Raise TypeError
                                  end);
      local_results ← outside (op_run op_call local_tensor_args local_tensor_kwargs);
      if is_inplace target_schema then
        (* inplace op should return self instead of re-wrapping *)
        self ← lift (getitem args 0);
        _ ← set_spec self (output_spec output_sharding);
        mret self
      else if is_out_variant target_schema then
        (* out variant could possibly have multiple out args (i.e. lu_unpack.out) *)
        let output_specs :=
          match output_spec output_sharding with
          | VTuple l => l
          | v => [v]
          end in
        out_dts ← collect_outs (arguments (func_schema target_schema)) kwargs output_specs 0;
        _ ← lift (py_assert (1 <=? Z.of_nat (length out_dts))
                    "out variant should have at least one out arg");
        match out_dts with
        | [out_dt] => mret out_dt
        | _ => mret (VTuple out_dts)
        end
      else wrap local_results (output_spec output_sharding)
  end
  end
  end.


(** ** What the properties speak of *)

(** [v'] is [v] with every distributed tensor replaced by its local
    shard. *)
Inductive local_view (h : gmap loc DTensor) : value -> value -> Prop :=
| local_dtensor (l : loc) (d : DTensor) :
    h !! l = Some d -> local_view h (VDTensor l) (VTensor (_local_tensor d))
| local_list (vs vs' : list value) :
    Forall2 (local_view h) vs vs' -> local_view h (VList vs) (VList vs')
| local_tuple (vs vs' : list value) :
    Forall2 (local_view h) vs vs' -> local_view h (VTuple vs) (VTuple vs')
| local_dict (kvs kvs' : list (string * value)) :
    Forall2 (fun kv kv' => kv.1 = kv'.1 ∧ local_view h kv.2 kv'.2) kvs kvs' ->
    local_view h (VDict kvs) (VDict kvs')
| local_other (v : value) :
    match v with
    | VDTensor _ | VList _ | VTuple _ | VDict _ => False
    | _ => True
    end ->
    local_view h v v.

(** The store after [d._spec = spec] for each [(d, spec)] of a list, in
    order. *)
Definition assign_specs (h : gmap loc DTensor) (updates : list (loc * value))
  : gmap loc DTensor :=
  foldl (fun h '(l, spec) =>
           alter (fun d => {| _local_tensor := _local_tensor d; _spec := spec |}) l h)
        h updates.

(** The formal arguments flagged as out arguments. *)
Definition out_arguments (arguments : list Argument) : list Argument :=
  List.filter is_out arguments.

(** A step that only reads the state; one that touches neither the wrappers
    nor the attributes set on other objects. *)
Definition read_only {A} (m : M A) : Prop := forall s, (m s).1 = s.

Definition keeps_wrappers {A} (m : M A) : Prop :=
  forall s, wrappers (m s).1 = wrappers s ∧ foreign_specs (m s).1 = foreign_specs s.

Definition with_wrappers (s : state) (h : gmap loc DTensor) : state :=
  {| wrappers := h; foreign_specs := foreign_specs s;
     rule_calls := rule_calls s; ext := ext s |}.

(** ** Parts of the functions above, named for the proofs *)

(** [tree_map] on the entries of a list or tuple, and of a dictionary. *)
Definition tree_map_list (f : value -> M value) : list value -> M (list value) :=
  fix go (l : list value) : M (list value) :=
    match l with
    | [] => mret []
    | x :: xs => y ← tree_map f x; ys ← go xs; mret (y :: ys)
    end.

Definition tree_map_items (f : value -> M value)
  : list (string * value) -> M (list (string * value)) :=
  fix go (l : list (string * value)) : M (list (string * value)) :=
    match l with
    | [] => mret []
    | (k, x) :: xs => y ← tree_map f x; ys ← go xs; mret ((k, y) :: ys)
    end.

(** [propagate_input_sharding] from the lookup of the rule on. *)
Definition propagate_from (op_key : string) (op_to_rules : gmap string rule)
    (op_schema : OpSchema) : M (OpSchema * bool * option OutputSharding) :=
  match op_to_rules !! op_key with
  | None =>
      if negb _ENABLE_FALLBACK then
        raise (NotImplementedError
                 ("Operator " +:+ op_key +:+ " does not have a DistributedTensor rule registered."))
      else mret (op_schema, false, None)
  | Some sharding_prop_func =>
      '(op_schema, outcome) ← call_rule sharding_prop_func op_schema;
      match outcome with
      | Raise e =>
          raise (ChainedRuntimeError
                   ("Sharding propagation failed on op " +:+ op_key +:+ "." +:+ newline +:+
                    "Input schema: " +:+ repr op_schema +:+ "." +:+ newline +:+
                    "Error: " +:+ exn_str e) e)
      | Ok output_sharding =>
          match output_spec output_sharding with
          | VNone =>
              match schema_suggestions output_sharding with
              | Some suggestions =>
                  target_schema ← lift (getitem suggestions 0);
                  '(target_schema, outcome) ← call_rule sharding_prop_func target_schema;
                  output_sharding ← lift outcome;
                  mret (target_schema, true, Some output_sharding)
              | None =>
                  raise (RuntimeError
                           ("Sharding propagation failed on op " +:+ op_key +:+ "!" +:+
                            "Input schema: " +:+ repr op_schema +:+ "." +:+
                            "Failed reason: " +:+ default "None" (failed_reason output_sharding)))
              end
          | _ => mret (op_schema, false, Some output_sharding)
          end
      end
  end.

(** The end of the out-variant branch of [operator_dispatch]. *)
Definition out_variant_result (arguments : list Argument) (kwargs : list (string * value))
    (output_specs : list value) : M value :=
  out_dts ← collect_outs arguments kwargs output_specs 0;
  _ ← lift (py_assert (1 <=? Z.of_nat (length out_dts))
              "out variant should have at least one out arg");
  match out_dts with
  | [out_dt] => mret out_dt
  | _ => mret (VTuple out_dts)
  end.

End Dispatcher.

(** ** A small world to run dispatches in

    The outside world counts the calls of local operators. *)

(** Modelled from the spec: [wrap] (utils.py is not among the sources): a
    tensor is wrapped in a new distributed tensor with the descriptor, a
    list or tuple of tensors piecewise with a list or tuple of descriptors,
    anything else is returned as it is. *)
Definition new_wrapper (t : tensor) (spec : value) : M (world := nat) value := fun s =>
  let l := fresh (dom (wrappers s)) in
  ({| wrappers := <[l := {| _local_tensor := t; _spec := spec |}]> (wrappers s);
      foreign_specs := foreign_specs s; rule_calls := rule_calls s; ext := ext s |},
   Ok (VDTensor l)).

Definition wrap_one (res_spec : value * value) : M (world := nat) value :=
  match res_spec with
  | (VTensor t, VSpec d) => new_wrapper t (VSpec d)
  | (VTensor _, _) => raise (AssertionError "output spec does not match with output")
  | (res, _) => mret res
  end.

Fixpoint wrap_each (l : list (value * value)) : M (world := nat) (list value) :=
  match l with
  | [] => mret []
  | x :: rest => v ← wrap_one x; vs ← wrap_each rest; mret (v :: vs)
  end.

Definition wrap (res spec : value) : M (world := nat) value :=
  match res, spec with
  | VList rs, VList specs => vs ← wrap_each (zip rs specs); mret (VList vs)
  | VTuple rs, VTuple specs => vs ← wrap_each (zip rs specs); mret (VTuple vs)
  | VList _, _ | VTuple _, _ => raise (AssertionError "output spec does not match with output")
  | _, _ => wrap_one (res, spec)
  end.

(** A redistribution that has nothing to do, a [view] that is never
    reached, and the name of the operator for [repr]. *)
Definition redistribute_nothing (d : DTensor) (_ : DeviceMesh) (_ : list Placement)
    (w : nat) : nat * result DTensor := (w, Ok d).

Definition view_unreached (_ _ : value) : M (world := nat) value :=
  raise (NotImplementedError "aten.view").

Definition repr_name (s : OpSchema) : string := name (func_schema s).

(** [aten.add_.Tensor(self, other)] returns [self]; [aten.add.out(self,
    other, *, out)] returns [out]; [aten.add.Tensor] a new tensor. *)
Definition aten_add_ : OpOverload (world := nat) :=
  {| op_key := "aten.add_.Tensor";
     _schema := {| name := "aten::add_"; overload_name := "Tensor";
                   arguments := plain <$> ["self"; "other"] |};
     op_run := fun args _ w =>
       (S w, match args with
             | [VTensor x; VTensor _] => Ok (VTensor x)
             | _ => Raise TypeError
             end) |}.

Definition aten_add_out : OpOverload (world := nat) :=
  {| op_key := "aten.add.out";
     _schema := {| name := "aten::add"; overload_name := "out";
                   arguments := (plain <$> ["self"; "other"])
                                ++ [{| arg_name := "out"; is_out := true |}] |};
     op_run := fun args kwargs w =>
       (S w, match args, kwargs with
             | [VTensor _; VTensor _], [(_, VTensor out)] => Ok (VTensor out)
             | [VTensor _; VTensor _; VTensor out], [] => Ok (VTensor out)
             | _, _ => Raise TypeError
             end) |}.

Definition aten_add : OpOverload (world := nat) :=
  {| op_key := "aten.add.Tensor";
     _schema := {| name := "aten::add"; overload_name := "Tensor";
                   arguments := plain <$> ["self"; "other"] |};
     op_run := fun args _ w =>
       (S w, match args with
             | [VTensor x; VTensor y] => Ok (VTensor (x + y)%nat)
             | _ => Raise TypeError
             end) |}.

(** A pointwise rule: the output takes the descriptor of the first input. *)
Definition pointwise_rule : rule :=
  pure_rule (fun s =>
    match args_spec s with
    | spec :: _ => Ok (new_OutputSharding spec)
    | [] => Raise (AssertionError "no distributed tensor among the inputs")
    end).

(** A rule that wants every input replicated: on other inputs it resolves
    nothing and suggests the schema with every descriptor made Replicate. *)
Definition replicate_all (d : DTensorSpec) : DTensorSpec :=
  {| mesh := mesh d;
     placements := replicate (length (placements d)) Replicate;
     tensor_meta := tensor_meta d |}.

Definition replicate_inputs (s : OpSchema) : OpSchema :=
  {| func_schema := func_schema s;
     args_schema := (fun v => match v with
                              | VSpec d => VSpec (replicate_all d)
                              | _ => v
                              end) <$> args_schema s;
     kwargs_schema := kwargs_schema s;
     is_inplace := is_inplace s;
     is_out_variant := is_out_variant s |}.

Definition replicated_only_rule : rule :=
  pure_rule (fun s =>
    match args_spec s with
    | VSpec d :: _ =>
        if forallb (fun v => match v with VSpec d => fully_replicate d | _ => true end)
                   (args_schema s)
        then Ok (new_OutputSharding (VSpec d))
        else Ok {| output_spec := VNone;
                   schema_suggestions := Some [replicate_inputs s];
                   failed_reason := Some "every input must be replicated" |}
    | _ => Raise (AssertionError "no distributed tensor among the inputs")
    end).

(** A rule that never resolves: it answers every schema with that schema as
    its only suggestion. *)
Definition undecided_rule : rule :=
  pure_rule (fun s =>
    Ok {| output_spec := VNone; schema_suggestions := Some [s];
          failed_reason := Some "undecided" |}).

Definition registry : gmap string rule :=
  {[ "aten.add_.Tensor" := replicated_only_rule;
     "aten.add.out" := pointwise_rule;
     "aten.mul.Tensor" := undecided_rule ]}.

Definition aten_mul : OpOverload (world := nat) :=
  {| op_key := "aten.mul.Tensor";
     _schema := {| name := "aten::mul"; overload_name := "Tensor";
                   arguments := plain <$> ["self"; "other"] |};
     op_run := fun args _ w =>
       (S w, match args with
             | [VTensor x; VTensor y] => Ok (VTensor (x * y)%nat)
             | _ => Raise TypeError
             end) |}.

(** Three wrappers, sharded on the first tensor dimension over
    [mesh_of_two]. *)
Definition sharded : value := VSpec (descriptor [Shard 0] 4 1 1 1).
Definition replicated : value := VSpec (descriptor [Replicate] 4 1 1 1).

Definition three_wrappers : state (world := nat) :=
  {| wrappers := {[ 0%nat := {| _local_tensor := 10%nat; _spec := sharded |};
                    1%nat := {| _local_tensor := 11%nat; _spec := sharded |};
                    2%nat := {| _local_tensor := 12%nat; _spec := replicated |} ]};
     foreign_specs := [];
     rule_calls := [];
     ext := 0%nat |}.

Definition dispatch (fallback : bool) (op_call : OpOverload (world := nat))
    (args : list value) (kwargs : list (string * value)) : M (world := nat) value :=
  operator_dispatch fallback repr_name redistribute_nothing wrap view_unreached
    op_call args kwargs registry ∅.

End Dispatch.

(** * Runs of a rank's program *)

Module TPConvRuns.
Import TPConv.

Section Runs.
Context {elem : Type}.

(** What a program returns when its receive buffers are filled by [feed]. *)
Fixpoint outcome {A} (feed : list (P2POp (elem := elem)) -> list (tensor (elem := elem)))
    (p : comm A) : result A :=
  match p with
  | Return r => r
  | BatchIsendIrecv ops k => outcome feed (k (feed ops))
  end.

End Runs.

End TPConvRuns.

(** * The tensor dimensions a descriptor shards *)

Module ShardDims.

(** The tensor dimensions named by the [Shard] placements of a descriptor,
    in the order of the mesh dimensions. *)
Definition shard_dims (s : DTensorSpec) : list Z :=
  omap (fun p => match p with Shard d => Some d | _ => None end) (placements s).

End ShardDims.

(** * Trees of arguments seen without the store *)

Module DispatchViews.
Import Dispatch.

(** A leaf of a tree of values: neither a list, a tuple nor a dictionary. *)
Definition is_leaf (v : value) : bool :=
  match v with
  | VList _ | VTuple _ | VDict _ => false
  | _ => true
  end.

(** [f] applied to every leaf of a tree. *)
Fixpoint map_leaves (f : value -> value) (v : value) : value :=
  match v with
  | VList vs => VList (map (map_leaves f) vs)
  | VTuple vs => VTuple (map (map_leaves f) vs)
  | VDict kvs => VDict (map (fun '(k, x) => (k, map_leaves f x)) kvs)
  | _ => f v
  end.

Section Views.
(** The store of wrappers the views are taken in. *)
Variable h : gmap loc DTensor.

(** What [unwrap_schema] and [unwrap_local_tensor] make of a leaf whose
    wrapper, if it is one, is in the store. *)
Definition leaf_schema (v : value) : value :=
  match v with
  | VDTensor l => from_option _spec VNone (h !! l)
  | _ => v
  end.

Definition leaf_local (v : value) : value :=
  match v with
  | VDTensor l => from_option (fun d => VTensor (_local_tensor d)) VNone (h !! l)
  | _ => v
  end.

(** The arguments with every distributed tensor replaced by its
    descriptor, and by its local shard. *)
Definition schema_of : value -> value := map_leaves leaf_schema.
Definition local_of : value -> value := map_leaves leaf_local.

Definition schema_of_kwargs (kwargs : list (string * value)) : list (string * value) :=
  map (fun '(k, x) => (k, schema_of x)) kwargs.
Definition local_of_kwargs (kwargs : list (string * value)) : list (string * value) :=
  map (fun '(k, x) => (k, local_of x)) kwargs.

(** Every distributed tensor of the tree is in the store, with a
    descriptor that is a leaf. *)
Fixpoint live (v : value) : bool :=
  match v with
  | VDTensor l =>
      match h !! l with
      | Some d => is_leaf (_spec d)
      | None => false
      end
  | VList vs | VTuple vs => forallb live vs
  | VDict kvs => forallb (fun '(_, x) => live x) kvs
  | _ => true
  end.

(** The entry [pack_args_kwargs_with_local_tensor] ends up with at the
    place of a leaf [arg] of the arguments whose place in the schema holds
    [entry]. *)
Definition packed_leaf (arg entry : value) : value :=
  match arg with
  | VDTensor _ => leaf_local arg
  | _ => entry
  end.

End Views.

(** ** Parts of [tree_flatten] and [unflatten_from], named for the proofs *)

Definition flatten_list : list value -> list value * list TreeSpec :=
  fix go (l : list value) : list value * list TreeSpec :=
    match l with
    | [] => ([], [])
    | x :: xs =>
        let '(lx, sx) := tree_flatten x in
        let '(lxs, sxs) := go xs in
        (lx ++ lxs, sx :: sxs)
    end.

Definition flatten_items : list (string * value) -> list value * list TreeSpec :=
  fix go (l : list (string * value)) : list value * list TreeSpec :=
    match l with
    | [] => ([], [])
    | (_, x) :: xs =>
        let '(lx, sx) := tree_flatten x in
        let '(lxs, sxs) := go xs in
        (lx ++ lxs, sx :: sxs)
    end.

Definition unflatten_children : list TreeSpec -> list value -> option (list value * list value) :=
  fix go (cs : list TreeSpec) (leaves : list value) : option (list value * list value) :=
    match cs with
    | [] => Some ([], leaves)
    | c :: cs' =>
        '(v, leaves) ← unflatten_from c leaves;
        '(vs, leaves) ← go cs' leaves;
        Some (v :: vs, leaves)
    end.

End DispatchViews.

(** * Facts on the Python preliminaries *)

Module PyFacts.

Example slice_from_minus_zero : py_slice (Some (- 0)) None [1; 2; 3] = [1; 2; 3].
Proof. reflexivity. Qed.

Example slice_from_minus_one : py_slice (Some (- 1)) None [1; 2; 3] = [3].
Proof. reflexivity. Qed.

Example slice_up_to : py_slice None (Some 2) [1; 2; 3] = [1; 2].
Proof. reflexivity. Qed.

Example slice_up_to_minus_zero : py_slice None (Some (- 0)) [1; 2; 3] = [].
Proof. reflexivity. Qed.

Lemma py_index_nat len (i : nat) :
  (i < len)%nat -> py_index (Z.of_nat len) (Z.of_nat i) = Some i.
Proof.
  intros H. unfold py_index.
  destruct (Z.leb_spec 0 (Z.of_nat i)); [|lia].
  destruct (Z.ltb_spec (Z.of_nat i) (Z.of_nat len)); [|lia].
  cbn. rewrite Nat2Z.id. reflexivity.
Qed.

Lemma py_index_lt len i j : py_index len i = Some j -> Z.of_nat j < len.
Proof.
  unfold py_index.
  destruct (Z.leb_spec 0 i), (Z.ltb_spec i len); cbn; try (intros [= <-]; lia).
  all: destruct (Z.leb_spec (- len) i), (Z.ltb_spec i 0); cbn; try discriminate;
    intros [= <-]; lia.
Qed.

Lemma getitem_nat {A} (l : list A) (n : nat) x :
  l !! n = Some x -> getitem l (Z.of_nat n) = Ok x.
Proof.
  intros H. unfold getitem. rewrite py_index_nat by (eapply lookup_lt_Some; exact H).
  rewrite H. reflexivity.
Qed.

Lemma getitem_0 {A} (a : A) l : getitem (a :: l) 0 = Ok a.
Proof. apply (getitem_nat (a :: l) 0). reflexivity. Qed.

Lemma getitem_1 {A} (a b : A) l : getitem (a :: b :: l) 1 = Ok b.
Proof. apply (getitem_nat (a :: b :: l) 1). reflexivity. Qed.

Lemma getitem_2 {A} (a b c : A) l : getitem (a :: b :: c :: l) 2 = Ok c.
Proof. apply (getitem_nat (a :: b :: c :: l) 2). reflexivity. Qed.

Lemma getitem_3 {A} (a b c d : A) l : getitem (a :: b :: c :: d :: l) 3 = Ok d.
Proof. apply (getitem_nat (a :: b :: c :: d :: l) 3). reflexivity. Qed.

Lemma floordiv_nonzero a b : b ≠ 0 -> floordiv a b = Ok (a / b).
Proof. intros H. unfold floordiv. destruct (Z.eqb_spec b 0); [contradiction|reflexivity]. Qed.

Lemma halves_add (d : Z) : (d / 2 + (d - d / 2) =? d) = true.
Proof. apply Z.eqb_eq. lia. Qed.

Lemma fmap_ok {A B} (f : A -> B) (r : result A) b :
  f <$> r = Ok b -> exists a, r = Ok a ∧ b = f a.
Proof. destruct r; [|discriminate]. intros [= <-]. eauto. Qed.

End PyFacts.
Import PyFacts.

(** * The halo-exchange convolution *)

Module TPConvFacts.
Import TPConv.

Section IsSupported.
Context {elem : Type}.
Variables (n c h W co ci kh kw s0 s1 p0 p1 d0 d1 : Z).
Variables (irest krest srest prest drest : list Z).

Let input_size := n :: c :: h :: W :: irest.
Let kernel_size := co :: ci :: kh :: kw :: krest.
Let stride : arg (elem := elem) := AInts (s0 :: s1 :: srest).
Let padding : arg (elem := elem) := AInts (p0 :: p1 :: prest).
Let dilation : arg (elem := elem) := AInts (d0 :: d1 :: drest).

Lemma is_supported_cases :
  s1 ≠ 0 ->
  _is_supported input_size kernel_size stride padding dilation =
    if negb (d1 =? 1) then Raise (RuntimeError "Dilation must be 1 for tensor parallel convolution.")
    else if negb (p1 =? 0) then
      if negb (s1 =? 1) then Raise (RuntimeError "Stride must be 1 when there is padding for tensor parallel convolution.")
      else if W <? kw / 2 then Raise (RuntimeError "kernel_size[3] // 2 should be less than or equal to input_size[3] for tensor parallel convolution.")
      else Ok true
    else if (W mod s1 =? 0) && (s1 =? kw) then Ok true
    else Raise (RuntimeError "It requires that input_size[3] is divisible by stride[1] and stride[1] equals kernel_size[3] when there is padding for tensor parallel convolution.").
Proof.
  intros Hs. unfold _is_supported, int_at, stride, padding, dilation, input_size, kernel_size.
  rewrite !getitem_1, !getitem_3. cbn [mbind result_bind].
  destruct (d1 =? 1); [|reflexivity]. cbn [negb].
  destruct (p1 =? 0); cbn [negb].
  - unfold pymod. destruct (Z.eqb_spec s1 0); [contradiction|]. cbn [mbind result_bind].
    destruct (W mod s1 =? 0); cbn; [destruct (s1 =? kw)|]; reflexivity.
  - destruct (s1 =? 1); cbn [negb]; [|reflexivity].
    destruct (W <? kw / 2); reflexivity.
Qed.
End IsSupported.

(** What [_is_supported] answers on sizes of at least four entries and
    hyperparameters of at least two, a zero stride included: the tests in
    the order of the code. *)
Lemma is_supported_outcome {elem : Type}
    (n c h W co ci kh kw s0 s1 p0 p1 d0 d1 : Z) (irest krest srest prest drest : list Z) :
  _is_supported (elem := elem) (n :: c :: h :: W :: irest) (co :: ci :: kh :: kw :: krest)
    (AInts (s0 :: s1 :: srest)) (AInts (p0 :: p1 :: prest)) (AInts (d0 :: d1 :: drest)) =
    if negb (d1 =? 1) then Raise (RuntimeError "Dilation must be 1 for tensor parallel convolution.")
    else if negb (p1 =? 0) then
      if negb (s1 =? 1) then Raise (RuntimeError "Stride must be 1 when there is padding for tensor parallel convolution.")
      else if W <? kw / 2 then Raise (RuntimeError "kernel_size[3] // 2 should be less than or equal to input_size[3] for tensor parallel convolution.")
      else Ok true
    else if s1 =? 0 then Raise ZeroDivisionError
    else if (W mod s1 =? 0) && (s1 =? kw) then Ok true
    else Raise (RuntimeError "It requires that input_size[3] is divisible by stride[1] and stride[1] equals kernel_size[3] when there is padding for tensor parallel convolution.").
Proof.
  destruct (Z.eqb_spec s1 0) as [->|Hs].
  - unfold _is_supported, int_at. rewrite !getitem_1, !getitem_3. cbn [mbind result_bind].
    destruct (d1 =? 1); [|reflexivity]. cbn [negb].
    destruct (p1 =? 0); cbn [negb]; [reflexivity|].
    change (0 =? 1) with false. reflexivity.
  - apply is_supported_cases, Hs.
Qed.

(** Claim C5 as it is stated fails: no padding, dilation 1, and a stride of
    0 along the sharded axis, against a kernel of width 2.  The padding is
    zero and the stride does not equal the kernel width, yet what
    [_is_supported] raises is the ZeroDivisionError of
    [input_size[3] % stride[1]], not a RuntimeError. *)
Lemma zero_stride_without_padding_is_no_runtime_error :
  let input_size := [1; 1; 1; 4] in
  let kernel_size := [1; 1; 1; 2] in
  let stride : arg (elem := Z) := AInts [1; 0] in
  let padding : arg (elem := Z) := AInts [0; 0] in
  let dilation : arg (elem := Z) := AInts [1; 1] in
  let outcome := _is_supported input_size kernel_size stride padding dilation in
  int_at dilation 1 = Ok 1
  ∧ int_at padding 1 = Ok 0
  ∧ int_at stride 1 = Ok 0
  ∧ getitem kernel_size 3 = Ok 2
  ∧ 0 ≠ 2
  ∧ outcome = Raise ZeroDivisionError
  ∧ ¬ exists msg, outcome = Raise (RuntimeError msg).
Proof.
  repeat split; [lia|]. intros [msg H]. discriminate H.
Qed.

(** Claim C5, as the code has it.  On sizes of at least four entries and
    hyperparameters of at least two, [_is_supported] raises a RuntimeError
    exactly when a precondition fails on the sharded axis, with the message
    of the first test that fails: [dilation[1]] is not 1 ("Dilation must be
    1 ..."); or [padding[1]] is not 0 and [stride[1]] is not 1 ("Stride must
    be 1 ..."); or [padding[1]] is not 0 and [kernel_size[3] // 2] exceeds
    [input_size[3]] ("kernel_size[3] // 2 should be ..."); or [padding[1]]
    is 0, [stride[1]] is not 0, and [input_size[3]] is not a multiple of
    [stride[1]] or [stride[1]] differs from [kernel_size[3]] ("It requires
    that ...").  With dilation 1, no padding and a stride of 0 it raises
    ZeroDivisionError instead.  In every other case it returns [True].
    [tp_convolution] called with dilation [(2, 2)] raises the error that
    names the dilation without posting any point-to-point operation. *)
Theorem is_supported_rejects_exactly {elem : Type}
    (n c h W co ci kh kw s0 s1 p0 p1 d0 d1 : Z) (irest krest srest prest drest : list Z) :
  let outcome :=
    _is_supported (elem := elem) (n :: c :: h :: W :: irest) (co :: ci :: kh :: kw :: krest)
      (AInts (s0 :: s1 :: srest)) (AInts (p0 :: p1 :: prest)) (AInts (d0 :: d1 :: drest)) in
  ((exists msg, outcome = Raise (RuntimeError msg)) <->
     (d1 ≠ 1
      ∨ (p1 ≠ 0 ∧ s1 ≠ 1)
      ∨ (p1 ≠ 0 ∧ kw / 2 > W)
      ∨ (p1 = 0 ∧ s1 ≠ 0 ∧ (W mod s1 ≠ 0 ∨ s1 ≠ kw))))
  ∧ (outcome = Raise (RuntimeError "Dilation must be 1 for tensor parallel convolution.")
     <-> d1 ≠ 1)
  ∧ (outcome = Raise (RuntimeError
       "Stride must be 1 when there is padding for tensor parallel convolution.")
     <-> d1 = 1 ∧ p1 ≠ 0 ∧ s1 ≠ 1)
  ∧ (outcome = Raise (RuntimeError
       "kernel_size[3] // 2 should be less than or equal to input_size[3] for tensor parallel convolution.")
     <-> d1 = 1 ∧ p1 ≠ 0 ∧ s1 = 1 ∧ kw / 2 > W)
  ∧ (outcome = Raise (RuntimeError
       "It requires that input_size[3] is divisible by stride[1] and stride[1] equals kernel_size[3] when there is padding for tensor parallel convolution.")
     <-> d1 = 1 ∧ p1 = 0 ∧ s1 ≠ 0 ∧ (W mod s1 ≠ 0 ∨ s1 ≠ kw))
  ∧ (outcome = Raise ZeroDivisionError <-> d1 = 1 ∧ p1 = 0 ∧ s1 = 0)
  ∧ (outcome = Ok true <->
     d1 = 1 ∧ ((p1 ≠ 0 ∧ s1 = 1 ∧ kw / 2 <= W)
               ∨ (p1 = 0 ∧ s1 ≠ 0 ∧ W mod s1 = 0 ∧ s1 = kw)))
  ∧ (outcome = Ok true ∨ outcome = Raise ZeroDivisionError
     ∨ exists msg, outcome = Raise (RuntimeError msg))
  ∧ (forall (ezero : elem) op_call rank size x w bias stride padding
            transposed output_padding groups kwargs,
       op_name op_call = aten_convolution_default ->
       let program :=
         tp_convolution ezero op_call rank size
           [ATensor x; ATensor w; bias; stride; padding; AInts [2; 2];
            transposed; output_padding; groups] kwargs in
       program = Return (Raise (RuntimeError "Dilation must be 1 for tensor parallel convolution."))
       ∧ forall feed, posted feed program = []).
Proof.
  intros outcome. subst outcome. rewrite (is_supported_outcome (elem := elem)).
  assert (forall (b : bool) (P : Prop), reflect P b -> b = true -> P) as Hyes
    by (intros b P [|]; [tauto|discriminate]).
  assert (forall (b : bool) (P : Prop), reflect P b -> b = false -> ¬ P) as Hno
    by (intros b P [|]; [discriminate|tauto]).
  destruct (d1 =? 1) eqn:Ed; cbn [negb];
    [apply (Hyes _ _ (Z.eqb_spec _ _)) in Ed|apply (Hno _ _ (Z.eqb_spec _ _)) in Ed].
  2: { repeat split; intros; try tauto; try discriminate; eauto;
         try (exfalso; intuition congruence).
       - unfold tp_convolution. rewrite H. reflexivity.
       - unfold tp_convolution. rewrite H. reflexivity. }
  destruct (p1 =? 0) eqn:Ep; cbn [negb];
    [apply (Hyes _ _ (Z.eqb_spec _ _)) in Ep|apply (Hno _ _ (Z.eqb_spec _ _)) in Ep].
  - destruct (s1 =? 0) eqn:Es;
      [apply (Hyes _ _ (Z.eqb_spec _ _)) in Es|apply (Hno _ _ (Z.eqb_spec _ _)) in Es].
    + repeat split; intros; try tauto; try discriminate; eauto;
        try (exfalso; intuition congruence).
      * destruct H as [? H]; discriminate H.
      * unfold tp_convolution. rewrite H. reflexivity.
      * unfold tp_convolution. rewrite H. reflexivity.
    + destruct (W mod s1 =? 0) eqn:Em; cbn [andb];
        [apply (Hyes _ _ (Z.eqb_spec _ _)) in Em|apply (Hno _ _ (Z.eqb_spec _ _)) in Em].
      * destruct (s1 =? kw) eqn:Ek;
          [apply (Hyes _ _ (Z.eqb_spec _ _)) in Ek|apply (Hno _ _ (Z.eqb_spec _ _)) in Ek].
        -- repeat split; intros; try tauto; try discriminate; eauto;
             try (exfalso; intuition congruence).
           ++ destruct H as [? H]; discriminate H.
           ++ unfold tp_convolution. rewrite H. reflexivity.
           ++ unfold tp_convolution. rewrite H. reflexivity.
        -- repeat split; intros; try tauto; try discriminate; eauto 10;
             try (exfalso; intuition congruence).
           ++ unfold tp_convolution. rewrite H. reflexivity.
           ++ unfold tp_convolution. rewrite H. reflexivity.
      * repeat split; intros; try tauto; try discriminate; eauto 10;
          try (exfalso; intuition congruence).
        -- unfold tp_convolution. rewrite H. reflexivity.
        -- unfold tp_convolution. rewrite H. reflexivity.
  - destruct (s1 =? 1) eqn:Es; cbn [negb];
      [apply (Hyes _ _ (Z.eqb_spec _ _)) in Es|apply (Hno _ _ (Z.eqb_spec _ _)) in Es].
    + destruct (W <? kw / 2) eqn:Ew;
        [apply (Hyes _ _ (Z.ltb_spec0 _ _)) in Ew|apply (Hno _ _ (Z.ltb_spec0 _ _)) in Ew].
      * repeat split; intros; try tauto; try discriminate; eauto 10;
          try (exfalso; intuition (congruence || lia)); try (intuition lia).
        -- unfold tp_convolution. rewrite H. reflexivity.
        -- unfold tp_convolution. rewrite H. reflexivity.
      * repeat split; intros; try tauto; try discriminate; eauto 10;
          try (exfalso; intuition (congruence || lia)); try (intuition lia).
        -- destruct H as [? H]; discriminate H.
        -- unfold tp_convolution. rewrite H. reflexivity.
        -- unfold tp_convolution. rewrite H. reflexivity.
    + repeat split; intros; try tauto; try discriminate; eauto 10;
        try (exfalso; intuition (congruence || lia)).
      * unfold tp_convolution. rewrite H. reflexivity.
      * unfold tp_convolution. rewrite H. reflexivity.
Qed.

Lemma is_supported_rejects_exactly_witness :
  let program :=
    tp_convolution 0 convolution_ref 1 3
      (conv_args [1; 2; 3; 4] [1; 1; 1] [1; 1] [0; 1] [2; 2]) [] in
  op_name convolution_ref = aten_convolution_default
  ∧ program = Return (Raise (RuntimeError "Dilation must be 1 for tensor parallel convolution."))
  ∧ forall feed, posted feed program = [].
Proof.
  split; [reflexivity|].
  destruct (is_supported_rejects_exactly (elem := Z) 1 1 1 4 1 1 1 3 1 1 0 1 2 2
              [] [] [] [] []) as (_ & _ & _ & _ & _ & _ & _ & _ & Hrun).
  exact (Hrun 0 convolution_ref 1 3 (row [1; 2; 3; 4]) (row [1; 1; 1]) ANone (AInts [1; 1])
           (AInts [0; 1]) (ABool false) (AInts [0; 0]) (AInt 1) [] eq_refl).
Defined.

(** One step through a program: a step that returns or raises is split in
    its two outcomes, a branch in its two sides. *)
Ltac ring_step :=
  lazymatch goal with
  | |- follows_ring _ _ (Return _) => apply ring_return
  | |- follows_ring _ _ (lift _) => apply ring_return
  | |- follows_ring _ _ (mbind _ (lift ?r)) =>
      destruct r; cbn [mbind comm_mbind comm_bind lift]
  | |- follows_ring _ _ (comm_bind _ (lift ?r)) =>
      destruct r; cbn [mbind comm_mbind comm_bind lift]
  | |- follows_ring _ _ (match ?r with Ok _ => _ | Raise _ => _ end) => destruct r
  | |- follows_ring _ _ (if ?b then _ else _) => destruct b
  | |- follows_ring _ _ (match ?p with pair _ _ => _ end) => destruct p
  end.

Section Ring.
Context {elem : Type} (ezero : elem) (eadd : elem -> elem -> elem).
Variables (op_call : OpOverload (elem := elem)) (rank size : Z).
Variables (args : list (arg (elem := elem))) (kwds : kwargs (elem := elem)).
Hypothesis Hsize : 1 < size.

Lemma reconstruct_first (t l l' r : tensor (elem := elem)) :
  rank = 0 -> reconstruct rank size t l r = reconstruct rank size t l' r.
Proof. intros ->. reflexivity. Qed.

Lemma reconstruct_last (t l r r' : tensor (elem := elem)) :
  rank = size - 1 -> reconstruct rank size t l r = reconstruct rank size t l r'.
Proof using Hsize.
  intros ->. unfold reconstruct.
  destruct (Z.eqb_spec (size - 1) 0); [lia|]. rewrite Z.eqb_refl. reflexivity.
Qed.

Lemma resume_follows_ring t received :
  follows_ring rank size (tp_convolution_resume op_call rank size args kwds t received).
Proof. unfold tp_convolution_resume. repeat ring_step. Qed.

Lemma exchange_follows_ring in_tensor weight_shape :
  follows_ring rank size
    (tp_convolution_exchange ezero op_call rank size args kwds in_tensor weight_shape).
Proof using Hsize.
  unfold tp_convolution_exchange. ring_step; [|ring_step].
  rewrite halves_add. cbn [py_assert mbind comm_mbind comm_bind lift].
  unfold pymod. destruct (Z.eqb_spec size 0); [lia|].
  cbn [mbind comm_mbind comm_bind lift]. ring_step; [|ring_step].
  apply ring_batch.
  - intros Hr l l' r. unfold tp_convolution_resume.
    rewrite !getitem_0, !getitem_1. cbn [mbind comm_mbind comm_bind lift].
    unfold tp_convolution_local. rewrite (reconstruct_first _ l l' r Hr). reflexivity.
  - intros Hr l r r'. unfold tp_convolution_resume.
    rewrite !getitem_0, !getitem_1. cbn [mbind comm_mbind comm_bind lift].
    unfold tp_convolution_local. rewrite (reconstruct_last _ l r r' Hr). reflexivity.
  - apply resume_follows_ring.
Qed.

Lemma tp_convolution_follows_ring :
  follows_ring rank size (tp_convolution ezero op_call rank size args kwds).
Proof using Hsize.
  unfold tp_convolution. repeat ring_step. apply exchange_follows_ring.
Qed.

Lemma aggregate_first d1 d2 (g l l' r : tensor (elem := elem)) :
  rank = 0 -> aggregate eadd rank size d1 d2 g l r = aggregate eadd rank size d1 d2 g l' r.
Proof. intros ->. reflexivity. Qed.

Lemma aggregate_last d1 d2 (g l r r' : tensor (elem := elem)) :
  rank = size - 1 ->
  aggregate eadd rank size d1 d2 g l r = aggregate eadd rank size d1 d2 g l r'.
Proof using Hsize.
  intros ->. unfold aggregate.
  destruct (Z.eqb_spec (size - 1) 0); [lia|]. rewrite Z.eqb_refl. reflexivity.
Qed.

Lemma backward_local_first grad_out (t l l' r : tensor (elem := elem)) :
  rank = 0 ->
  tp_convolution_backward_local ezero op_call rank size args kwds grad_out t l r =
  tp_convolution_backward_local ezero op_call rank size args kwds grad_out t l' r.
Proof.
  intros Hr. unfold tp_convolution_backward_local.
  rewrite (reconstruct_first _ l l' r Hr). reflexivity.
Qed.

Lemma backward_local_last grad_out (t l r r' : tensor (elem := elem)) :
  rank = size - 1 ->
  tp_convolution_backward_local ezero op_call rank size args kwds grad_out t l r =
  tp_convolution_backward_local ezero op_call rank size args kwds grad_out t l r'.
Proof using Hsize.
  intros Hr. unfold tp_convolution_backward_local.
  rewrite (reconstruct_last _ l r r' Hr). reflexivity.
Qed.

Lemma backward_resume_grad_follows_ring d1 d2 results g received :
  follows_ring rank size
    (tp_convolution_backward_resume_grad eadd rank size d1 d2 results g received).
Proof. unfold tp_convolution_backward_resume_grad. repeat ring_step. Qed.

Lemma backward_resume_follows_ring grad_out t d1 d2 received :
  follows_ring rank size
    (tp_convolution_backward_resume ezero eadd op_call rank size args kwds grad_out t d1 d2
       ((rank + 1) mod size) ((rank - 1 + size) mod size) received).
Proof using Hsize.
  unfold tp_convolution_backward_resume. do 3 (ring_step; [|ring_step]).
  ring_step. apply ring_batch.
  - intros Hr l l' r. unfold tp_convolution_backward_resume_grad.
    rewrite !getitem_0, !getitem_1. cbn [mbind comm_mbind comm_bind lift].
    unfold tp_convolution_backward_finish.
    rewrite (aggregate_first _ _ _ l l' r Hr). reflexivity.
  - intros Hr l r r'. unfold tp_convolution_backward_resume_grad.
    rewrite !getitem_0, !getitem_1. cbn [mbind comm_mbind comm_bind lift].
    unfold tp_convolution_backward_finish.
    rewrite (aggregate_last _ _ _ l r r' Hr). reflexivity.
  - apply backward_resume_grad_follows_ring.
Qed.

Lemma backward_exchange_follows_ring grad_out in_tensor weight_shape :
  follows_ring rank size
    (tp_convolution_backward_exchange ezero eadd op_call rank size args kwds
       grad_out in_tensor weight_shape).
Proof using Hsize.
  unfold tp_convolution_backward_exchange. ring_step; [|ring_step].
  rewrite halves_add. cbn [py_assert mbind comm_mbind comm_bind lift].
  unfold pymod. destruct (Z.eqb_spec size 0); [lia|].
  cbn [mbind comm_mbind comm_bind lift]. ring_step; [|ring_step].
  apply ring_batch.
  - intros Hr l l' r. unfold tp_convolution_backward_resume.
    rewrite !getitem_0, !getitem_1. cbn [mbind comm_mbind comm_bind lift].
    rewrite (backward_local_first _ _ l l' r Hr). reflexivity.
  - intros Hr l r r'. unfold tp_convolution_backward_resume.
    rewrite !getitem_0, !getitem_1. cbn [mbind comm_mbind comm_bind lift].
    rewrite (backward_local_last _ _ l r r' Hr). reflexivity.
  - apply backward_resume_follows_ring.
Qed.

Lemma tp_convolution_backward_follows_ring :
  follows_ring rank size (tp_convolution_backward ezero eadd op_call rank size args kwds).
Proof using Hsize.
  unfold tp_convolution_backward. repeat ring_step. apply backward_exchange_follows_ring.
Qed.

End Ring.

Section ForwardPaths.
Context {elem : Type} (ezero : elem).
Variables (op_call : OpOverload (elem := elem)) (rank size : Z) (x w : tensor (elem := elem)).
Variables (bias stride dilation transposed output_padding groups : arg (elem := elem)).
Variables (p0 p1 : Z) (prest : list Z) (kwds : kwargs (elem := elem)).

Let padding : arg (elem := elem) := AInts (p0 :: p1 :: prest).
Let args : list (arg (elem := elem)) :=
  [ATensor x; ATensor w; bias; stride; padding; dilation; transposed; output_padding; groups].

Hypothesis Hop : op_name op_call = aten_convolution_default.
Hypothesis Hsupported : _is_supported (shape x) (shape w) stride padding dilation = Ok true.

Lemma tp_convolution_no_exchange :
  p1 = 0 ->
  tp_convolution ezero op_call rank size args kwds = Return (op_run op_call args kwds).
Proof using Hop Hsupported.
  intros ->. unfold tp_convolution. rewrite Hop. subst args padding.
  cbv -[_is_supported shape op_run _requires_data_exchange]. rewrite Hsupported.
  unfold _requires_data_exchange, int_at. rewrite getitem_1. reflexivity.
Qed.

Lemma tp_convolution_takes_exchange :
  p1 ≠ 0 ->
  tp_convolution ezero op_call rank size args kwds =
  tp_convolution_exchange ezero op_call rank size args kwds (ATensor x) (shape w).
Proof using Hop Hsupported.
  intros Hp. unfold tp_convolution. rewrite Hop. subst args padding.
  cbv -[_is_supported shape op_run _requires_data_exchange tp_convolution_exchange].
  rewrite Hsupported.
  unfold _requires_data_exchange, int_at. rewrite getitem_1.
  cbn [mbind result_bind].
  destruct (Z.eqb_spec p1 0) as [|_]; [contradiction|]. reflexivity.
Qed.

Lemma exchange_posts rank' size' args' in_tensor :
  size' ≠ 0 ->
  tp_convolution_exchange ezero op_call rank' size' args' kwds (ATensor in_tensor) (shape w) =
    let d := width w - 1 in
    let send_to_right := slice_last (Some (- (d / 2))) None in_tensor in
    let send_to_left := slice_last None (Some (d - d / 2)) in_tensor in
    BatchIsendIrecv
      (halo_batch send_to_right send_to_left (zeros_like ezero send_to_right)
         (zeros_like ezero send_to_left) ((rank' + 1) mod size') ((rank' - 1 + size') mod size'))
      (tp_convolution_resume op_call rank' size' args' kwds in_tensor).
Proof.
  intros Hsize. unfold tp_convolution_exchange, shape. rewrite getitem_3.
  cbn [mbind comm_mbind comm_bind lift]. rewrite halves_add.
  cbn [py_assert mbind comm_mbind comm_bind lift].
  unfold pymod. destruct (Z.eqb_spec size' 0) as [|_]; [contradiction|]. reflexivity.
Qed.

End ForwardPaths.

(** Backward: the two paths. *)
Section BackwardPaths.
Context {elem : Type} (ezero : elem) (eadd : elem -> elem -> elem).
Variables (op_call : OpOverload (elem := elem)) (rank size : Z) (x w : tensor (elem := elem)).
Variables (grad_out bias stride dilation transposed output_padding groups output_mask
           : arg (elem := elem)).
Variables (p0 p1 : Z) (prest : list Z) (kwds : kwargs (elem := elem)).

Let padding : arg (elem := elem) := AInts (p0 :: p1 :: prest).
Let args : list (arg (elem := elem)) :=
  [grad_out; ATensor x; ATensor w; bias; stride; padding; dilation; transposed;
   output_padding; groups; output_mask].

Hypothesis Hop : op_name op_call = aten_convolution_backward_default.
Hypothesis Hsupported : _is_supported (shape x) (shape w) stride padding dilation = Ok true.

Lemma tp_convolution_backward_takes_exchange :
  p1 ≠ 0 ->
  tp_convolution_backward ezero eadd op_call rank size args kwds =
  tp_convolution_backward_exchange ezero eadd op_call rank size args kwds grad_out
    (ATensor x) (shape w).
Proof using Hop Hsupported.
  intros Hp. unfold tp_convolution_backward. rewrite Hop. subst args padding.
  cbv -[_is_supported shape op_run _requires_data_exchange tp_convolution_backward_exchange].
  rewrite Hsupported.
  unfold _requires_data_exchange, int_at. rewrite getitem_1.
  cbn [mbind result_bind].
  destruct (Z.eqb_spec p1 0) as [|_]; [contradiction|]. reflexivity.
Qed.

Lemma backward_exchange_posts rank' size' args' g in_tensor :
  size' ≠ 0 ->
  tp_convolution_backward_exchange ezero eadd op_call rank' size' args' kwds g
      (ATensor in_tensor) (shape w) =
    let d := width w - 1 in
    let send_to_right := slice_last (Some (- (d / 2))) None in_tensor in
    let send_to_left := slice_last None (Some (d - d / 2)) in_tensor in
    BatchIsendIrecv
      (halo_batch send_to_right send_to_left (zeros_like ezero send_to_right)
         (zeros_like ezero send_to_left) ((rank' + 1) mod size') ((rank' - 1 + size') mod size'))
      (tp_convolution_backward_resume ezero eadd op_call rank' size' args' kwds g in_tensor
         (d / 2) (d - d / 2) ((rank' + 1) mod size') ((rank' - 1 + size') mod size')).
Proof.
  intros Hsize. unfold tp_convolution_backward_exchange, shape. rewrite getitem_3.
  cbn [mbind comm_mbind comm_bind lift]. rewrite halves_add.
  cbn [py_assert mbind comm_mbind comm_bind lift].
  unfold pymod. destruct (Z.eqb_spec size' 0) as [|_]; [contradiction|]. reflexivity.
Qed.

End BackwardPaths.

(** Claim C4, as the code has it.  For arguments that [_is_supported]
    accepts and whose [padding[1]] is 0, [tp_convolution] returns exactly
    what the operator returns on the local tensors and posts no
    point-to-point operation, at world size 1 as at any other. *)
Theorem tp_convolution_without_padding {elem : Type} (ezero : elem)
    (op_call : OpOverload (elem := elem)) (rank size : Z) (x w : tensor (elem := elem))
    (bias stride dilation transposed output_padding groups : arg (elem := elem))
    (p0 : Z) (prest : list Z) (kwds : kwargs (elem := elem)) :
  op_name op_call = aten_convolution_default ->
  _is_supported (shape x) (shape w) stride (AInts (p0 :: 0 :: prest)) dilation = Ok true ->
  let args := [ATensor x; ATensor w; bias; stride; AInts (p0 :: 0 :: prest); dilation;
               transposed; output_padding; groups] in
  let program := tp_convolution ezero op_call rank size args kwds in
  program = Return (op_run op_call args kwds) ∧ forall feed, posted feed program = [].
Proof.
  intros Hop Hsupported args program. subst program args.
  rewrite (tp_convolution_no_exchange ezero) by (assumption || reflexivity).
  split; reflexivity.
Qed.

Lemma tp_convolution_without_padding_witness :
  op_name convolution_ref = aten_convolution_default
  ∧ _is_supported (elem := Z) (shape (row [1; 2; 3; 4])) (shape (row [1; 1])) (AInts [1; 2])
      (AInts [0; 0]) (AInts [1; 1]) = Ok true
  ∧ tp_convolution 0 convolution_ref 0 1 (conv_args [1; 2; 3; 4] [1; 1] [1; 2] [0; 0] [1; 1]) []
    = Return (Ok (ATensor (row [3; 7]))).
Proof.
  split; [reflexivity|]. split; [reflexivity|].
  destruct (tp_convolution_without_padding 0 convolution_ref 0 1
              (row [1; 2; 3; 4]) (row [1; 1]) ANone (AInts [1; 2]) (AInts [1; 1])
              (ABool false) (AInts [0; 0]) (AInt 1) 0 [] []
              eq_refl eq_refl) as [-> _].
  reflexivity.
Defined.

(** Claim C4 as it is stated fails: one rank, a kernel of width 3 and
    padding 1.  The call is supported, four point-to-point operations are
    posted, and the result differs from the plain convolution in its last
    column. *)
Lemma world_size_one_with_padding :
  let args := conv_args [1; 2; 3] [1; 1; 1] [1; 1] [0; 1] [1; 1] in
  let program := tp_convolution 0 convolution_ref 0 1 args [] in
  _is_supported (elem := Z) (shape (row [1; 2; 3])) (shape (row [1; 1; 1])) (AInts [1; 1])
    (AInts [0; 1]) (AInts [1; 1]) = Ok true
  ∧ program ≠ Return (op_run convolution_ref args [])
  ∧ length (batch_of program) = 4%nat
  ∧ run_ranks 2 [program] = Some [Ok (ATensor (row [3; 6; 6]))]
  ∧ op_run convolution_ref args [] = Ok (ATensor (row [3; 6; 5])).
Proof. repeat split. discriminate. Qed.

(** Claim C9, as the code has it.  In the halo-exchange paths of
    [tp_convolution] and [tp_convolution_backward], for a world of more
    than one rank, every rank, the first and the last included, posts a
    send and a receive for each of [(rank + 1) % size] and
    [(rank - 1 + size) % size]; for rank 0 the latter is [size - 1] and for
    rank [size - 1] the former is 0.  What sets the edge ranks apart is the
    use of the data: rank 0 goes on without looking at what it received from
    the left, rank [size - 1] without looking at what it received from the
    right.  The second exchange of the backward pass has the same shape. *)
Theorem every_rank_addresses_both_ring_neighbours {elem : Type} (ezero : elem)
    (eadd : elem -> elem -> elem) (forward_op backward_op : OpOverload (elem := elem))
    (rank size : Z) (x w : tensor (elem := elem))
    (grad_out bias bias_sizes stride dilation transposed output_padding groups output_mask
     : arg (elem := elem))
    (p0 p1 : Z) (prest : list Z) (kwds : kwargs (elem := elem)) :
  1 < size -> 0 <= rank < size ->
  op_name forward_op = aten_convolution_default ->
  op_name backward_op = aten_convolution_backward_default ->
  _is_supported (shape x) (shape w) stride (AInts (p0 :: p1 :: prest)) dilation = Ok true ->
  p1 ≠ 0 ->
  let right := (rank + 1) mod size in
  let left := (rank - 1 + size) mod size in
  let forward :=
    tp_convolution ezero forward_op rank size
      [ATensor x; ATensor w; bias; stride; AInts (p0 :: p1 :: prest); dilation;
       transposed; output_padding; groups] kwds in
  let backward :=
    tp_convolution_backward ezero eadd backward_op rank size
      [grad_out; ATensor x; ATensor w; bias_sizes; stride; AInts (p0 :: p1 :: prest);
       dilation; transposed; output_padding; groups; output_mask] kwds in
  (send_peers (batch_of forward) = [right; left]
   ∧ recv_peers (batch_of forward) = [left; right]
   ∧ follows_ring rank size forward)
  ∧ (send_peers (batch_of backward) = [right; left]
     ∧ recv_peers (batch_of backward) = [left; right]
     ∧ follows_ring rank size backward)
  ∧ (rank = 0 -> left = size - 1)
  ∧ (rank = size - 1 -> right = 0).
Proof.
  intros Hsize Hrank Hf Hb Hsupported Hp right left forward backward.
  assert (size ≠ 0) by lia.
  repeat split.
  - subst forward. rewrite (tp_convolution_takes_exchange ezero) by assumption.
    rewrite exchange_posts by assumption. reflexivity.
  - subst forward. rewrite (tp_convolution_takes_exchange ezero) by assumption.
    rewrite exchange_posts by assumption. reflexivity.
  - apply tp_convolution_follows_ring. assumption.
  - subst backward. rewrite (tp_convolution_backward_takes_exchange ezero eadd) by assumption.
    rewrite backward_exchange_posts by assumption. reflexivity.
  - subst backward. rewrite (tp_convolution_backward_takes_exchange ezero eadd) by assumption.
    rewrite backward_exchange_posts by assumption. reflexivity.
  - apply tp_convolution_backward_follows_ring. assumption.
  - intros ->. subst left. replace (0 - 1 + size) with (size - 1) by lia.
    apply Z.mod_small. lia.
  - intros ->. subst right. replace (size - 1 + 1) with size by lia.
    apply Z.mod_same. lia.
Qed.

Lemma every_rank_addresses_both_ring_neighbours_witness :
  1 < 4 ∧ 0 <= 0 < 4
  ∧ send_peers (batch_of (tp_convolution 0 convolution_ref 0 4
                            (conv_args [1; 2; 3; 4] [1; 1; 1] [1; 1] [0; 1] [1; 1]) []))
    = [(0 + 1) mod 4; (0 - 1 + 4) mod 4]
  ∧ (0 = 0 -> (0 - 1 + 4) mod 4 = 4 - 1).
Proof.
  split; [lia|]. split; [lia|].
  pose proof (every_rank_addresses_both_ring_neighbours 0 Z.add convolution_ref
                convolution_backward_ref 0 4 (row [1; 2; 3; 4]) (row [1; 1; 1])
                (ATensor (row [1; 1; 1; 1])) ANone ANone (AInts [1; 1]) (AInts [1; 1])
                (ABool false) (AInts [0; 0]) (AInt 1) (ABools [true; true; false])
                0 1 [] []
                ltac:(lia) ltac:(lia) eq_refl eq_refl eq_refl ltac:(lia))
    as [[Hs _] [_ [Hl _]]].
  split; [exact Hs | exact Hl].
Defined.

(** Claim C9 as it is stated fails: among four ranks, rank 0 sends to and
    receives from rank 3, and rank 3 sends to and receives from rank 0, in
    the forward and in the backward pass. *)
Lemma edge_ranks_address_the_wrap_around_neighbour :
  let forward r :=
    tp_convolution 0 convolution_ref r 4
      (conv_args [1; 2; 3; 4] [1; 1; 1] [1; 1] [0; 1] [1; 1]) [] in
  let backward r :=
    tp_convolution_backward 0 Z.add convolution_backward_ref r 4
      (conv_backward_args [1; 1; 1; 1] [1; 2; 3; 4] [1; 1; 1] [1; 1] [0; 1] [1; 1]) [] in
  (send_peers (batch_of (forward 0)) = [1; 3] ∧ recv_peers (batch_of (forward 0)) = [3; 1])
  ∧ (send_peers (batch_of (forward 3)) = [0; 2] ∧ recv_peers (batch_of (forward 3)) = [2; 0])
  ∧ (send_peers (batch_of (backward 0)) = [1; 3] ∧ recv_peers (batch_of (backward 0)) = [3; 1])
  ∧ (send_peers (batch_of (backward 3)) = [0; 2] ∧ recv_peers (batch_of (backward 3)) = [2; 0]).
Proof. repeat split. Qed.

(** Claim C2.  Two ranks holding four columns each, a kernel of width 2,
    stride 1, padding 1 and dilation 1: [_is_supported] accepts the call,
    rank 0 returns the five columns of its shard of the oracle, and rank 1
    returns eight columns where its shard of the oracle has four.  With
    [d1 = 0] the slice [in_tensor[:, :, :, -d1:]] is the whole tensor, so
    rank 1 puts all of its neighbour's columns in front of its own. *)
Theorem halo_exchange_kernel_of_width_two :
  let shards := [[1; 2; 3; 4]; [5; 6; 7; 8]] in
  _is_supported (elem := Z) (shape (row [5; 6; 7; 8])) (shape (row [1; 1])) (AInts [1; 1])
    (AInts [0; 1]) (AInts [1; 1]) = Ok true
  ∧ tp_convolution_world convolution_ref shards [1; 1] [1; 1] [0; 1] [1; 1]
    = Some [Ok (ATensor (row [1; 3; 5; 7; 9]));
            Ok (ATensor (row [3; 5; 7; 9; 11; 13; 15; 8]))]
  ∧ oracle convolution_ref shards [1; 1] [1; 1] [0; 1] [1; 1]
    = Ok [row [1; 3; 5; 7; 9]; row [11; 13; 15; 8]].
Proof. repeat split. Qed.

(** On a kernel of width 3 with padding 1 the four ranks do return the
    shards of the oracle. *)
Example halo_exchange_same_convolution :
  let shards := [[1; 2; 3; 4]; [5; 6; 7; 8]; [9; 10; 11; 12]; [13; 14; 15; 16]] in
  (fmap (M := list) (fmap (M := result) ATensor)) <$>
    Some ((fmap (M := list) Ok) [row [210; 321; 432; 543]; row [654; 765; 876; 987];
            row [1098; 1209; 1320; 1431]; row [1542; 1653; 1764; 175]])
  = tp_convolution_world convolution_ref shards [1; 10; 100] [1; 1] [0; 1] [1; 1]
  ∧ oracle convolution_ref shards [1; 10; 100] [1; 1] [0; 1] [1; 1]
    = Ok [row [210; 321; 432; 543]; row [654; 765; 876; 987];
          row [1098; 1209; 1320; 1431]; row [1542; 1653; 1764; 175]].
Proof. split; reflexivity. Qed.

End TPConvFacts.

(** * The convolution rules *)

Module ConvOpsFacts.
Import Sharding ConvOps.

(** ** Facts on [dim_map], [sums] and [from_dim_map] *)

Lemma foldl_raise {A B} (f : result A -> B -> result A) e l :
  (forall b, f (Raise e) b = Raise e) -> foldl f (Raise e) l = Raise e.
Proof. intros Hf. induction l as [|b l IH]; cbn; [reflexivity|]. rewrite Hf. exact IH. Qed.

Lemma dim_map_replicate_fold (pls : list (nat * Placement)) (r : list Z) :
  forallb (fun ip => is_replicate ip.2) pls = true ->
  foldl (fun acc '(i, p) =>
           r ← acc;
           match p with
           | Shard d => setitem r d (Z.of_nat i)
           | _ => Ok r
           end) (Ok r) pls = Ok r.
Proof.
  induction pls as [|[i p] pls IH]; cbn; [reflexivity|].
  intros H. apply andb_prop in H as [Hp H].
  destruct p; try discriminate. apply IH, H.
Qed.

Lemma forallb_imap_snd {A} (f : A -> bool) (l : list A) :
  forallb (fun ip : nat * A => f ip.2) (imap pair l) = forallb f l.
Proof.
  assert (forall k, forallb (fun ip : nat * A => f ip.2) (imap (fun i => pair (k + i)%nat) l)
                    = forallb f l) as H.
  { induction l as [|a l IH]; intros k; cbn; [reflexivity|].
    f_equal. rewrite <- (IH (S k)). f_equal. apply imap_ext. intros. cbn. f_equal. lia. }
  apply (H 0%nat).
Qed.

Lemma dim_map_fully_replicate (s : DTensorSpec) (m : TensorMeta) :
  tensor_meta s = Some m -> fully_replicate s = true ->
  dim_map s = Ok (replicate (length (tm_shape m)) (-1)).
Proof.
  intros Hm Hr. unfold dim_map. rewrite Hm. cbn [mbind result_bind].
  apply dim_map_replicate_fold. rewrite forallb_imap_snd. exact Hr.
Qed.

Lemma sums_fully_replicate (s : DTensorSpec) :
  fully_replicate s = true -> sums s = [].
Proof.
  unfold sums, fully_replicate. generalize (placements s). intros l.
  assert (forall k, forallb is_replicate l = true ->
            omap (fun '(i, p) => if is_partial p then Some (Z.of_nat i) else None)
                 (imap (fun i => pair (k + i)%nat) l) = []) as H.
  { induction l as [|p l IH]; intros k; cbn; [reflexivity|].
    intros H. apply andb_prop in H as [Hp H]. destruct p; try discriminate. cbn.
    rewrite <- (IH (S k) H). f_equal. apply imap_ext. intros. cbn. f_equal. lia. }
  apply (H 0%nat).
Qed.

Lemma from_dim_map_unsharded_fold (pl : list Placement) (ms : list (nat * Z)) :
  forallb (fun im => im.2 <? 0) ms = true ->
  foldl (fun acc '(i, m) =>
           pl ← acc;
           if 0 <=? m then
             placement ← getitem pl m;
             match placement with
             | Shard _ => Raise (RuntimeError "DeviceMesh dimension cann't be mapped to two dimension of the same tensor")
             | _Partial => Raise (RuntimeError "DeviceMesh dimension cannot be both shard and partial!")
             | Replicate => setitem pl m (Shard (Z.of_nat i))
             end
           else Ok pl) (Ok pl) ms = Ok pl.
Proof.
  induction ms as [|[i m] ms IH]; cbn; [reflexivity|].
  intros H. apply andb_prop in H as [Hm H]. cbn in Hm.
  destruct (Z.leb_spec 0 m); [apply Z.ltb_lt in Hm; lia|]. apply IH, H.
Qed.

Lemma from_dim_map_unsharded (mesh : DeviceMesh) (n : nat) (sums : list Z) tm :
  from_dim_map mesh (replicate n (-1)) sums tm =
    placements ← foldl (fun acc s => pl ← acc; setitem pl s _Partial)
                       (Ok (replicate (mesh_ndim mesh) Replicate)) sums;
    Ok {| Sharding.mesh := mesh; placements := placements; tensor_meta := tm |}.
Proof.
  unfold from_dim_map.
  destruct (foldl _ _ sums) as [pl|e]; cbn [mbind result_bind]; [|reflexivity].
  rewrite from_dim_map_unsharded_fold; [reflexivity|].
  rewrite (forallb_imap_snd (fun m => m <? 0)). induction n; cbn; [reflexivity|assumption].
Qed.

Lemma from_dim_map_tensor_meta mesh dm sm tm spec :
  from_dim_map mesh dm sm tm = Ok spec ->
  tensor_meta spec = tm ∧ Sharding.mesh spec = mesh.
Proof.
  unfold from_dim_map.
  destruct (foldl _ _ sm) as [pl|e]; cbn [mbind result_bind]; [|discriminate].
  destruct (foldl _ _ (imap pair dm)) as [pl'|e]; cbn [mbind result_bind]; [|discriminate].
  intros [= <-]. split; reflexivity.
Qed.

Lemma from_dim_map_partial_on_first (mesh : DeviceMesh) (n : nat) tm spec :
  from_dim_map mesh (replicate n (-1)) [0] tm = Ok spec ->
  placements spec = _Partial :: replicate (mesh_ndim mesh - 1) Replicate.
Proof.
  rewrite from_dim_map_unsharded. cbn [foldl mbind result_bind].
  unfold setitem, py_index. rewrite length_replicate.
  destruct (mesh_ndim mesh) as [|k] eqn:E.
  - cbn. discriminate.
  - replace ((0 <=? 0) && (0 <? Z.of_nat (S k))) with true
      by (symmetry; apply andb_true_intro; split; [reflexivity | apply Z.ltb_lt; lia]).
    cbn. intros [= <-]. cbn. rewrite Nat.sub_0_r. reflexivity.
Qed.

(** Splits a step that returned or raised in a hypothesis that says the
    whole returned. *)
Ltac returned_in H :=
  match type of H with
  | mbind _ ?e = Ok _ =>
      let E := fresh "E" in
      destruct e eqn:E; cbn [mbind result_bind] in H; [|discriminate H]
  | match ?e with Ok _ => _ | Raise _ => _ end = Ok _ =>
      let E := fresh "E" in
      destruct e eqn:E; cbn [mbind result_bind] in H; [|discriminate H]
  end.

Ltac nine_arguments H l :=
  do 9 (destruct l as [|? l]; [discriminate H|]);
  destruct l; [|discriminate H].

Ltac eleven_arguments H l :=
  do 11 (destruct l as [|? l]; [discriminate H|]);
  destruct l; [|discriminate H].

Lemma as_spec_ok v d : as_spec v = Ok d -> v = VSpec d.
Proof. destruct v; try discriminate. intros [= ->]. reflexivity. Qed.

Lemma meta_of_ok d m : meta_of d = Ok m -> tensor_meta d = Some m.
Proof. unfold meta_of. destruct (tensor_meta d); [|discriminate]. intros [= ->]. reflexivity. Qed.

Lemma convolution_rules_placements (schema : OpSchema) (out : OutputSharding) :
  convolution_rules schema = Ok out ->
  exists input rest spec m,
    args_schema schema = VSpec input :: rest
    ∧ tensor_meta input = Some m
    ∧ output_spec out = VSpec spec
    ∧ (exists dm, dim_map input = Ok dm
                  ∧ from_dim_map (mesh input) dm (sums input) (tensor_meta spec) = Ok spec).
Proof.
  unfold convolution_rules. intros H.
  destruct (args_schema schema) as [|a0 l] eqn:Hargs; [discriminate H|].
  do 8 (destruct l as [|? l]; [discriminate H|]).
  destruct l; [|discriminate H].
  returned_in H. apply as_spec_ok in E as ->.
  returned_in H. apply fmap_ok in E as (m & Hm%meta_of_ok & ->).
  repeat returned_in H. injection H as <-.
  match goal with E : from_dim_map _ _ _ _ = Ok _ |- _ => rename E into Hfrom end.
  match goal with E : dim_map _ = Ok _ |- _ => rename E into Hdm end.
  eexists _, _, _, _. split; [reflexivity|]. split; [exact Hm|]. split; [reflexivity|].
  eexists. split; [exact Hdm|].
  destruct (from_dim_map_tensor_meta _ _ _ _ _ Hfrom) as [-> _]. exact Hfrom.
Qed.

(** Claim C3, as the code has it.  When every descriptor among the inputs
    of a schema is fully Replicate: the descriptor [convolution_rules]
    resolves is fully Replicate; of the three [convolution_backward_rules]
    resolves, the gradient of the input is fully Replicate, while those of
    the weight and of the bias carry the pending-reduction marker on mesh
    dimension 0 and Replicate on every other mesh dimension. *)
Theorem replicate_passthrough (schema : OpSchema) (out : OutputSharding) :
  Forall (fun d => fully_replicate d = true) (input_descriptors schema) ->
  (convolution_rules schema = Ok out ->
     exists spec, resolved out = [VSpec spec] ∧ fully_replicate spec = true)
  ∧ (convolution_backward_rules schema = Ok out ->
     exists grad_input grad_weight grad_bias,
       resolved out = [VSpec grad_input; VSpec grad_weight; VSpec grad_bias]
       ∧ fully_replicate grad_input = true
       ∧ placements grad_weight
         = _Partial :: replicate (mesh_ndim (mesh grad_input) - 1) Replicate
       ∧ placements grad_bias
         = _Partial :: replicate (mesh_ndim (mesh grad_input) - 1) Replicate).
Proof.
  intros Hin. split.
  - intros H.
    destruct (convolution_rules_placements _ _ H)
      as (input & rest & spec & m & Hargs & Hm & Hout & dm & Hdm & Hfrom).
    assert (fully_replicate input = true) as Hr.
    { unfold input_descriptors in Hin. rewrite Hargs in Hin. cbn in Hin.
      apply Forall_cons in Hin as [Hr _]. exact Hr. }
    exists spec. split; [unfold resolved; rewrite Hout; reflexivity|].
    rewrite (dim_map_fully_replicate _ _ Hm Hr) in Hdm. injection Hdm as <-.
    rewrite (sums_fully_replicate _ Hr), from_dim_map_unsharded in Hfrom.
    cbn in Hfrom. injection Hfrom as Hspec. rewrite <- Hspec.
    unfold fully_replicate. cbn. clear.
    induction (mesh_ndim (mesh input)); [reflexivity|assumption].
  - unfold convolution_backward_rules. intros H.
    returned_in H.
    destruct (args_schema schema) as [|a0 l] eqn:Hargs; [discriminate H|].
    do 10 (destruct l as [|? l]; [discriminate H|]).
    destruct l; [|discriminate H].
    repeat returned_in H. injection H as <-.
    match goal with E : as_spec ?v = Ok ?d |- _ =>
      apply as_spec_ok in E; subst v; rename d into input end.
    assert (fully_replicate input = true) as Hr.
    { unfold input_descriptors in Hin. rewrite Hargs in Hin. cbn in Hin.
      destruct a0; cbn in Hin;
        repeat match goal with H : Forall _ (_ :: _) |- _ => apply Forall_cons in H as [? H] end;
        assumption. }
    eexists input, _, _. split; [reflexivity|]. split; [exact Hr|].
    split; eapply (from_dim_map_partial_on_first _ 4%nat) || eapply (from_dim_map_partial_on_first _ 1%nat);
      eassumption.
Qed.

Lemma replicate_passthrough_witness :
  Forall (fun d => fully_replicate d = true)
         (input_descriptors (convolution_call [Replicate] 8 8 3 1 1 1))
  ∧ exists spec out,
      convolution_rules (convolution_call [Replicate] 8 8 3 1 1 1) = Ok out
      ∧ resolved out = [VSpec spec] ∧ fully_replicate spec = true.
Proof.
  assert (Forall (fun d => fully_replicate d = true)
            (input_descriptors (convolution_call [Replicate] 8 8 3 1 1 1))) as Hin.
  { repeat constructor. }
  split; [exact Hin|].
  destruct (convolution_rules (convolution_call [Replicate] 8 8 3 1 1 1)) as [out|] eqn:E;
    [|discriminate E].
  destruct (replicate_passthrough _ out Hin) as [H _].
  destruct (H E) as (spec & ? & ?). exists spec, out. auto.
Defined.

(** Claim C3 as it is stated fails on [convolution_backward_rules]: with
    every input fully Replicate on a mesh of one dimension the gradients of
    the weight and of the bias are resolved as pending reductions. *)
Lemma backward_rule_leaves_pending_reductions :
  let schema := convolution_backward_call [Replicate] in
  forallb fully_replicate (input_descriptors schema) = true
  ∧ exists grad_input grad_weight grad_bias,
      resolved <$> convolution_backward_rules schema
        = Ok [VSpec grad_input; VSpec grad_weight; VSpec grad_bias]
      ∧ fully_replicate grad_input = true
      ∧ fully_replicate grad_weight = false ∧ placements grad_weight = [_Partial]
      ∧ fully_replicate grad_bias = false ∧ placements grad_bias = [_Partial].
Proof. split; [reflexivity|]. eexists _, _, _. repeat split. Qed.

(** ** [from_dim_map] accepts the [dim_map] and [sums] of a descriptor *)

Lemma dim_map_fold_invariant (n : nat) (pls : list Placement) :
  (forall i d, pls !! i = Some (Shard d) -> is_Some (py_index (Z.of_nat n) d)) ->
  exists r,
    foldl (fun acc '(i, p) =>
             r ← acc;
             match p with
             | Shard d => setitem r d (Z.of_nat i)
             | _ => Ok r
             end) (Ok (replicate n (-1))) (imap pair pls) = Ok r
    ∧ length r = n
    ∧ forall j m, r !! j = Some m ->
        m = -1 ∨ exists i d, m = Z.of_nat i ∧ pls !! i = Some (Shard d)
                             ∧ py_index (Z.of_nat n) d = Some j.
Proof.
  induction pls as [|p pls IH] using rev_ind; intros Hv.
  - exists (replicate n (-1)). split; [reflexivity|]. split; [apply length_replicate|].
    intros j m [-> _]%lookup_replicate. left. reflexivity.
  - destruct IH as (r & Hr & Hlen & Hinv).
    { intros i d Hi. apply (Hv i d). apply lookup_app_l_Some. exact Hi. }
    rewrite imap_app, foldl_app, Hr. cbn [imap foldl mbind result_bind].
    assert (forall j m,
              (m = -1 ∨ exists i d, m = Z.of_nat i ∧ pls !! i = Some (Shard d)
                                    ∧ py_index (Z.of_nat n) d = Some j) ->
              m = -1 ∨ exists i d, m = Z.of_nat i ∧ (pls ++ [p]) !! i = Some (Shard d)
                                   ∧ py_index (Z.of_nat n) d = Some j) as Hweak.
    { intros j m [->|(i & d & -> & Hi & Hj)]; [left; reflexivity|].
      right. exists i, d. split; [reflexivity|]. split; [|exact Hj].
      apply lookup_app_l_Some. exact Hi. }
    destruct p as [d| |]; try (exists r; split; [reflexivity|]; split; [exact Hlen|];
                               intros j m Hj; apply Hweak, Hinv, Hj).
    destruct (Hv (length pls) d) as [j0 Hj0].
    { rewrite lookup_app_r by lia. rewrite Nat.sub_diag. reflexivity. }
    unfold setitem. rewrite Hlen, Hj0.
    eexists. split; [reflexivity|]. split; [rewrite length_insert; exact Hlen|].
    intros j m Hj. destruct (decide (j = j0)) as [->|Hne].
    + rewrite list_lookup_insert_eq in Hj
        by (rewrite Hlen; apply py_index_lt in Hj0; lia).
      injection Hj as <-. right. exists (length pls + 0)%nat, d.
      split; [reflexivity|]. split; [|exact Hj0].
      rewrite lookup_app_r by lia. replace (length pls + 0 - length pls)%nat with 0%nat by lia.
      reflexivity.
    + rewrite list_lookup_insert_ne in Hj by congruence. apply Hweak, Hinv, Hj.
Qed.

Lemma sums_fold_invariant (pls : list Placement) (pl : list Placement) :
  (length pls <= length pl)%nat ->
  exists pl',
    foldl (fun acc s => pl ← acc; setitem pl s _Partial) (Ok pl)
      (omap (fun '(i, p) => if is_partial p then Some (Z.of_nat i) else None) (imap pair pls))
      = Ok pl'
    ∧ length pl' = length pl
    ∧ forall i, pl' !! i = pl !! i ∨ pls !! i = Some _Partial.
Proof.
  induction pls as [|p pls IH] using rev_ind; intros Hlen.
  - exists pl. split; [reflexivity|]. split; [reflexivity|]. intros i. left. reflexivity.
  - rewrite length_app in Hlen. cbn in Hlen.
    destruct IH as (pl' & Hpl' & Hlen' & Hinv); [lia|].
    rewrite imap_app, omap_app, foldl_app, Hpl'. cbn [imap omap].
    assert (forall i, pl' !! i = pl !! i ∨ (pls ++ [p]) !! i = Some _Partial) as Hweak.
    { intros i. destruct (Hinv i) as [H|H]; [left; exact H|].
      right. apply lookup_app_l_Some. exact H. }
    destruct p; cbn; try (exists pl'; split; [reflexivity|]; split; [exact Hlen'|exact Hweak]).
    unfold setitem. rewrite py_index_nat by lia. replace (length pls + 0)%nat with (length pls) by lia.
    eexists. split; [reflexivity|]. split; [rewrite length_insert; exact Hlen'|].
    intros i. destruct (decide (i = length pls)) as [->|Hne].
    + right. rewrite lookup_app_r by lia. rewrite Nat.sub_diag. reflexivity.
    + rewrite list_lookup_insert_ne by congruence. apply Hweak.
Qed.

Lemma shard_fold_succeeds (ms : list (nat * Z)) (pl : list Placement) :
  (forall k i m, ms !! k = Some (i, m) -> 0 <= m -> pl !! Z.to_nat m = Some Replicate) ->
  (forall k k' i i' m, ms !! k = Some (i, m) -> ms !! k' = Some (i', m) -> 0 <= m -> k = k') ->
  exists pl',
    foldl (fun acc '(i, m) =>
             pl ← acc;
             if 0 <=? m then
               placement ← getitem pl m;
               match placement with
               | Shard _ => Raise (RuntimeError "DeviceMesh dimension cann't be mapped to two dimension of the same tensor")
               | _Partial => Raise (RuntimeError "DeviceMesh dimension cannot be both shard and partial!")
               | Replicate => setitem pl m (Shard (Z.of_nat i))
               end
             else Ok pl) (Ok pl) ms = Ok pl'.
Proof.
  revert pl. induction ms as [|[i m] ms IH]; intros pl Hrep Hdup.
  - exists pl. reflexivity.
  - cbn [foldl mbind result_bind]. destruct (Z.leb_spec 0 m) as [Hm|Hm].
    + pose proof (Hrep 0%nat i m eq_refl Hm) as Hpl.
      assert (py_index (Z.of_nat (length pl)) m = Some (Z.to_nat m)) as Hidx.
      { apply lookup_lt_Some in Hpl. rewrite <- (Z2Nat.id m) at 1 by lia.
        apply py_index_nat. exact Hpl. }
      unfold getitem, setitem. rewrite Hidx, Hpl. cbn [mbind result_bind].
      apply IH.
      * intros k i' m' Hk Hm'.
        assert (m' ≠ m) as Hne.
        { intros ->. pose proof (Hdup 0%nat (S k) i i' m eq_refl Hk Hm). discriminate. }
        rewrite list_lookup_insert_ne by lia. apply (Hrep (S k) i' m' Hk Hm').
      * intros k k' i1 i2 m' Hk Hk' Hm'.
        pose proof (Hdup (S k) (S k') i1 i2 m' Hk Hk' Hm'). lia.
    + apply IH.
      * intros k i' m' Hk Hm'. apply (Hrep (S k) i' m' Hk Hm').
      * intros k k' i1 i2 m' Hk Hk' Hm'.
        pose proof (Hdup (S k) (S k') i1 i2 m' Hk Hk' Hm'). lia.
Qed.

Lemma from_dim_map_accepts (s : DTensorSpec) (m : TensorMeta) tm :
  tensor_meta s = Some m ->
  well_formed s (length (tm_shape m)) = true ->
  exists dm spec,
    dim_map s = Ok dm ∧ from_dim_map (mesh s) dm (sums s) tm = Ok spec.
Proof.
  intros Hm Hwf. apply andb_prop in Hwf as [Hlen%bool_decide_eq_true Hall].
  assert (forall i d, placements s !! i = Some (Shard d) ->
                      is_Some (py_index (Z.of_nat (length (tm_shape m))) d)) as Hshard.
  { intros i d Hi. apply list_elem_of_lookup_2, list_elem_of_In in Hi.
    rewrite forallb_forall in Hall. specialize (Hall _ Hi). cbn in Hall.
    apply bool_decide_eq_true in Hall. exact Hall. }
  destruct (dim_map_fold_invariant (length (tm_shape m)) (placements s) Hshard)
    as (r & Hr & Hrlen & Hinv).
  exists r. unfold dim_map. rewrite Hm. cbn [mbind result_bind].
  unfold from_dim_map, sums.
  destruct (sums_fold_invariant (placements s) (replicate (mesh_ndim (mesh s)) Replicate))
    as (pl1 & Hpl1 & Hlen1 & Hinv1).
  { rewrite length_replicate. lia. }
  rewrite Hpl1. cbn [mbind result_bind].
  destruct (shard_fold_succeeds (imap pair r) pl1) as [pl2 Hpl2].
  - intros k i z Hk Hz. rewrite list_lookup_imap in Hk.
    destruct (r !! k) as [z'|] eqn:Hrk; [|discriminate]. injection Hk as <- <-.
    destruct (Hinv _ _ Hrk) as [->|(i & d & -> & Hi & Hd)]; [lia|].
    rewrite Nat2Z.id.
    destruct (Hinv1 i) as [H|H]; [|congruence].
    rewrite H. apply lookup_replicate. split; [reflexivity|].
    apply lookup_lt_Some in Hi. lia.
  - intros k k' i i' z Hk Hk' Hz. rewrite list_lookup_imap in Hk, Hk'.
    destruct (r !! k) as [z1|] eqn:Hrk; [|discriminate]. injection Hk as <- <-.
    destruct (r !! k') as [z2|] eqn:Hrk'; [|discriminate]. injection Hk' as <- ->.
    destruct (Hinv _ _ Hrk) as [->|(i & d & -> & Hi & Hd)]; [lia|].
    destruct (Hinv _ _ Hrk') as [?|(i' & d' & Heq & Hi' & Hd')]; [lia|].
    apply Nat2Z.inj in Heq as <-. congruence.
  - eexists. split; [exact Hr|]. rewrite Hpl2. reflexivity.
Qed.

(** Claim C6.  On a schema of nine arguments whose input and weight
    descriptors carry metadata of four dimensions, with strides that are
    not zero and a well-formed input descriptor, [convolution_rules]
    returns a descriptor of shape [(N, C_out, H_out, W_out)] where
    [out = (in + 2 * pad - dilation * (kernel - 1) - 1) // stride + 1] on
    each of the two spatial dimensions, [N] comes from the input and
    [C_out] from the weight.  An input of spatial size 8 with kernel 3,
    stride 1, padding 1 and dilation 1 gives spatial size 8. *)
Theorem convolution_rules_output_shape (schema : OpSchema) (input weight : DTensorSpec)
    (input_meta weight_meta : TensorMeta)
    (bias stride padding dilation transposed output_padding groups : value)
    (N C_in H_in W_in C_out C_k kH kW s0 s1 p0 p1 d0 d1 : Z) :
  args_schema schema = [VSpec input; VSpec weight; bias; stride; padding; dilation;
                        transposed; output_padding; groups] ->
  tensor_meta input = Some input_meta -> tm_shape input_meta = [N; C_in; H_in; W_in] ->
  tensor_meta weight = Some weight_meta -> tm_shape weight_meta = [C_out; C_k; kH; kW] ->
  int_item stride 0 = Ok s0 -> int_item stride 1 = Ok s1 ->
  int_item padding 0 = Ok p0 -> int_item padding 1 = Ok p1 ->
  int_item dilation 0 = Ok d0 -> int_item dilation 1 = Ok d1 ->
  s0 ≠ 0 -> s1 ≠ 0 ->
  well_formed input 4 = true ->
  let H_out := (H_in + 2 * p0 - d0 * (kH - 1) - 1) / s0 + 1 in
  let W_out := (W_in + 2 * p1 - d1 * (kW - 1) - 1) / s1 + 1 in
  (exists spec,
     convolution_rules schema = Ok (new_OutputSharding (VSpec spec))
     ∧ tensor_meta spec =
         Some {| tm_shape := [N; C_out; H_out; W_out];
                 tm_stride := [C_out * H_out * W_out; H_out * W_out; W_out; 1];
                 tm_dtype := tm_dtype input_meta |})
  ∧ (exists spec,
       convolution_rules (convolution_call [Replicate] 8 8 3 1 1 1)
         = Ok (new_OutputSharding (VSpec spec))
       ∧ tm_shape <$> tensor_meta spec = Some [2; 16; 8; 8]).
Proof.
  intros Hargs Hmi Hsi Hmw Hsw Hs0 Hs1 Hp0 Hp1 Hd0 Hd1 Hn0 Hn1 Hwf H_out W_out.
  split; [|eexists; split; reflexivity].
  unfold convolution_rules. rewrite Hargs. cbn [as_spec mbind result_bind].
  unfold meta_of. rewrite Hmi, Hmw. cbn [fmap result_fmap mbind result_bind].
  rewrite Hsi, Hsw, !getitem_0, !getitem_1, !getitem_2, !getitem_3.
  cbn [mbind result_bind].
  rewrite Hp0, Hd0, Hs0. cbn [mbind result_bind].
  rewrite floordiv_nonzero by assumption. cbn [mbind result_bind].
  rewrite Hp1, Hd1, Hs1. cbn [mbind result_bind].
  rewrite floordiv_nonzero by assumption. cbn [mbind result_bind].
  fold H_out W_out.
  edestruct (from_dim_map_accepts input input_meta) as (dm & spec & Hdm & Hspec);
    [exact Hmi | rewrite Hsi; exact Hwf |].
  rewrite Hdm. cbn [mbind result_bind]. rewrite Hspec. cbn [mbind result_bind].
  exists spec. split; [reflexivity|].
  apply from_dim_map_tensor_meta in Hspec as [-> _]. reflexivity.
Qed.

Lemma convolution_rules_output_shape_witness :
  well_formed (descriptor [Shard 3] 2 3 8 8) 4 = true
  ∧ exists spec,
      convolution_rules (convolution_call [Shard 3] 8 8 3 1 1 1)
        = Ok (new_OutputSharding (VSpec spec))
      ∧ tm_shape <$> tensor_meta spec = Some [2; 16; 8; 8].
Proof.
  split; [reflexivity|].
  destruct (convolution_rules_output_shape (convolution_call [Shard 3] 8 8 3 1 1 1)
              (descriptor [Shard 3] 2 3 8 8) (descriptor [Replicate] 16 3 3 3)
              {| tm_shape := [2; 3; 8; 8]; tm_stride := [3 * 8 * 8; 8 * 8; 8; 1];
                 tm_dtype := float32 |}
              {| tm_shape := [16; 3; 3; 3]; tm_stride := [3 * 3 * 3; 3 * 3; 3; 1];
                 tm_dtype := float32 |}
              VNone (pair_of 1 1) (pair_of 1 1) (pair_of 1 1) (VBool false) (pair_of 0 0)
              (VInt 1) 2 3 8 8 16 3 3 3 1 1 1 1 1 1
              eq_refl eq_refl eq_refl eq_refl eq_refl eq_refl eq_refl eq_refl eq_refl
              eq_refl eq_refl ltac:(lia) ltac:(lia) eq_refl)
    as [(spec & Hrule & Hmeta) _].
  exists spec. split; [exact Hrule|]. rewrite Hmeta. reflexivity.
Defined.

End ConvOpsFacts.

(** * Operator dispatch *)

Module DispatchFacts.
Import Sharding Dispatch.

(** ** What a step leaves alone *)

Section Frames.
Context {world : Type}.
Local Abbreviation M := (M (world := world)).
Local Abbreviation state := (state (world := world)).

Lemma read_only_keeps_wrappers {A} (m : M A) : read_only m -> keeps_wrappers m.
Proof. intros H s. rewrite H. split; reflexivity. Qed.

Lemma read_only_ret {A} (a : A) : read_only (mret a : M A).
Proof. intros s. reflexivity. Qed.

Lemma read_only_lift {A} (r : result A) : read_only (lift r : M A).
Proof. intros s. reflexivity. Qed.

Lemma read_only_raise {A} (e : exn) : read_only (raise e : M A).
Proof. intros s. reflexivity. Qed.

Lemma read_only_bind {A B} (m : M A) (f : A -> M B) :
  read_only m -> (forall a, read_only (f a)) -> read_only (m ≫= f).
Proof.
  intros Hm Hf s. unfold mbind, M_bind. specialize (Hm s).
  destruct (m s) as [s' [a|e]]; cbn in *; subst; [apply Hf|reflexivity].
Qed.

Lemma read_only_read_wrapper l : read_only (read_wrapper l : M DTensor).
Proof. intros s. unfold read_wrapper. destruct (wrappers s !! l); reflexivity. Qed.

Lemma read_only_unwrap_schema v : read_only (unwrap_schema v : M value).
Proof.
  destruct v; try apply read_only_ret.
  apply read_only_bind; [apply read_only_read_wrapper|]. intros. apply read_only_ret.
Qed.

Lemma read_only_unwrap_local_tensor v : read_only (unwrap_local_tensor v : M value).
Proof.
  destruct v; try apply read_only_ret.
  apply read_only_bind; [apply read_only_read_wrapper|]. intros. apply read_only_ret.
Qed.

Lemma read_only_tree_map (f : value -> M value) v :
  (forall v, read_only (f v)) -> read_only (tree_map f v).
Proof.
  intros Hf. induction v as [v Hv|vs IH|vs IH|kvs IH] using value_nested_ind.
  - destruct v; try contradiction; apply Hf.
  - cbn [tree_map]. apply read_only_bind; [|intros; apply read_only_ret].
    induction IH as [|x xs Hx _ IHxs]; [apply read_only_ret|].
    apply read_only_bind; [exact Hx|]. intros y.
    apply read_only_bind; [exact IHxs|]. intros; apply read_only_ret.
  - cbn [tree_map]. apply read_only_bind; [|intros; apply read_only_ret].
    induction IH as [|x xs Hx _ IHxs]; [apply read_only_ret|].
    apply read_only_bind; [exact Hx|]. intros y.
    apply read_only_bind; [exact IHxs|]. intros; apply read_only_ret.
  - cbn [tree_map]. apply read_only_bind; [|intros; apply read_only_ret].
    induction IH as [|[k x] xs Hx _ IHxs]; [apply read_only_ret|].
    apply read_only_bind; [exact Hx|]. intros y.
    apply read_only_bind; [exact IHxs|]. intros; apply read_only_ret.
Qed.

Lemma read_only_tree_map_args (f : value -> M value) args :
  (forall v, read_only (f v)) -> read_only (tree_map_args f args).
Proof.
  intros Hf. apply read_only_bind; [apply read_only_tree_map, Hf|].
  intros []; try apply read_only_raise. apply read_only_ret.
Qed.

Lemma read_only_tree_map_kwargs (f : value -> M value) kwargs :
  (forall v, read_only (f v)) -> read_only (tree_map_kwargs f kwargs).
Proof.
  intros Hf. apply read_only_bind; [apply read_only_tree_map, Hf|].
  intros []; try apply read_only_raise. apply read_only_ret.
Qed.

Lemma bind_read_only {A B} (m : M A) (f : A -> M B) s :
  read_only m ->
  (m ≫= f) s = match (m s).2 with
               | Ok a => f a s
               | Raise e => (s, Raise e)
               end.
Proof.
  intros H. unfold mbind, M_bind. specialize (H s).
  destruct (m s) as [s' [a|e]]; cbn in *; subst; reflexivity.
Qed.

Lemma bind_lift {A B} (r : result A) (f : A -> M B) s :
  (lift r ≫= f) s = match r with
                    | Ok a => f a s
                    | Raise e => (s, Raise e)
                    end.
Proof. destruct r; reflexivity. Qed.

Lemma propagate_unfold fallback repr op_call args kwargs rules (s : state) :
  propagate_input_sharding fallback repr op_call args kwargs rules s =
    match (tree_map_args unwrap_schema args s).2 with
    | Raise e => (s, Raise e)
    | Ok args_schema =>
        match (tree_map_kwargs unwrap_schema kwargs s).2 with
        | Raise e => (s, Raise e)
        | Ok kwargs_schema =>
            match new_OpSchema (_schema op_call) args_schema kwargs_schema with
            | Raise e => (s, Raise e)
            | Ok op_schema => propagate_from fallback repr (op_key op_call) rules op_schema s
            end
        end
    end.
Proof.
  unfold propagate_input_sharding.
  rewrite bind_read_only by (apply read_only_tree_map_args, read_only_unwrap_schema).
  destruct (tree_map_args unwrap_schema args s).2; [|reflexivity].
  rewrite bind_read_only by (apply read_only_tree_map_kwargs, read_only_unwrap_schema).
  destruct (tree_map_kwargs unwrap_schema kwargs s).2; [|reflexivity].
  rewrite bind_lift. destruct (new_OpSchema _ _ _); reflexivity.
Qed.

Lemma propagate_from_calls fallback repr key rules op_schema (s : state) :
  let run := propagate_from fallback repr key rules op_schema s in
  match rules !! key with
  | None => rule_calls run.1 = rule_calls s
  | Some f =>
      match (f op_schema).2 with
      | Raise e =>
          rule_calls run.1 = rule_calls s ++ [op_schema]
          ∧ exists msg, run.2 = Raise (ChainedRuntimeError msg e)
      | Ok os =>
          match output_spec os, schema_suggestions os with
          | VNone, Some (target :: _) =>
              rule_calls run.1 = rule_calls s ++ [op_schema; target]
              ∧ run.2 = (os' ← (f target).2; Ok ((f target).1, true, Some os'))
          | VNone, Some [] =>
              rule_calls run.1 = rule_calls s ++ [op_schema] ∧ run.2 = Raise IndexError
          | VNone, None =>
              rule_calls run.1 = rule_calls s ++ [op_schema]
              ∧ exists msg, run.2 = Raise (RuntimeError msg)
          | _, _ =>
              rule_calls run.1 = rule_calls s ++ [op_schema]
              ∧ run.2 = Ok ((f op_schema).1, false, Some os)
          end
      end
  end.
Proof.
  intros run. subst run. unfold propagate_from.
  destruct (rules !! key) as [f|]; [|destruct fallback; reflexivity].
  unfold mbind, M_bind, call_rule. cbn [fst snd].
  destruct (f op_schema) as [schema' [os|e]]; cbn [fst snd]; [|eauto].
  destruct (output_spec os); cbn [fst snd]; try (split; reflexivity).
  destruct (schema_suggestions os) as [[|target rest]|]; cbn [fst snd lift].
  - split; reflexivity.
  - rewrite getitem_0. cbn [rule_calls]. rewrite <- app_assoc. cbn [app].
    destruct (f target) as [target' [os'|e']]; cbn; split; reflexivity.
  - eauto.
Qed.

End Frames.

(** Claim C1, as the code has it.  One call of
    [propagate_input_sharding] invokes the rule at most twice.  With a rule
    registered and [op_schema] the schema of the call, the rule is invoked
    on [op_schema]: an exception is chained into a RuntimeError; a resolved
    output is returned with no redistribution; no output and a first
    suggestion [target] make exactly one more invocation, on [target], whose
    result is returned as [(target, True, result)] whether it resolves an
    output or not, and whose exception propagates; no output and an empty
    list of suggestions raise IndexError; no output and no suggestions raise
    RuntimeError. *)
Theorem propagation_invokes_the_rule_at_most_twice {world : Type} (fallback : bool)
    (repr : OpSchema -> string) (op_call : OpOverload (world := world)) (args : list value)
    (kwargs : list (string * value)) (rules : gmap string rule)
    (s : state (world := world)) :
  let run := propagate_input_sharding fallback repr op_call args kwargs rules s in
  (exists calls, rule_calls run.1 = rule_calls s ++ calls ∧ (length calls <= 2)%nat)
  ∧ forall f args_schema kwargs_schema op_schema,
      rules !! op_key op_call = Some f ->
      (tree_map_args unwrap_schema args s).2 = Ok args_schema ->
      (tree_map_kwargs unwrap_schema kwargs s).2 = Ok kwargs_schema ->
      new_OpSchema (_schema op_call) args_schema kwargs_schema = Ok op_schema ->
      match (f op_schema).2 with
      | Raise e =>
          rule_calls run.1 = rule_calls s ++ [op_schema]
          ∧ exists msg, run.2 = Raise (ChainedRuntimeError msg e)
      | Ok os =>
          match output_spec os, schema_suggestions os with
          | VNone, Some (target :: _) =>
              rule_calls run.1 = rule_calls s ++ [op_schema; target]
              ∧ run.2 = (os' ← (f target).2; Ok ((f target).1, true, Some os'))
          | VNone, Some [] =>
              rule_calls run.1 = rule_calls s ++ [op_schema] ∧ run.2 = Raise IndexError
          | VNone, None =>
              rule_calls run.1 = rule_calls s ++ [op_schema]
              ∧ exists msg, run.2 = Raise (RuntimeError msg)
          | _, _ =>
              rule_calls run.1 = rule_calls s ++ [op_schema]
              ∧ run.2 = Ok ((f op_schema).1, false, Some os)
          end
      end.
Proof.
  intros run. subst run. rewrite propagate_unfold. split.
  - destruct (tree_map_args unwrap_schema args s).2;
      [|exists []; rewrite app_nil_r; split; [reflexivity|cbn; lia]].
    destruct (tree_map_kwargs unwrap_schema kwargs s).2;
      [|exists []; rewrite app_nil_r; split; [reflexivity|cbn; lia]].
    destruct (new_OpSchema _ _ _) as [op_schema|];
      [|exists []; rewrite app_nil_r; split; [reflexivity|cbn; lia]].
    pose proof (propagate_from_calls fallback repr (op_key op_call) rules op_schema s) as H.
    cbn zeta in H. destruct (rules !! op_key op_call) as [f|].
    + destruct (f op_schema).2 as [os|e].
      * destruct (output_spec os), (schema_suggestions os) as [[|target rest]|];
          destruct H as [-> _]; eexists; (split; [reflexivity|cbn; lia]).
      * destruct H as [-> _]. eexists; (split; [reflexivity|cbn; lia]).
    + rewrite H. exists []. rewrite app_nil_r. split; [reflexivity|cbn; lia].
  - intros f args_schema kwargs_schema op_schema Hf -> -> ->.
    pose proof (propagate_from_calls fallback repr (op_key op_call) rules op_schema s) as H.
    cbn zeta in H. rewrite Hf in H. exact H.
Qed.

Lemma propagation_invokes_the_rule_at_most_twice_witness :
  registry !! op_key aten_add_ = Some replicated_only_rule
  ∧ rule_calls (propagate_input_sharding false repr_name aten_add_
                  [VDTensor 0%nat; VDTensor 1%nat] [] registry three_wrappers).1
    = [ {| func_schema := _schema aten_add_; args_schema := [sharded; sharded];
           kwargs_schema := []; is_inplace := true; is_out_variant := false |};
        {| func_schema := _schema aten_add_; args_schema := [replicated; replicated];
           kwargs_schema := []; is_inplace := true; is_out_variant := false |} ].
Proof.
  assert (registry !! op_key aten_add_ = Some replicated_only_rule) as Hrule by reflexivity.
  split; [exact Hrule|].
  destruct (propagation_invokes_the_rule_at_most_twice false repr_name aten_add_
              [VDTensor 0%nat; VDTensor 1%nat] [] registry three_wrappers) as [_ H].
  specialize (H replicated_only_rule [sharded; sharded] []
                {| func_schema := _schema aten_add_; args_schema := [sharded; sharded];
                   kwargs_schema := []; is_inplace := true; is_out_variant := false |}
                Hrule eq_refl eq_refl eq_refl).
  cbn in H. destruct H as [H _]. exact H.
Defined.

(** Claim C1 as it is stated fails: a rule whose suggestion resolves nothing
    either.  The driver invokes it twice and returns the unresolved result
    with the redistribution flag; it does not raise. *)
Lemma unresolved_retry_is_returned :
  let run := propagate_input_sharding false repr_name aten_mul
               [VDTensor 0%nat; VDTensor 1%nat] [] registry three_wrappers in
  length (rule_calls run.1) = 2%nat
  ∧ exists target output_sharding,
      run.2 = Ok (target, true, Some output_sharding)
      ∧ output_spec output_sharding = VNone.
Proof.
  split; [reflexivity|]. eexists _, _. split; reflexivity.
Qed.

Section MoreFrames.
Context {world : Type}.
Local Abbreviation M := (M (world := world)).
Local Abbreviation state := (state (world := world)).

Lemma bind_ok {A B} (m : M A) (f : A -> M B) (s s' : state) b :
  (m ≫= f) s = (s', Ok b) -> exists s1 a, m s = (s1, Ok a) ∧ f a s1 = (s', Ok b).
Proof.
  unfold mbind, M_bind. destruct (m s) as [s1 [a|e]]; [eauto|discriminate].
Qed.

Lemma keeps_wrappers_bind {A B} (m : M A) (f : A -> M B) :
  keeps_wrappers m -> (forall a, keeps_wrappers (f a)) -> keeps_wrappers (m ≫= f).
Proof.
  intros Hm Hf s. unfold mbind, M_bind. specialize (Hm s).
  destruct (m s) as [s' [a|e]]; cbn in *; [|exact Hm].
  destruct (Hf a s') as [-> ->]. exact Hm.
Qed.

Lemma keeps_wrappers_outside {A} (f : world -> world * result A) :
  keeps_wrappers (outside f).
Proof. intros s. unfold outside. destruct (f (ext s)). split; reflexivity. Qed.

Lemma keeps_wrappers_call_rule f schema : keeps_wrappers (call_rule (world := world) f schema).
Proof. intros s. split; reflexivity. Qed.

Lemma keeps_wrappers_pack_leaf redistribute flag schema i arg :
  keeps_wrappers (pack_leaf (world := world) redistribute flag schema i arg).
Proof.
  destruct arg; try (apply read_only_keeps_wrappers, read_only_ret).
  cbn [pack_leaf].
  apply keeps_wrappers_bind; [apply read_only_keeps_wrappers, read_only_read_wrapper|].
  intros d. apply keeps_wrappers_bind; [|intros; apply read_only_keeps_wrappers, read_only_lift].
  destruct flag; [|apply read_only_keeps_wrappers, read_only_ret].
  apply keeps_wrappers_bind; [apply read_only_keeps_wrappers, read_only_lift|]. intros.
  apply keeps_wrappers_bind; [apply read_only_keeps_wrappers, read_only_lift|]. intros.
  apply keeps_wrappers_outside.
Qed.

Lemma keeps_wrappers_pack redistribute args schema flag :
  keeps_wrappers (pack_args_kwargs_with_local_tensor (world := world) redistribute args schema flag).
Proof.
  unfold pack_args_kwargs_with_local_tensor.
  destruct (tree_flatten args) as [flat spec], (tree_flatten schema) as [flat_schema ?].
  apply keeps_wrappers_bind; [|intros; apply read_only_keeps_wrappers, read_only_lift].
  generalize (imap pair flat). intros l.
  assert (keeps_wrappers (mret flat_schema : M (list value))) as Hinit
    by apply read_only_keeps_wrappers, read_only_ret.
  revert Hinit. generalize (mret flat_schema : M (list value)).
  induction l as [|[i arg] l IH]; intros acc Hacc; [exact Hacc|].
  cbn [foldl]. apply IH. apply keeps_wrappers_bind; [exact Hacc|].
  intros. apply keeps_wrappers_pack_leaf.
Qed.

Lemma keeps_wrappers_propagate fallback repr op_call args kwargs rules :
  keeps_wrappers (propagate_input_sharding (world := world) fallback repr op_call args kwargs rules).
Proof.
  intros s. rewrite propagate_unfold.
  destruct (tree_map_args unwrap_schema args s).2; [|split; reflexivity].
  destruct (tree_map_kwargs unwrap_schema kwargs s).2; [|split; reflexivity].
  destruct (new_OpSchema _ _ _) as [op_schema|]; [|split; reflexivity].
  revert s. change (keeps_wrappers (world := world) (propagate_from fallback repr (op_key op_call) rules op_schema)).
  unfold propagate_from. destruct (rules !! op_key op_call) as [f|].
  - apply keeps_wrappers_bind; [apply keeps_wrappers_call_rule|].
    intros [schema' [os|e]]; [|apply read_only_keeps_wrappers, read_only_raise].
    destruct (output_spec os); try apply read_only_keeps_wrappers, read_only_ret.
    destruct (schema_suggestions os); [|apply read_only_keeps_wrappers, read_only_raise].
    apply keeps_wrappers_bind; [apply read_only_keeps_wrappers, read_only_lift|]. intros.
    apply keeps_wrappers_bind; [apply keeps_wrappers_call_rule|]. intros [? ?].
    apply keeps_wrappers_bind; [apply read_only_keeps_wrappers, read_only_lift|]. intros.
    apply read_only_keeps_wrappers, read_only_ret.
  - destruct fallback; apply read_only_keeps_wrappers;
      [apply read_only_ret | apply read_only_raise].
Qed.

Lemma decomposition_table_other (view : value -> value -> M value) key :
  key ≠ "aten._reshape_alias.default" ->
  _CURRENT_DECOMPOSITION_TABLE view !! key = None.
Proof. intros H. apply lookup_singleton_ne. congruence. Qed.

End MoreFrames.

(** Claim C7.  When propagation yields an output sharding for a schema
    with [is_inplace], and the first positional argument is a distributed
    tensor, a dispatch that returns returns that very object; in the store
    of wrappers its descriptor is the propagated one, its local tensor is
    the one it had, every other wrapper is as before and no wrapper is
    added. *)
Theorem inplace_dispatch_returns_self {world : Type} (fallback : bool)
    (repr : OpSchema -> string)
    (redistribute_dtensor :
       DTensor -> DeviceMesh -> list Placement -> world -> world * result DTensor)
    (wrap aten_view : value -> value -> M (world := world) value)
    (op_call : OpOverload (world := world)) (self : loc) (others : list value)
    (kwargs : list (string * value)) (rules : gmap string rule)
    (custom : gmap string (list value -> list (string * value) -> M (world := world) value))
    (s s1 s' : state (world := world)) (target : OpSchema) (redistribute : bool)
    (output_sharding : OutputSharding) (returned : value) :
  op_key op_call ≠ "aten._reshape_alias.default" ->
  custom !! op_key op_call = None ->
  propagate_input_sharding fallback repr op_call (VDTensor self :: others) kwargs rules s
    = (s1, Ok (target, redistribute, Some output_sharding)) ->
  is_inplace target = true ->
  operator_dispatch fallback repr redistribute_dtensor wrap aten_view op_call
    (VDTensor self :: others) kwargs rules custom s = (s', Ok returned) ->
  returned = VDTensor self
  ∧ exists d,
      wrappers s !! self = Some d
      ∧ wrappers s' = <[self := {| _local_tensor := _local_tensor d;
                                   _spec := output_spec output_sharding |}]> (wrappers s)
      ∧ dom (wrappers s') = dom (wrappers s)
      ∧ foreign_specs s' = foreign_specs s.
Proof.
  intros Hkey Hcustom Hprop Hin Hrun.
  unfold operator_dispatch in Hrun.
  rewrite decomposition_table_other, Hcustom in Hrun by assumption.
  apply bind_ok in Hrun as (s1' & [[target' flag'] os'] & Hprop' & Hrun).
  rewrite Hprop in Hprop'. injection Hprop' as <- <- <- <-.
  pose proof (keeps_wrappers_propagate fallback repr op_call (VDTensor self :: others)
                kwargs rules s) as [Hw1 Hf1].
  rewrite Hprop in Hw1, Hf1. cbn [fst] in Hw1, Hf1.
  apply bind_ok in Hrun as (s2 & a & Hpack1 & Hrun).
  pose proof (keeps_wrappers_pack redistribute_dtensor (VTuple (VDTensor self :: others))
                (VTuple (args_schema target)) redistribute s1) as [Hw2 Hf2].
  rewrite Hpack1 in Hw2, Hf2. cbn [fst] in Hw2, Hf2.
  apply bind_ok in Hrun as (s3 & k & Hpack2 & Hrun).
  pose proof (keeps_wrappers_pack redistribute_dtensor (VDict kwargs)
                (VDict (kwargs_schema target)) redistribute s2) as [Hw3 Hf3].
  rewrite Hpack2 in Hw3, Hf3. cbn [fst] in Hw3, Hf3.
  apply bind_ok in Hrun as (s4 & la & Hla & Hrun).
  pose proof (read_only_lift (world := world)
                (match a with VTuple l | VList l => Ok l | _ => Raise TypeError end) s3) as H4.
  rewrite Hla in H4. cbn [fst] in H4. subst s4.
  apply bind_ok in Hrun as (s5 & lk & Hlk & Hrun).
  pose proof (read_only_lift (world := world)
                (match k with VDict l => Ok l | _ => Raise TypeError end) s3) as H5.
  rewrite Hlk in H5. cbn [fst] in H5. subst s5.
  apply bind_ok in Hrun as (s6 & res & Hop & Hrun).
  pose proof (keeps_wrappers_outside (op_run op_call la lk) s3) as [Hw6 Hf6].
  rewrite Hop in Hw6, Hf6. cbn [fst] in Hw6, Hf6.
  rewrite Hin in Hrun.
  apply bind_ok in Hrun as (s7 & v & Hself & Hrun).
  rewrite getitem_0 in Hself. injection Hself as <- <-.
  apply bind_ok in Hrun as (s8 & [] & Hset & Hrun).
  injection Hrun as <- <-. split; [reflexivity|].
  unfold set_spec in Hset.
  assert (wrappers s6 = wrappers s) as Hw by congruence.
  assert (foreign_specs s6 = foreign_specs s) as Hf by congruence.
  rewrite Hw in Hset.
  destruct (wrappers s !! self) as [d|] eqn:Hd; [|discriminate Hset].
  injection Hset as <-. exists d. cbn [wrappers foreign_specs].
  split; [reflexivity|]. split; [reflexivity|]. split; [|exact Hf].
  apply dom_insert_lookup_L. rewrite Hd. eauto.
Qed.

Lemma inplace_dispatch_returns_self_witness :
  op_key aten_add_ ≠ "aten._reshape_alias.default"
  ∧ exists s',
      dispatch false aten_add_ [VDTensor 0%nat; VDTensor 1%nat] [] three_wrappers
        = (s', Ok (VDTensor 0%nat))
      ∧ wrappers s' = <[0%nat := {| _local_tensor := 10%nat; _spec := replicated |}]>
                        (wrappers three_wrappers)
      ∧ dom (wrappers s') = dom (wrappers three_wrappers).
Proof.
  assert (op_key aten_add_ ≠ "aten._reshape_alias.default") as Hkey by discriminate.
  split; [exact Hkey|].
  destruct (dispatch false aten_add_ [VDTensor 0%nat; VDTensor 1%nat] [] three_wrappers)
    as [s' r] eqn:Hrun.
  assert (r = Ok (VDTensor 0%nat)) as -> by (apply (f_equal snd) in Hrun; exact (eq_sym Hrun)).
  exists s'. split; [reflexivity|].
  destruct (inplace_dispatch_returns_self false repr_name redistribute_nothing wrap
              view_unreached aten_add_ 0%nat [VDTensor 1%nat] [] registry ∅
              three_wrappers _ s' _ _ _ (VDTensor 0%nat)
              Hkey (lookup_empty _) eq_refl eq_refl Hrun)
    as (_ & d & Hd & Hw & Hdom & _).
  injection Hd as <-. split; [exact Hw|exact Hdom].
Defined.

Section LocalView.
Context {world : Type}.
Local Abbreviation M := (M (world := world)).
Local Abbreviation state := (state (world := world)).

Lemma tree_map_VList (f : value -> M value) vs :
  tree_map f (VList vs) = (vs' ← tree_map_list f vs; mret (VList vs')).
Proof. reflexivity. Qed.

Lemma tree_map_VTuple (f : value -> M value) vs :
  tree_map f (VTuple vs) = (vs' ← tree_map_list f vs; mret (VTuple vs')).
Proof. reflexivity. Qed.

Lemma tree_map_VDict (f : value -> M value) kvs :
  tree_map f (VDict kvs) = (kvs' ← tree_map_items f kvs; mret (VDict kvs')).
Proof. reflexivity. Qed.

Lemma read_only_tree_map_list (f : value -> M value) vs :
  (forall v, read_only (f v)) -> read_only (tree_map_list f vs).
Proof.
  intros Hf. induction vs as [|x xs IH]; [apply read_only_ret|].
  cbn [tree_map_list]. apply read_only_bind; [apply read_only_tree_map, Hf|]. intros.
  apply read_only_bind; [exact IH|]. intros. apply read_only_ret.
Qed.

Lemma read_only_tree_map_items (f : value -> M value) kvs :
  (forall v, read_only (f v)) -> read_only (tree_map_items f kvs).
Proof.
  intros Hf. induction kvs as [|[k x] xs IH]; [apply read_only_ret|].
  cbn [tree_map_items]. apply read_only_bind; [apply read_only_tree_map, Hf|]. intros.
  apply read_only_bind; [exact IH|]. intros. apply read_only_ret.
Qed.

Lemma tree_map_list_local_view vs (s : state) vs' :
  Forall (fun v => forall v', (tree_map unwrap_local_tensor v s).2 = Ok v' ->
                              local_view (wrappers s) v v') vs ->
  (tree_map_list unwrap_local_tensor vs s).2 = Ok vs' ->
  Forall2 (local_view (wrappers s)) vs vs'.
Proof.
  intros IH. revert vs'. induction IH as [|x xs Hx _ IHxs]; intros vs' H.
  - injection H as <-. constructor.
  - cbn [tree_map_list] in H.
    rewrite bind_read_only in H
      by (apply read_only_tree_map, read_only_unwrap_local_tensor).
    destruct (tree_map unwrap_local_tensor x s).2 as [y|] eqn:Ey; [|discriminate H].
    rewrite bind_read_only in H
      by (apply read_only_tree_map_list, read_only_unwrap_local_tensor).
    destruct (tree_map_list unwrap_local_tensor xs s).2 as [ys|] eqn:Eys; [|discriminate H].
    injection H as <-. constructor; [apply Hx; reflexivity|apply IHxs; reflexivity].
Qed.

Lemma tree_map_items_local_view kvs (s : state) kvs' :
  Forall (fun kv => forall v', (tree_map unwrap_local_tensor kv.2 s).2 = Ok v' ->
                               local_view (wrappers s) kv.2 v') kvs ->
  (tree_map_items unwrap_local_tensor kvs s).2 = Ok kvs' ->
  Forall2 (fun kv kv' => kv.1 = kv'.1 ∧ local_view (wrappers s) kv.2 kv'.2) kvs kvs'.
Proof.
  intros IH. revert kvs'. induction IH as [|[k x] xs Hx _ IHxs]; intros kvs' H.
  - injection H as <-. constructor.
  - cbn [tree_map_items] in H.
    rewrite bind_read_only in H
      by (apply read_only_tree_map, read_only_unwrap_local_tensor).
    destruct (tree_map unwrap_local_tensor x s).2 as [y|] eqn:Ey; [|discriminate H].
    rewrite bind_read_only in H
      by (apply read_only_tree_map_items, read_only_unwrap_local_tensor).
    destruct (tree_map_items unwrap_local_tensor xs s).2 as [ys|] eqn:Eys; [|discriminate H].
    injection H as <-.
    constructor; [split; [reflexivity|apply Hx; exact Ey]|apply IHxs; reflexivity].
Qed.

Lemma tree_map_local_view v (s : state) v' :
  (tree_map unwrap_local_tensor v s).2 = Ok v' -> local_view (wrappers s) v v'.
Proof.
  revert v'. induction v as [v Hv|vs IH|vs IH|kvs IH] using value_nested_ind; intros v' H.
  - destruct v; try contradiction;
      try (injection H as <-; apply local_other; exact I).
    cbn [tree_map unwrap_local_tensor] in H.
    rewrite bind_read_only in H by apply read_only_read_wrapper.
    unfold read_wrapper in H. destruct (wrappers s !! l) as [d|] eqn:Hd; [|discriminate H].
    injection H as <-. apply local_dtensor. exact Hd.
  - rewrite tree_map_VList in H.
    rewrite bind_read_only in H
      by (apply read_only_tree_map_list, read_only_unwrap_local_tensor).
    destruct (tree_map_list unwrap_local_tensor vs s).2 as [vs'|] eqn:E; [|discriminate H].
    injection H as <-. apply local_list. apply tree_map_list_local_view; assumption.
  - rewrite tree_map_VTuple in H.
    rewrite bind_read_only in H
      by (apply read_only_tree_map_list, read_only_unwrap_local_tensor).
    destruct (tree_map_list unwrap_local_tensor vs s).2 as [vs'|] eqn:E; [|discriminate H].
    injection H as <-. apply local_tuple. apply tree_map_list_local_view; assumption.
  - rewrite tree_map_VDict in H.
    rewrite bind_read_only in H
      by (apply read_only_tree_map_items, read_only_unwrap_local_tensor).
    destruct (tree_map_items unwrap_local_tensor kvs s).2 as [kvs'|] eqn:E; [|discriminate H].
    injection H as <-. apply local_dict. apply tree_map_items_local_view; assumption.
Qed.

Lemma tree_map_args_local_view args (s : state) args' :
  (tree_map_args unwrap_local_tensor args s).2 = Ok args' ->
  Forall2 (local_view (wrappers s)) args args'.
Proof.
  intros H. unfold tree_map_args in H.
  rewrite bind_read_only in H by (apply read_only_tree_map, read_only_unwrap_local_tensor).
  destruct (tree_map unwrap_local_tensor (VTuple args) s).2 as [v|] eqn:E; [|discriminate H].
  apply tree_map_local_view in E. inversion E; subst; [|contradiction].
  injection H as <-. assumption.
Qed.

Lemma tree_map_kwargs_local_view kwargs (s : state) kwargs' :
  (tree_map_kwargs unwrap_local_tensor kwargs s).2 = Ok kwargs' ->
  Forall2 (fun kv kv' => kv.1 = kv'.1 ∧ local_view (wrappers s) kv.2 kv'.2) kwargs kwargs'.
Proof.
  intros H. unfold tree_map_kwargs in H.
  rewrite bind_read_only in H by (apply read_only_tree_map, read_only_unwrap_local_tensor).
  destruct (tree_map unwrap_local_tensor (VDict kwargs) s).2 as [v|] eqn:E; [|discriminate H].
  apply tree_map_local_view in E. inversion E; subst; [|contradiction].
  injection H as <-. assumption.
Qed.

Lemma propagate_fallback fallback repr op_call args kwargs rules (s s1 : state) target flag :
  propagate_input_sharding fallback repr op_call args kwargs rules s
    = (s1, Ok (target, flag, None)) ->
  fallback = true ∧ rules !! op_key op_call = None ∧ s1 = s ∧ flag = false
  ∧ exists args_schema kwargs_schema,
      (tree_map_args unwrap_schema args s).2 = Ok args_schema
      ∧ (tree_map_kwargs unwrap_schema kwargs s).2 = Ok kwargs_schema
      ∧ new_OpSchema (_schema op_call) args_schema kwargs_schema = Ok target.
Proof.
  rewrite propagate_unfold.
  destruct (tree_map_args unwrap_schema args s).2 as [args_schema|]; [|discriminate].
  destruct (tree_map_kwargs unwrap_schema kwargs s).2 as [kwargs_schema|]; [|discriminate].
  destruct (new_OpSchema _ _ _) as [op_schema|] eqn:Hschema; [|discriminate].
  unfold propagate_from. destruct (rules !! op_key op_call) as [f|] eqn:Hrule.
  - unfold mbind, M_bind, call_rule.
    destruct (f op_schema) as [schema' [os|e]]; [|discriminate].
    destruct (output_spec os); try discriminate.
    destruct (schema_suggestions os) as [l|]; [|discriminate].
    cbn [lift]. destruct (getitem l 0); [|discriminate].
    destruct (f a) as [? [?|?]]; discriminate.
  - destruct fallback; [|discriminate]. intros [= <- <- <-].
    repeat (split; [reflexivity|]). exists args_schema, kwargs_schema.
    repeat split. exact Hschema.
Qed.

End LocalView.

(** Claim C8.  When propagation returns no output sharding, the fallback
    flag is on and no rule is registered for the operator; a dispatch that
    returns has called the operator on the arguments and keyword arguments
    with every distributed tensor replaced by its local shard, and has
    wrapped the result with the first entry of [args_spec] of the target
    schema. *)
Theorem fallback_dispatch_runs_on_local_shards {world : Type} (fallback : bool)
    (repr : OpSchema -> string)
    (redistribute_dtensor :
       DTensor -> DeviceMesh -> list Placement -> world -> world * result DTensor)
    (wrap aten_view : value -> value -> M (world := world) value)
    (op_call : OpOverload (world := world)) (args : list value)
    (kwargs : list (string * value)) (rules : gmap string rule)
    (custom : gmap string (list value -> list (string * value) -> M (world := world) value))
    (s s1 s' : state (world := world)) (target : OpSchema) (redistribute : bool)
    (returned : value) :
  op_key op_call ≠ "aten._reshape_alias.default" ->
  custom !! op_key op_call = None ->
  propagate_input_sharding fallback repr op_call args kwargs rules s
    = (s1, Ok (target, redistribute, None)) ->
  operator_dispatch fallback repr redistribute_dtensor wrap aten_view op_call
    args kwargs rules custom s = (s', Ok returned) ->
  (fallback = true ∧ rules !! op_key op_call = None)
  ∧ exists tensor_args tensor_kwargs outside_world local_results spec,
      Forall2 (local_view (wrappers s)) args tensor_args
      ∧ Forall2 (fun kv kv' => kv.1 = kv'.1 ∧ local_view (wrappers s) kv.2 kv'.2)
          kwargs tensor_kwargs
      ∧ op_run op_call tensor_args tensor_kwargs (ext s) = (outside_world, Ok local_results)
      ∧ head (args_spec target) = Some spec
      ∧ wrap local_results spec
          {| wrappers := wrappers s; foreign_specs := foreign_specs s;
             rule_calls := rule_calls s; ext := outside_world |} = (s', Ok returned).
Proof.
  intros Hkey Hcustom Hprop Hrun.
  destruct (propagate_fallback _ _ _ _ _ _ _ _ _ _ Hprop) as (-> & Hrule & -> & -> & _).
  split; [split; [reflexivity|exact Hrule]|].
  unfold operator_dispatch in Hrun.
  rewrite decomposition_table_other, Hcustom in Hrun by assumption.
  apply bind_ok in Hrun as (s1' & [[target' flag'] os'] & Hprop' & Hrun).
  rewrite Hprop in Hprop'. injection Hprop' as <- <- <- <-.
  rewrite bind_read_only in Hrun
    by (apply read_only_tree_map_args, read_only_unwrap_local_tensor).
  destruct (tree_map_args unwrap_local_tensor args s).2 as [tensor_args|] eqn:Hargs;
    [|discriminate Hrun].
  rewrite bind_read_only in Hrun
    by (apply read_only_tree_map_kwargs, read_only_unwrap_local_tensor).
  destruct (tree_map_kwargs unwrap_local_tensor kwargs s).2 as [tensor_kwargs|] eqn:Hkwargs;
    [|discriminate Hrun].
  apply bind_ok in Hrun as (s2 & local_results & Hop & Hrun).
  unfold outside in Hop.
  destruct (op_run op_call tensor_args tensor_kwargs (ext s)) as [w r] eqn:Hopr.
  injection Hop as <- ->.
  rewrite bind_lift in Hrun.
  destruct (args_spec target) as [|spec rest] eqn:Hspec; [discriminate Hrun|].
  rewrite getitem_0 in Hrun.
  exists tensor_args, tensor_kwargs, w, local_results, spec.
  split; [apply tree_map_args_local_view, Hargs|].
  split; [apply tree_map_kwargs_local_view, Hkwargs|].
  split; [exact Hopr|]. split; [reflexivity|exact Hrun].
Qed.

Lemma fallback_dispatch_runs_on_local_shards_witness :
  op_key aten_add ≠ "aten._reshape_alias.default"
  ∧ (dispatch true aten_add [VDTensor 0%nat; VDTensor 1%nat] [] three_wrappers).2
    = Ok (VDTensor 3%nat)
  ∧ registry !! op_key aten_add = None
  ∧ exists tensor_args local_results,
      Forall2 (local_view (wrappers three_wrappers)) [VDTensor 0%nat; VDTensor 1%nat]
        tensor_args
      ∧ (op_run aten_add tensor_args [] 0%nat).2 = Ok local_results.
Proof.
  assert (op_key aten_add ≠ "aten._reshape_alias.default") as Hkey by discriminate.
  split; [exact Hkey|]. split; [reflexivity|].
  destruct (dispatch true aten_add [VDTensor 0%nat; VDTensor 1%nat] [] three_wrappers)
    as [s' r] eqn:Hrun.
  assert (r = Ok (VDTensor 3%nat)) as -> by (apply (f_equal snd) in Hrun; exact (eq_sym Hrun)).
  destruct (fallback_dispatch_runs_on_local_shards true repr_name redistribute_nothing wrap
              view_unreached aten_add [VDTensor 0%nat; VDTensor 1%nat] [] registry ∅
              three_wrappers _ s' _ _ (VDTensor 3%nat)
              Hkey (lookup_empty _) eq_refl Hrun)
    as ((_ & Hnone) & tensor_args & tensor_kwargs & w & local_results & spec
        & Hargs & Hkwargs & Hop & _).
  split; [exact Hnone|]. exists tensor_args, local_results. split; [exact Hargs|].
  inversion Hkwargs; subst. cbn [ext three_wrappers] in Hop. rewrite Hop. reflexivity.
Defined.

Section OutVariant.
Context {world : Type}.
Local Abbreviation M := (M (world := world)).
Local Abbreviation state := (state (world := world)).

Lemma with_wrappers_same (s : state) : with_wrappers s (wrappers s) = s.
Proof. destruct s. reflexivity. Qed.

Lemma collect_outs_none arguments kwargs specs idx (s : state) :
  out_arguments arguments = [] ->
  collect_outs arguments kwargs specs idx s = (s, Ok []).
Proof.
  unfold out_arguments.
  induction arguments as [|a rest IH]; cbn [collect_outs List.filter]; [reflexivity|].
  destruct (is_out a); [discriminate|]. exact IH.
Qed.

Lemma collect_outs_first_missing arguments kwargs specs idx (s : state) a outs :
  out_arguments arguments = a :: outs ->
  kw_get (arg_name a) kwargs = None ->
  collect_outs arguments kwargs specs idx s = (s, Raise (KeyError (arg_name a))).
Proof.
  unfold out_arguments.
  induction arguments as [|b rest IH]; cbn [collect_outs List.filter]; [discriminate|].
  destruct (is_out b); [|exact IH].
  intros [= -> _] Hk. rewrite Hk. reflexivity.
Qed.

Lemma collect_outs_missing arguments kwargs specs idx (s : state) a :
  a ∈ out_arguments arguments ->
  kw_get (arg_name a) kwargs = None ->
  exists e, (collect_outs arguments kwargs specs idx s).2 = Raise e.
Proof.
  unfold out_arguments. revert idx s.
  induction arguments as [|b rest IH]; intros idx s; cbn [collect_outs List.filter].
  - intros H. apply elem_of_nil in H as [].
  - destruct (is_out b) eqn:Hb; [|apply IH].
    intros Hin Hk. apply elem_of_cons in Hin as [->|Hin].
    + rewrite Hk. eexists. reflexivity.
    + unfold mbind, M_bind, lift.
      destruct (kw_get (arg_name b) kwargs); [|eexists; reflexivity].
      destruct (getitem specs idx); [|eexists; reflexivity].
      destruct (set_spec v a0 s) as [s1 [[]|e]]; [|eexists; reflexivity].
      destruct (IH (idx + 1) s1 Hin Hk) as [e He].
      destruct (collect_outs rest kwargs specs (idx + 1) s1) as [s2 [l|e']];
        [discriminate He|]. eexists. reflexivity.
Qed.

Lemma set_spec_wrapper (s : state) l d spec :
  wrappers s !! l = Some d ->
  set_spec (VDTensor l) spec s =
    (with_wrappers s
       (alter (fun d => {| _local_tensor := _local_tensor d; _spec := spec |}) l (wrappers s)),
     Ok tt).
Proof.
  intros H. unfold set_spec, with_wrappers. rewrite H. do 2 f_equal.
  apply map_eq. intros j. rewrite lookup_alter, lookup_insert.
  destruct (decide (l = j)) as [->|]; [rewrite H|]; reflexivity.
Qed.

Lemma collect_outs_all arguments kwargs specs (idx : nat) (s : state) locs :
  Forall2 (fun a l => kw_get (arg_name a) kwargs = Some (VDTensor l))
          (out_arguments arguments) locs ->
  Forall (fun l => is_Some (wrappers s !! l)) locs ->
  (idx + length locs <= length specs)%nat ->
  collect_outs arguments kwargs specs (Z.of_nat idx) s =
    (with_wrappers s (assign_specs (wrappers s) (zip locs (drop idx specs))),
     Ok (VDTensor <$> locs)).
Proof.
  unfold out_arguments. revert idx s locs.
  induction arguments as [|a rest IH]; intros idx s locs Hkw Hlive Hlen;
    cbn [collect_outs List.filter] in *.
  - inversion Hkw; subst. cbn. rewrite with_wrappers_same. reflexivity.
  - destruct (is_out a); [|apply IH; assumption].
    inversion Hkw as [|a' l outs ls Hl Hrest]; subst. cbn [length] in Hlen.
    apply Forall_cons in Hlive as [[d Hd] Hlive].
    destruct (lookup_lt_is_Some_2 specs idx) as [spec Hspec]; [lia|].
    unfold mbind at 1, M_bind at 1. rewrite Hl. cbn [lift].
    unfold mbind at 1, M_bind at 1. rewrite (getitem_nat _ _ _ Hspec). cbn [lift].
    unfold mbind at 1, M_bind at 1. rewrite (set_spec_wrapper _ _ _ _ Hd).
    unfold mbind at 1, M_bind at 1.
    replace (Z.of_nat idx + 1) with (Z.of_nat (S idx)) by lia.
    rewrite (IH (S idx) _ ls Hrest).
    + cbn [with_wrappers wrappers foreign_specs rule_calls ext fmap list_fmap mret M_ret].
      rewrite (drop_S _ _ _ Hspec). reflexivity.
    + cbn [with_wrappers wrappers]. eapply Forall_impl; [exact Hlive|].
      intros l' Hl'. cbn beta. apply lookup_alter_is_Some. exact Hl'.
    + lia.
Qed.

End OutVariant.

Lemma dispatch_out_variant {world : Type} (fallback : bool) (repr : OpSchema -> string)
    (redistribute_dtensor :
       DTensor -> DeviceMesh -> list Placement -> world -> world * result DTensor)
    (wrap aten_view : value -> value -> M (world := world) value)
    (op_call : OpOverload (world := world)) (args : list value)
    (kwargs : list (string * value)) (rules : gmap string rule)
    (custom : gmap string (list value -> list (string * value) -> M (world := world) value))
    (s s1 s2 s3 : state (world := world)) (target : OpSchema) (redistribute : bool)
    (output_sharding : OutputSharding) (local_args : list value)
    (local_kwargs : list (string * value)) (outside_world : world) (local_results : value) :
  op_key op_call ≠ "aten._reshape_alias.default" ->
  custom !! op_key op_call = None ->
  propagate_input_sharding fallback repr op_call args kwargs rules s
    = (s1, Ok (target, redistribute, Some output_sharding)) ->
  is_inplace target = false ->
  is_out_variant target = true ->
  pack_args_kwargs_with_local_tensor redistribute_dtensor (VTuple args)
    (VTuple (args_schema target)) redistribute s1 = (s2, Ok (VTuple local_args)) ->
  pack_args_kwargs_with_local_tensor redistribute_dtensor (VDict kwargs)
    (VDict (kwargs_schema target)) redistribute s2 = (s3, Ok (VDict local_kwargs)) ->
  op_run op_call local_args local_kwargs (ext s3) = (outside_world, Ok local_results) ->
  let s4 := {| wrappers := wrappers s3; foreign_specs := foreign_specs s3;
               rule_calls := rule_calls s3; ext := outside_world |} in
  wrappers s4 = wrappers s
  ∧ operator_dispatch fallback repr redistribute_dtensor wrap aten_view op_call
      args kwargs rules custom s
    = out_variant_result (arguments (func_schema target)) kwargs
        (match output_spec output_sharding with VTuple l => l | v => [v] end) s4.
Proof.
  intros Hkey Hcustom Hprop Hin Hout Hpack1 Hpack2 Hop s4. split.
  - pose proof (keeps_wrappers_propagate fallback repr op_call args kwargs rules s) as [H1 _].
    pose proof (keeps_wrappers_pack redistribute_dtensor (VTuple args)
                  (VTuple (args_schema target)) redistribute s1) as [H2 _].
    pose proof (keeps_wrappers_pack redistribute_dtensor (VDict kwargs)
                  (VDict (kwargs_schema target)) redistribute s2) as [H3 _].
    rewrite Hprop in H1. rewrite Hpack1 in H2. rewrite Hpack2 in H3.
    cbn [fst] in *. subst s4. cbn [wrappers]. congruence.
  - unfold operator_dispatch.
    rewrite decomposition_table_other, Hcustom by assumption.
    unfold mbind at 1, M_bind at 1. rewrite Hprop.
    unfold mbind at 1, M_bind at 1. rewrite Hpack1.
    unfold mbind at 1, M_bind at 1. rewrite Hpack2.
    unfold mbind at 1, M_bind at 1. cbn [lift].
    unfold mbind at 1, M_bind at 1. cbn [lift].
    unfold mbind at 1, M_bind at 1. unfold outside. rewrite Hop.
    rewrite Hin, Hout. reflexivity.
Qed.

(** Claim C10.  In the out-variant branch, reached after the local
    operator returned, every formal argument flagged as an out argument is
    looked up by its name in the keyword arguments: with no such formal
    argument the assertion fails; when the first of them is not among the
    keyword arguments the dispatch raises KeyError on its name, and when any
    of them is not, the dispatch raises; when each of them is a distributed
    tensor among the keyword arguments and there is a descriptor for each,
    they are given the descriptors in order and are returned, alone or as a
    tuple. *)
Theorem out_variant_dispatch_looks_up_out_arguments {world : Type} (fallback : bool)
    (repr : OpSchema -> string)
    (redistribute_dtensor :
       DTensor -> DeviceMesh -> list Placement -> world -> world * result DTensor)
    (wrap aten_view : value -> value -> M (world := world) value)
    (op_call : OpOverload (world := world)) (args : list value)
    (kwargs : list (string * value)) (rules : gmap string rule)
    (custom : gmap string (list value -> list (string * value) -> M (world := world) value))
    (s s1 s2 s3 : state (world := world)) (target : OpSchema) (redistribute : bool)
    (output_sharding : OutputSharding) (local_args : list value)
    (local_kwargs : list (string * value)) (outside_world : world) (local_results : value) :
  op_key op_call ≠ "aten._reshape_alias.default" ->
  custom !! op_key op_call = None ->
  propagate_input_sharding fallback repr op_call args kwargs rules s
    = (s1, Ok (target, redistribute, Some output_sharding)) ->
  is_inplace target = false ->
  is_out_variant target = true ->
  pack_args_kwargs_with_local_tensor redistribute_dtensor (VTuple args)
    (VTuple (args_schema target)) redistribute s1 = (s2, Ok (VTuple local_args)) ->
  pack_args_kwargs_with_local_tensor redistribute_dtensor (VDict kwargs)
    (VDict (kwargs_schema target)) redistribute s2 = (s3, Ok (VDict local_kwargs)) ->
  op_run op_call local_args local_kwargs (ext s3) = (outside_world, Ok local_results) ->
  let after_op := {| wrappers := wrappers s; foreign_specs := foreign_specs s3;
                     rule_calls := rule_calls s3; ext := outside_world |} in
  let outs := out_arguments (arguments (func_schema target)) in
  let output_specs := match output_spec output_sharding with VTuple l => l | v => [v] end in
  let run := operator_dispatch fallback repr redistribute_dtensor wrap aten_view op_call
               args kwargs rules custom s in
  (outs = [] ->
     run = (after_op, Raise (AssertionError "out variant should have at least one out arg")))
  ∧ (forall a rest, outs = a :: rest -> kw_get (arg_name a) kwargs = None ->
       run = (after_op, Raise (KeyError (arg_name a))))
  ∧ (forall a, a ∈ outs -> kw_get (arg_name a) kwargs = None -> exists e, run.2 = Raise e)
  ∧ (forall locs,
       outs ≠ [] ->
       Forall2 (fun a l => kw_get (arg_name a) kwargs = Some (VDTensor l)) outs locs ->
       Forall (fun l => is_Some (wrappers s !! l)) locs ->
       (length locs <= length output_specs)%nat ->
       run = (with_wrappers after_op (assign_specs (wrappers s) (zip locs output_specs)),
              Ok (match locs with
                  | [l] => VDTensor l
                  | _ => VTuple (VDTensor <$> locs)
                  end))).
Proof.
  intros Hkey Hcustom Hprop Hin Hout Hpack1 Hpack2 Hop after_op outs output_specs run.
  destruct (dispatch_out_variant fallback repr redistribute_dtensor wrap aten_view op_call
              args kwargs rules custom s s1 s2 s3 target redistribute output_sharding
              local_args local_kwargs outside_world local_results
              Hkey Hcustom Hprop Hin Hout Hpack1 Hpack2 Hop) as [Hw Hrun].
  cbn [wrappers] in Hw. rewrite Hw in Hrun. fold after_op output_specs in Hrun.
  subst run. rewrite Hrun. unfold out_variant_result. repeat split.
  - intros Houts. unfold mbind at 1, M_bind at 1.
    rewrite (collect_outs_none _ _ _ _ _ Houts). reflexivity.
  - intros a rest Houts Hk. unfold mbind at 1, M_bind at 1.
    rewrite (collect_outs_first_missing _ _ _ _ _ _ _ Houts Hk). reflexivity.
  - intros a Ha Hk. unfold mbind at 1, M_bind at 1.
    destruct (collect_outs_missing _ kwargs output_specs 0 after_op a Ha Hk) as [e He].
    destruct (collect_outs _ _ _ _ _) as [s' [l|e']]; [discriminate He|].
    eexists. reflexivity.
  - intros locs Hne Hkw Hlive Hlen. unfold mbind at 1, M_bind at 1.
    change 0 with (Z.of_nat 0).
    rewrite (collect_outs_all _ _ _ 0%nat after_op locs Hkw Hlive) by (cbn; lia).
    rewrite drop_0. cbn [wrappers after_op].
    destruct locs as [|l [|l' locs]].
    + inversion Hkw as [Houts|]. symmetry in Houts. contradiction.
    + reflexivity.
    + cbn [fmap list_fmap length].
      assert (forall n, (1 <=? Z.of_nat (S (S n))) = true) as Hle
        by (intros; apply Z.leb_le; lia).
      rewrite Hle. reflexivity.
Qed.

Lemma out_variant_dispatch_looks_up_out_arguments_witness :
  op_key aten_add_out ≠ "aten._reshape_alias.default"
  ∧ kw_get "out" [("out", VDTensor 2%nat)] = Some (VDTensor 2%nat)
  ∧ exists s',
      dispatch false aten_add_out [VDTensor 0%nat; VDTensor 1%nat] [("out", VDTensor 2%nat)]
        three_wrappers = (s', Ok (VDTensor 2%nat))
      ∧ wrappers s' = assign_specs (wrappers three_wrappers) [(2%nat, sharded)].
Proof.
  assert (op_key aten_add_out ≠ "aten._reshape_alias.default") as Hkey by discriminate.
  split; [exact Hkey|]. split; [reflexivity|].
  destruct (out_variant_dispatch_looks_up_out_arguments false repr_name redistribute_nothing
              wrap view_unreached aten_add_out [VDTensor 0%nat; VDTensor 1%nat]
              [("out", VDTensor 2%nat)] registry ∅ three_wrappers _ _ _ _ _ _ _ _ _ _
              Hkey (lookup_empty _) eq_refl eq_refl eq_refl eq_refl eq_refl eq_refl)
    as (_ & _ & _ & H).
  specialize (H [2%nat]).
  eexists. split.
  - apply H.
    + discriminate.
    + repeat constructor.
    + repeat constructor. eexists. reflexivity.
    + cbn. lia.
  - reflexivity.
Defined.

(** The out tensor passed by position: the lookup by name fails. *)
Example out_tensor_passed_by_position :
  (dispatch false aten_add_out [VDTensor 0%nat; VDTensor 1%nat; VDTensor 2%nat] []
     three_wrappers).2 = Raise (KeyError "out").
Proof.
  reflexivity.
Qed.

End DispatchFacts.

Module SliceFacts.
Import PyFacts.

Lemma slice_bound_range len i : 0 <= len -> 0 <= slice_bound len i <= len.
Proof. unfold slice_bound. destruct (Z.ltb_spec i 0); lia. Qed.

Lemma py_slice_length {A} (start stop : option Z) (l : list A) :
  let len := Z.of_nat (length l) in
  let a := from_option (slice_bound len) 0 start in
  let b := from_option (slice_bound len) len stop in
  Z.of_nat (length (py_slice start stop l)) = Z.max 0 (b - a).
Proof.
  intros len a b. unfold py_slice. fold len. fold a. fold b.
  assert (0 <= a <= len) as Ha.
  { subst a. destruct start; cbn; [apply slice_bound_range|]; lia. }
  assert (0 <= b <= len) as Hb.
  { subst b. destruct stop; cbn; [apply slice_bound_range|]; lia. }
  rewrite length_take, length_drop. lia.
Qed.

Lemma slice_suffix {A} (d : Z) (l : list A) :
  0 < d <= Z.of_nat (length l) ->
  py_slice (Some (- d)) None l = drop (length l - Z.to_nat d) l.
Proof.
  intros H. unfold py_slice, slice_bound. cbn [from_option].
  destruct (Z.ltb_spec (- d) 0); [|lia].
  rewrite Z.max_r by lia.
  replace (Z.to_nat (Z.of_nat (length l) + - d)) with (length l - Z.to_nat d)%nat by lia.
  apply take_ge. rewrite length_drop. lia.
Qed.

Lemma slice_prefix {A} (d : Z) (l : list A) :
  0 <= d -> py_slice None (Some d) l = take (Z.to_nat d) l.
Proof.
  intros H. unfold py_slice, slice_bound. cbn [from_option].
  rewrite Z2Nat.inj_0, drop_0.
  destruct (Z.ltb_spec d 0); [lia|]. rewrite Z.sub_0_r.
  destruct (Z.le_ge_cases d (Z.of_nat (length l))).
  - rewrite Z.min_l by lia. reflexivity.
  - rewrite Z.min_r by lia. rewrite Nat2Z.id, !take_ge by lia. reflexivity.
Qed.

Lemma slice_from {A} (d : Z) (l : list A) :
  0 <= d -> py_slice (Some d) None l = drop (Z.to_nat d) l.
Proof.
  intros H. unfold py_slice, slice_bound. cbn [from_option].
  destruct (Z.ltb_spec d 0); [lia|].
  destruct (Z.le_ge_cases d (Z.of_nat (length l))).
  - rewrite Z.min_l by lia. apply take_ge. rewrite length_drop. lia.
  - rewrite Z.min_r by lia. rewrite !drop_ge by lia. apply take_nil.
Qed.

Lemma slice_without_suffix {A} (d : Z) (l : list A) :
  0 < d -> py_slice None (Some (- d)) l = take (length l - Z.to_nat d) l.
Proof.
  intros H. unfold py_slice, slice_bound. cbn [from_option].
  rewrite Z2Nat.inj_0, drop_0.
  destruct (Z.ltb_spec (- d) 0); [|lia]. rewrite Z.sub_0_r. f_equal. lia.
Qed.

Lemma slice_inside {A} (a b : Z) (l : list A) :
  0 <= a -> 0 < b ->
  py_slice (Some a) (Some (- b)) l
  = take (length l - Z.to_nat a - Z.to_nat b) (drop (Z.to_nat a) l).
Proof.
  intros Ha Hb. unfold py_slice, slice_bound. cbn [from_option].
  destruct (Z.ltb_spec a 0); [lia|]. destruct (Z.ltb_spec (- b) 0); [|lia].
  destruct (Z.le_ge_cases a (Z.of_nat (length l))).
  - rewrite Z.min_l by lia. f_equal. lia.
  - rewrite Z.min_r by lia. rewrite Nat2Z.id, !drop_ge by lia. rewrite !take_nil. reflexivity.
Qed.

End SliceFacts.

(** * More on the halo-exchange convolution *)

Module TPConvMore.
Import PyFacts SliceFacts TPConv TPConvRuns TPConvFacts.

(** One step through a program whose batches are counted. *)
Ltac post_step :=
  lazymatch goal with
  | |- posted _ (Return _) = [] => reflexivity
  | |- posted _ (lift _) = [] => reflexivity
  | |- posted _ (mbind _ (lift ?r)) = [] =>
      destruct r; cbn [mbind comm_mbind comm_bind lift]
  | |- posted _ (comm_bind _ (lift ?r)) = [] =>
      destruct r; cbn [mbind comm_mbind comm_bind lift]
  | |- posted _ (match ?r with Ok _ => _ | Raise _ => _ end) = [] => destruct r
  | |- posted _ (if ?b then _ else _) = [] => destruct b
  | |- posted _ (match ?p with pair _ _ => _ end) = [] => destruct p
  | |- (length (posted _ (Return _)) <= _)%nat => cbn [posted length]; lia
  | |- (length (posted _ (lift _)) <= _)%nat => cbn [posted lift length]; lia
  | |- (length (posted _ (mbind _ (lift ?r))) <= _)%nat =>
      destruct r; cbn [mbind comm_mbind comm_bind lift]
  | |- (length (posted _ (comm_bind _ (lift ?r))) <= _)%nat =>
      destruct r; cbn [mbind comm_mbind comm_bind lift]
  | |- (length (posted _ (match ?r with Ok _ => _ | Raise _ => _ end)) <= _)%nat => destruct r
  | |- (length (posted _ (if ?b then _ else _)) <= _)%nat => destruct b
  | |- (length (posted _ (match ?p with pair _ _ => _ end)) <= _)%nat => destruct p
  end.

Section Counting.
Context {elem : Type} (ezero : elem) (eadd : elem -> elem -> elem).
Variables (op_call : OpOverload (elem := elem)) (rank size : Z).
Variables (args : list (arg (elem := elem))) (kwds : kwargs (elem := elem)).
Variable feed : list (P2POp (elem := elem)) -> list (tensor (elem := elem)).

Lemma resume_posts_nothing t received :
  posted feed (tp_convolution_resume op_call rank size args kwds t received) = [].
Proof. unfold tp_convolution_resume. repeat post_step. Qed.

Lemma exchange_posts_at_most_one in_tensor weight_shape :
  (length (posted feed (tp_convolution_exchange ezero op_call rank size args kwds
                          in_tensor weight_shape)) <= 1)%nat.
Proof.
  unfold tp_convolution_exchange. repeat post_step.
  cbn [posted length]. rewrite resume_posts_nothing. cbn. lia.
Qed.

Lemma backward_resume_grad_posts_nothing d1 d2 results g received :
  posted feed (tp_convolution_backward_resume_grad eadd rank size d1 d2 results g received) = [].
Proof. unfold tp_convolution_backward_resume_grad. repeat post_step. Qed.

Lemma backward_resume_posts_at_most_one grad_out t d1 d2 right left received :
  (length (posted feed (tp_convolution_backward_resume ezero eadd op_call rank size args kwds
                          grad_out t d1 d2 right left received)) <= 1)%nat.
Proof.
  unfold tp_convolution_backward_resume. repeat post_step.
  cbn [posted length]. rewrite backward_resume_grad_posts_nothing. cbn. lia.
Qed.

Lemma backward_exchange_posts_at_most_two grad_out in_tensor weight_shape :
  (length (posted feed (tp_convolution_backward_exchange ezero eadd op_call rank size args kwds
                          grad_out in_tensor weight_shape)) <= 2)%nat.
Proof.
  unfold tp_convolution_backward_exchange. repeat post_step.
  cbn [posted length]. apply le_n_S, backward_resume_posts_at_most_one.
Qed.

End Counting.

(** Property X1.  The forward pass communicates at most once: whatever the
    arguments and whatever is received, [tp_convolution] posts at most one batch
    of point-to-point operations before it returns or raises. *)
Theorem forward_posts_at_most_one_batch {elem : Type} (ezero : elem)
    (op_call : OpOverload (elem := elem)) (rank size : Z)
    (args : list (arg (elem := elem))) (kwds : kwargs (elem := elem))
    (feed : list (P2POp (elem := elem)) -> list (tensor (elem := elem))) :
  (length (posted feed (tp_convolution ezero op_call rank size args kwds)) <= 1)%nat.
Proof.
  unfold tp_convolution. repeat post_step. apply exchange_posts_at_most_one.
Qed.

(** Property X2.  The backward pass communicates at most twice: whatever the
    arguments and whatever is received, [tp_convolution_backward] posts at most
    two batches, one for the halos of the input and one for the overlap of the
    gradient. *)
Theorem backward_posts_at_most_two_batches {elem : Type} (ezero : elem)
    (eadd : elem -> elem -> elem)
    (op_call : OpOverload (elem := elem)) (rank size : Z)
    (args : list (arg (elem := elem))) (kwds : kwargs (elem := elem))
    (feed : list (P2POp (elem := elem)) -> list (tensor (elem := elem))) :
  (length (posted feed (tp_convolution_backward ezero eadd op_call rank size args kwds)) <= 2)%nat.
Proof.
  unfold tp_convolution_backward. repeat post_step. apply backward_exchange_posts_at_most_two.
Qed.

(** Property X3.  Without padding along the sharded axis the backward pass is
    the local operator: for arguments that [_is_supported] accepts and whose
    [padding[1]] is 0, [tp_convolution_backward] returns exactly what the
    operator returns on the local tensors and posts no point-to-point operation. *)
Theorem tp_convolution_backward_without_padding {elem : Type} (ezero : elem)
    (eadd : elem -> elem -> elem)
    (op_call : OpOverload (elem := elem)) (rank size : Z) (x w : tensor (elem := elem))
    (grad_out bias stride dilation transposed output_padding groups output_mask
     : arg (elem := elem))
    (p0 : Z) (prest : list Z) (kwds : kwargs (elem := elem)) :
  op_name op_call = aten_convolution_backward_default ->
  _is_supported (shape x) (shape w) stride (AInts (p0 :: 0 :: prest)) dilation = Ok true ->
  let args := [grad_out; ATensor x; ATensor w; bias; stride; AInts (p0 :: 0 :: prest);
               dilation; transposed; output_padding; groups; output_mask] in
  let program := tp_convolution_backward ezero eadd op_call rank size args kwds in
  program = Return (op_run op_call args kwds) ∧ forall feed, posted feed program = [].
Proof.
  intros Hop Hsupported args program.
  assert (program = Return (op_run op_call args kwds)) as ->; [|split; reflexivity].
  subst program args. unfold tp_convolution_backward. rewrite Hop.
  cbv -[_is_supported shape op_run _requires_data_exchange tp_convolution_backward_exchange].
  rewrite Hsupported.
  unfold _requires_data_exchange, int_at. rewrite getitem_1. reflexivity.
Qed.

Lemma tp_convolution_backward_without_padding_witness :
  op_name convolution_backward_ref = aten_convolution_backward_default
  ∧ _is_supported (elem := Z) (shape (row [1; 2; 3])) (shape (row [2])) (AInts [1; 1])
      (AInts [0; 0]) (AInts [1; 1]) = Ok true
  ∧ tp_convolution_backward 0 Z.add convolution_backward_ref 1 2
      (conv_backward_args [1; 1; 1] [1; 2; 3] [2] [1; 1] [0; 0] [1; 1]) []
    = Return (Ok (ASeq [ATensor (row [2; 2; 2]); ATensor (row [6]); ATensor (row [3])])).
Proof.
  split; [reflexivity|]. split; [reflexivity|].
  destruct (tp_convolution_backward_without_padding 0 Z.add convolution_backward_ref 1 2
              (row [1; 2; 3]) (row [2]) (ATensor (row [1; 1; 1])) ANone (AInts [1; 1])
              (AInts [1; 1]) (ABool false) (AInts [0; 0]) (AInt 1) (ABools [true; true; false])
              0 [] [] eq_refl eq_refl) as [-> _].
  reflexivity.
Defined.

Lemma getitem_raises {A} (l : list A) i e : getitem l i = Raise e -> e = IndexError.
Proof.
  unfold getitem. destruct (py_index _ i) as [n|]; [|congruence].
  destruct (l !! n); congruence.
Qed.

Lemma int_at_raises {elem : Type} (a : arg (elem := elem)) i e :
  int_at a i = Raise e -> e = IndexError ∨ e = TypeError.
Proof.
  destruct a; cbn [int_at]; try (intros [= <-]; right; reflexivity).
  intros H%getitem_raises. left. exact H.
Qed.

Lemma pymod_raises a b e : pymod a b = Raise e -> e = ZeroDivisionError.
Proof. unfold pymod. destruct (b =? 0); congruence. Qed.

(** Property X4.  [_is_supported] never returns [False]: on any arguments at all
    it returns [True] or raises, and what it raises is a RuntimeError, an
    IndexError (a size or hyperparameter too short), a TypeError (a
    hyperparameter that is no sequence of ints) or a ZeroDivisionError (a zero
    stride without padding); so the [assert] that the two passes put around it
    cannot fail. *)
Theorem is_supported_returns_true_or_raises {elem : Type} (input_size kernel_size : list Z)
    (stride padding dilation : arg (elem := elem)) :
  match _is_supported input_size kernel_size stride padding dilation with
  | Ok supported => supported = true
  | Raise (RuntimeError _) | Raise IndexError | Raise TypeError | Raise ZeroDivisionError => True
  | Raise _ => False
  end.
Proof.
  unfold _is_supported.
  destruct (int_at dilation 1) as [d1|e] eqn:E; cbn [mbind result_bind];
    [|apply int_at_raises in E as [->| ->]; exact I].
  destruct (negb (d1 =? 1)); [exact I|].
  destruct (int_at padding 1) as [p1|e] eqn:E1; cbn [mbind result_bind];
    [|apply int_at_raises in E1 as [->| ->]; exact I].
  destruct (negb (p1 =? 0)).
  - destruct (int_at stride 1) as [s1|e] eqn:E2; cbn [mbind result_bind];
      [|apply int_at_raises in E2 as [->| ->]; exact I].
    destruct (negb (s1 =? 1)); [exact I|].
    destruct (getitem kernel_size 3) as [k3|e] eqn:E3; cbn [mbind result_bind];
      [|apply getitem_raises in E3 as ->; exact I].
    destruct (getitem input_size 3) as [i3|e] eqn:E4; cbn [mbind result_bind];
      [|apply getitem_raises in E4 as ->; exact I].
    destruct (i3 <? k3 / 2); [exact I|reflexivity].
  - destruct (getitem input_size 3) as [i3|e] eqn:E4; cbn [mbind result_bind];
      [|apply getitem_raises in E4 as ->; exact I].
    destruct (int_at stride 1) as [s1|e] eqn:E2; cbn [mbind result_bind];
      [|apply int_at_raises in E2 as [->| ->]; exact I].
    destruct (pymod i3 s1) as [m|e] eqn:E5; cbn [mbind result_bind];
      [|apply pymod_raises in E5 as ->; exact I].
    destruct (m =? 0).
    + destruct (getitem kernel_size 3) as [k3|e] eqn:E3; cbn [mbind result_bind];
        [|apply getitem_raises in E3 as ->; exact I].
      destruct (s1 =? k3); cbn [negb]; [reflexivity|exact I].
    + cbn [mbind result_bind negb]. exact I.
Qed.

(** ** What is sent, and to whom *)

Section Shapes.
Context {elem : Type} (ezero : elem).

Lemma width_slice_last (start stop : option Z) (t : tensor (elem := elem)) :
  width (slice_last start stop t)
  = Z.max 0 (from_option (slice_bound (width t)) (width t) stop
             - from_option (slice_bound (width t)) 0 start).
Proof. unfold width, slice_last, with_cols. cbn [cols]. apply py_slice_length. Qed.

Lemma shape_slice_last (start stop : option Z) (t u : tensor (elem := elem)) :
  shape t = shape u -> shape (slice_last start stop t) = shape (slice_last start stop u).
Proof.
  unfold shape. intros [= HN HC HH HW]. rewrite !width_slice_last, HW.
  unfold slice_last, with_cols. cbn [tN tC tH]. rewrite HN, HC, HH. reflexivity.
Qed.

Lemma shape_zeros_like (t : tensor (elem := elem)) : shape (zeros_like ezero t) = shape t.
Proof.
  unfold shape, width, zeros_like, with_cols. cbn [tN tC tH cols].
  rewrite length_replicate. reflexivity.
Qed.

Lemma supported_with_padding (x w : tensor (elem := elem))
    (stride dilation : arg (elem := elem)) p0 p1 prest :
  _is_supported (shape x) (shape w) stride (AInts (p0 :: p1 :: prest)) dilation = Ok true ->
  p1 ≠ 0 -> width w / 2 <= width x.
Proof.
  unfold _is_supported. intros H Hp.
  destruct (int_at dilation 1); cbn [mbind result_bind] in H; [|discriminate H].
  destruct (negb _); [discriminate H|].
  cbn [int_at] in H. rewrite getitem_1 in H. cbn [mbind result_bind] in H.
  destruct (Z.eqb_spec p1 0); [contradiction|]. cbn [negb] in H.
  destruct (int_at stride 1); cbn [mbind result_bind] in H; [|discriminate H].
  destruct (negb _); [discriminate H|].
  unfold shape in H. rewrite !getitem_3 in H. cbn [mbind result_bind] in H.
  destruct (Z.ltb_spec (width x) (width w / 2)); [discriminate H|]. lia.
Qed.

End Shapes.

(** Property X5.  The halos are the edge columns of the shard. On the exchange
    path, for a kernel of width at least 3 that [_is_supported] accepts, a rank
    sends to its right neighbour the last [d1 = (k - 1) // 2] columns of its
    shard and to its left neighbour the first [d2 = k - 1 - d1] columns; both
    halos are full, since [_is_supported] made sure that the shard has at least
    [k // 2 = d2] columns, and the receive buffers are zero tensors of the
    shapes of the halos. *)
Theorem halos_are_the_edge_columns {elem : Type} (ezero : elem)
    (op_call : OpOverload (elem := elem)) (rank size : Z) (x w : tensor (elem := elem))
    (bias stride dilation transposed output_padding groups : arg (elem := elem))
    (p0 p1 : Z) (prest : list Z) (kwds : kwargs (elem := elem)) :
  op_name op_call = aten_convolution_default ->
  _is_supported (shape x) (shape w) stride (AInts (p0 :: p1 :: prest)) dilation = Ok true ->
  p1 ≠ 0 -> size ≠ 0 -> 3 <= width w ->
  let d1 := (width w - 1) / 2 in
  let d2 := width w - 1 - d1 in
  let program :=
    tp_convolution ezero op_call rank size
      [ATensor x; ATensor w; bias; stride; AInts (p0 :: p1 :: prest); dilation;
       transposed; output_padding; groups] kwds in
  let send_to_right := with_cols x (drop (length (cols x) - Z.to_nat d1) (cols x)) in
  let send_to_left := with_cols x (take (Z.to_nat d2) (cols x)) in
  batch_of program
  = halo_batch send_to_right send_to_left
      (zeros_like ezero send_to_right) (zeros_like ezero send_to_left)
      ((rank + 1) mod size) ((rank - 1 + size) mod size)
  ∧ width send_to_right = d1
  ∧ width send_to_left = d2
  ∧ 0 < d1 <= d2 ∧ d2 <= width x.
Proof.
  intros Hop Hsupported Hp Hsize Hk d1 d2 program send_to_right send_to_left.
  pose proof (supported_with_padding _ _ _ _ _ _ _ Hsupported Hp) as HW.
  assert (0 < d1 <= d2 ∧ d2 <= width x) as Hd
    by (subst d1 d2; unfold width in *; Z.div_mod_to_equations; lia).
  subst program. rewrite (tp_convolution_takes_exchange ezero) by assumption.
  rewrite exchange_posts by assumption. cbn zeta. fold d1. fold d2.
  subst send_to_right send_to_left.
  unfold width in *. unfold slice_last, with_cols. cbn [cols batch_of].
  rewrite slice_suffix by lia. rewrite slice_prefix by lia.
  rewrite length_drop, length_take.
  repeat split; lia.
Qed.

Lemma halos_are_the_edge_columns_witness :
  batch_of (tp_convolution 0 convolution_ref 1 3
              (conv_args [1; 2; 3; 4] [1; 1; 1] [1; 1] [0; 1] [1; 1]) [])
  = halo_batch (row [4]) (row [1]) (row [0]) (row [0]) 2 0.
Proof.
  destruct (halos_are_the_edge_columns 0 convolution_ref 1 3 (row [1; 2; 3; 4])
              (row [1; 1; 1]) ANone (AInts [1; 1]) (AInts [1; 1]) (ABool false)
              (AInts [0; 0]) (AInt 1) 0 1 [] [] eq_refl eq_refl ltac:(lia) ltac:(lia)
              ltac:(cbv; discriminate))
    as (H & _).
  unfold conv_args. rewrite H. reflexivity.
Defined.

(** Property X6.  Sends and receives pair up around the ring. On the exchange
    path, the right neighbour of a rank awaits from its left, which is that
    rank, a tensor of the shape of what the rank sends to its right; the left
    neighbour awaits from its right, which is that rank, a tensor of the shape
    of what the rank sends to its left; provided the neighbours hold shards of
    the shape of the rank's shard. *)
Theorem neighbours_await_each_other {elem : Type} (ezero : elem)
    (op_call : OpOverload (elem := elem)) (rank size : Z) (x y z w : tensor (elem := elem))
    (bias stride dilation transposed output_padding groups : arg (elem := elem))
    (p0 p1 : Z) (prest : list Z) (kwds : kwargs (elem := elem)) :
  op_name op_call = aten_convolution_default ->
  _is_supported (shape x) (shape w) stride (AInts (p0 :: p1 :: prest)) dilation = Ok true ->
  p1 ≠ 0 -> 0 <= rank < size -> shape y = shape x -> shape z = shape x ->
  let right := (rank + 1) mod size in
  let left := (rank - 1 + size) mod size in
  let program r t :=
    tp_convolution ezero op_call r size
      [ATensor t; ATensor w; bias; stride; AInts (p0 :: p1 :: prest); dilation;
       transposed; output_padding; groups] kwds in
  let d1 := (width w - 1) / 2 in
  let d2 := width w - 1 - d1 in
  let to_right t := slice_last (Some (- d1)) None t in
  let to_left t := slice_last None (Some d2) t in
  let batch t to_the_right to_the_left :=
    halo_batch (to_right t) (to_left t)
      (zeros_like ezero (to_right t)) (zeros_like ezero (to_left t))
      to_the_right to_the_left in
  batch_of (program rank x) = batch x right left
  ∧ batch_of (program right y) = batch y ((right + 1) mod size) rank
  ∧ shape (zeros_like ezero (to_right y)) = shape (to_right x)
  ∧ batch_of (program left z) = batch z rank ((left - 1 + size) mod size)
  ∧ shape (zeros_like ezero (to_left z)) = shape (to_left x).
Proof.
  intros Hop Hsupported Hp Hrank Hy Hz right left program d1 d2 to_right to_left batch.
  assert (size ≠ 0) as Hsize by lia.
  assert ((right - 1 + size) mod size = rank) as Hrl.
  { subst right. destruct (Z.eq_dec (rank + 1) size) as [E|E].
    - rewrite E, Z.mod_same by lia. replace (0 - 1 + size) with rank by lia.
      apply Z.mod_small. lia.
    - rewrite (Z.mod_small (rank + 1)) by lia.
      replace (rank + 1 - 1 + size) with (rank + 1 * size) by lia.
      rewrite Z.mod_add by lia. apply Z.mod_small. lia. }
  assert ((left + 1) mod size = rank) as Hlr.
  { subst left. destruct (Z.eq_dec rank 0) as [E|E].
    - rewrite E. replace (0 - 1 + size) with (size - 1) by lia.
      rewrite (Z.mod_small (size - 1)) by lia.
      replace (size - 1 + 1) with size by lia. apply Z.mod_same. lia.
    - replace (rank - 1 + size) with (rank - 1 + 1 * size) by lia.
      rewrite Z.mod_add by lia. rewrite (Z.mod_small (rank - 1)) by lia.
      replace (rank - 1 + 1) with rank by lia. apply Z.mod_small. lia. }
  subst program batch to_right to_left. cbn beta.
  rewrite !(tp_convolution_takes_exchange ezero) by (rewrite ?Hy, ?Hz; assumption).
  rewrite !exchange_posts by assumption. cbn zeta. cbn [batch_of].
  rewrite Hrl, Hlr, !shape_zeros_like.
  repeat split; apply shape_slice_last; assumption.
Qed.

Lemma neighbours_await_each_other_witness :
  recv_peers (batch_of (tp_convolution 0 convolution_ref ((2 + 1) mod 3) 3
                          (conv_args [5; 6; 7; 8] [1; 1; 1] [1; 1] [0; 1] [1; 1]) []))
  = [2; 1].
Proof.
  destruct (neighbours_await_each_other 0 convolution_ref 2 3 (row [1; 2; 3; 4])
              (row [5; 6; 7; 8]) (row [0; 0; 0; 0]) (row [1; 1; 1]) ANone (AInts [1; 1])
              (AInts [1; 1]) (ABool false) (AInts [0; 0]) (AInt 1) 0 1 [] []
              eq_refl eq_refl ltac:(lia) ltac:(lia) eq_refl eq_refl)
    as (_ & H & _).
  unfold conv_args. rewrite H. reflexivity.
Defined.

(** ** What comes back *)

Section Results.
Context {elem : Type} (ezero : elem) (eadd : elem -> elem -> elem).
Variable feed : list (P2POp (elem := elem)) -> list (tensor (elem := elem)).

Lemma outcome_bind {A B} (r : result A) (f : A -> comm (elem := elem) B) :
  outcome feed (lift r ≫= f) = (a ← r; outcome feed (f a)).
Proof. destruct r; reflexivity. Qed.

Lemma cat_last_cols (ts : list (tensor (elem := elem))) t :
  cat_last ts = Ok t -> cols t = concat (cols <$> ts).
Proof.
  unfold cat_last. destruct ts as [|t0 rest]; [discriminate|].
  destruct (forallb _ _); [|discriminate]. intros [= <-]. reflexivity.
Qed.

Lemma setitem_first {A} (l l' : list A) x :
  setitem l 0 x = Ok l' -> exists a rest, l = a :: rest ∧ l' = x :: rest.
Proof.
  destruct l as [|a rest]; [discriminate|].
  pose proof (py_index_nat (length (a :: rest)) 0 ltac:(cbn; lia)) as H.
  change (Z.of_nat 0) with 0 in H. unfold setitem. rewrite H.
  intros [= <-]. eauto.
Qed.

Lemma setitem_second {A} (l l' : list A) x :
  setitem l 1 x = Ok l' -> exists a b rest, l = a :: b :: rest ∧ l' = a :: x :: rest.
Proof.
  destruct l as [|a [|b rest]]; [discriminate| |].
  - unfold setitem, py_index. cbn. discriminate.
  - pose proof (py_index_nat (length (a :: b :: rest)) 1 ltac:(cbn; lia)) as H.
    change (Z.of_nat 1) with 1 in H. unfold setitem. rewrite H.
    intros [= <-]. eauto.
Qed.

End Results.

(** Property X7.  A convolution that keeps the width keeps the width of every
    shard. With stride 1, a kernel of odd width [2 * p + 1] and padding [p], fed
    with halos of [p] columns, and with a local operator whose output has [in +
    2 * p - (k - 1)] columns, [tp_convolution] returns on every rank, the first
    and the last included, a tensor with as many columns as the rank's shard. *)
Theorem same_convolution_keeps_the_shard_width {elem : Type} (ezero : elem)
    (op_call : OpOverload (elem := elem)) (rank size : Z) (x w : tensor (elem := elem))
    (bias stride dilation transposed output_padding groups : arg (elem := elem))
    (p0 p : Z) (prest : list Z) (kwds : kwargs (elem := elem))
    (feed : list (P2POp (elem := elem)) -> list (tensor (elem := elem)))
    (recv_from_left recv_from_right widened out : tensor (elem := elem)) :
  op_name op_call = aten_convolution_default ->
  _is_supported (shape x) (shape w) stride (AInts (p0 :: p :: prest)) dilation = Ok true ->
  0 < p -> width w = 2 * p + 1 -> size ≠ 0 ->
  let args := [ATensor x; ATensor w; bias; stride; AInts (p0 :: p :: prest); dilation;
               transposed; output_padding; groups] in
  let program := tp_convolution ezero op_call rank size args kwds in
  feed (batch_of program) = [recv_from_left; recv_from_right] ->
  width recv_from_left = p -> width recv_from_right = p ->
  reconstruct rank size x recv_from_left recv_from_right = Ok widened ->
  op_run op_call (<[0%nat := ATensor widened]> args) kwds = Ok (ATensor out) ->
  width out = width widened + 2 * p - (width w - 1) ->
  exists trimmed,
    outcome feed program = Ok (ATensor trimmed) ∧ width trimmed = width x.
Proof.
  intros Hop Hsupported Hp Hk Hsize args program Hfeed Hl Hr Hwide Hrun Hout.
  assert (p ≠ 0) as Hp' by lia.
  subst program args. revert Hfeed.
  rewrite (tp_convolution_takes_exchange ezero) by assumption.
  rewrite exchange_posts by assumption. cbn zeta. cbn [batch_of outcome].
  intros ->. unfold tp_convolution_resume.
  rewrite getitem_0, getitem_1. cbn [mbind comm_mbind comm_bind lift outcome].
  unfold tp_convolution_local. rewrite Hwide. cbn [mbind result_bind].
  pose proof (py_index_nat 9 0 ltac:(lia)) as Hfirst.
  change (Z.of_nat 0) with 0 in Hfirst.
  unfold setitem. cbn [length]. rewrite Hfirst. cbn [mbind result_bind].
  rewrite Hrun. cbn [mbind result_bind].
  cbn [insert list_insert]. rewrite (getitem_nat _ 4 (AInts (p0 :: p :: prest))) by reflexivity.
  cbn [mbind result_bind int_at]. rewrite getitem_1. cbn [mbind result_bind as_tensor].
  eexists. split; [reflexivity|].
  unfold reconstruct in Hwide.
  destruct (rank =? 0).
  - apply cat_last_cols in Hwide. rewrite width_slice_last. cbn [from_option].
    unfold slice_bound.
    assert (width widened = width x + p) as Hw.
    { unfold width in *. rewrite Hwide. cbn [fmap list_fmap concat].
      rewrite !length_app. cbn [length]. lia. }
    unfold width in *. destruct (Z.ltb_spec (Z.of_nat (length (cols out)) - p) 0); lia.
  - destruct (rank =? size - 1).
    + apply cat_last_cols in Hwide. rewrite width_slice_last. cbn [from_option].
      unfold slice_bound.
      assert (width widened = width x + p) as Hw.
      { unfold width in *. rewrite Hwide. cbn [fmap list_fmap concat].
      rewrite !length_app. cbn [length]. lia. }
      unfold width in *. destruct (Z.ltb_spec p 0); lia.
    + apply cat_last_cols in Hwide. rewrite width_slice_last. cbn [from_option].
      unfold slice_bound.
      assert (width widened = width x + 2 * p) as Hw.
      { unfold width in *. rewrite Hwide. cbn [fmap list_fmap concat].
      rewrite !length_app. cbn [length]. lia. }
      unfold width in *. destruct (Z.ltb_spec p 0);
        destruct (Z.ltb_spec (Z.of_nat (length (cols out)) - p) 0); lia.
Qed.

Lemma same_convolution_keeps_the_shard_width_witness :
  exists trimmed,
    outcome (fun _ => [row [4]; row [9]])
      (tp_convolution 0 convolution_ref 1 3
         (conv_args [5; 6; 7; 8] [1; 1; 1] [1; 1] [0; 1] [1; 1]) [])
    = Ok (ATensor trimmed)
    ∧ width trimmed = width (row [5; 6; 7; 8]).
Proof.
  exact (same_convolution_keeps_the_shard_width 0 convolution_ref 1 3 (row [5; 6; 7; 8])
           (row [1; 1; 1]) ANone (AInts [1; 1]) (AInts [1; 1]) (ABool false) (AInts [0; 0])
           (AInt 1) 0 1 [] [] (fun _ => [row [4]; row [9]]) (row [4]) (row [9])
           (row [4; 5; 6; 7; 8; 9]) (row [9; 15; 18; 21; 24; 17])
           eq_refl eq_refl ltac:(lia) eq_refl ltac:(lia) eq_refl eq_refl eq_refl eq_refl
           eq_refl eq_refl).
Defined.

(** One step back through a run that returned. *)
Ltac ok_in H :=
  match type of H with
  | mbind _ ?e = Ok _ =>
      let E := fresh "E" in
      destruct e eqn:E; cbn [mbind result_bind] in H; [|discriminate H]
  | match ?e with Ok _ => _ | Raise _ => _ end = Ok _ =>
      let E := fresh "E" in
      destruct e eqn:E; cbn [mbind result_bind] in H; [|discriminate H]
  | outcome _ (mbind _ (lift ?e)) = Ok _ =>
      let E := fresh "E" in
      destruct e eqn:E; cbn [mbind comm_mbind comm_bind lift outcome] in H; [|discriminate H]
  | outcome _ (comm_bind _ (lift ?e)) = Ok _ =>
      let E := fresh "E" in
      destruct e eqn:E; cbn [mbind comm_mbind comm_bind lift outcome] in H; [|discriminate H]
  | outcome _ (match ?e with Ok _ => _ | Raise _ => _ end) = Ok _ =>
      let E := fresh "E" in
      destruct e eqn:E; cbn [mbind comm_mbind comm_bind lift outcome] in H; [|discriminate H]
  | outcome _ (match ?p with pair _ _ => _ end) = Ok _ => destruct p
  | match ?p with pair _ _ => _ end = Ok _ => destruct p
  end.

Section PassThrough.
Context {elem : Type} (ezero : elem) (eadd : elem -> elem -> elem).
Variables (op_call : OpOverload (elem := elem)) (rank size : Z).
Variables (args : list (arg (elem := elem))) (kwds : kwargs (elem := elem)).

Lemma backward_local_calls grad_out t l r results g :
  tp_convolution_backward_local ezero op_call rank size args kwds grad_out t l r
    = Ok (results, g) ->
  exists args',
    op_run op_call args' kwds = Ok results
    ∧ drop 2 args' = drop 2 args ∧ length args' = length args.
Proof.
  unfold tp_convolution_backward_local. intros H.
  repeat ok_in H.
  repeat match goal with
         | E : setitem _ 0 _ = Ok _ |- _ => apply setitem_first in E as (? & ? & -> & ->)
         | E : setitem _ 1 _ = Ok _ |- _ =>
             let Heq := fresh in
             apply setitem_second in E as (? & ? & ? & Heq & ->); injection Heq as <- ->
         end.
  injection H as <- _. eexists. split; [eassumption|]. split; reflexivity.
Qed.

Lemma replace_first_ok results g res :
  replace_first (elem := elem) results g = Ok res ->
  exists l, results = ASeq l ∧ res = ASeq (ATensor g :: drop 1 l).
Proof.
  destruct results; try discriminate. cbn [replace_first]. intros H. ok_in H.
  apply setitem_first in E as (? & ? & -> & ->). injection H as <-.
  eexists. split; reflexivity.
Qed.

End PassThrough.

(** Property X8.  The backward pass replaces the gradient of the input and
    nothing else. Whatever is received, when [tp_convolution_backward] returns,
    the local operator has returned on arguments that differ from those of the
    call at most in the first two, the gradient of the output and the input; the
    result is what the operator returned, or, after an exchange, the sequence
    the operator returned with its first entry replaced: the gradients of the
    weight and of the bias come back as the local operator computed them. *)
Theorem backward_replaces_only_the_input_gradient {elem : Type} (ezero : elem)
    (eadd : elem -> elem -> elem) (op_call : OpOverload (elem := elem)) (rank size : Z)
    (args : list (arg (elem := elem))) (kwds : kwargs (elem := elem))
    (feed : list (P2POp (elem := elem)) -> list (tensor (elem := elem)))
    (returned : arg (elem := elem)) :
  outcome feed (tp_convolution_backward ezero eadd op_call rank size args kwds) = Ok returned ->
  exists args' results,
    op_run op_call args' kwds = Ok results
    ∧ drop 2 args' = drop 2 args
    ∧ length args' = length args
    ∧ (returned = results
       ∨ exists l grad_in_tensor,
           results = ASeq l ∧ returned = ASeq (ATensor grad_in_tensor :: drop 1 l)).
Proof.
  unfold tp_convolution_backward. intros H. repeat ok_in H.
  destruct (negb _).
  - cbn [lift outcome] in H. exists args. eexists.
    split; [exact H|]. split; [reflexivity|]. split; [reflexivity|]. left. reflexivity.
  - unfold tp_convolution_backward_exchange in H. repeat ok_in H.
    cbn [outcome] in H. unfold tp_convolution_backward_resume in H. repeat ok_in H.
    cbn [outcome] in H. unfold tp_convolution_backward_resume_grad in H. repeat ok_in H.
    cbn [lift outcome] in H. unfold tp_convolution_backward_finish in H. ok_in H.
    apply replace_first_ok in H as (l & -> & ->).
    match goal with
    | E : tp_convolution_backward_local _ _ _ _ _ _ _ _ _ _ = Ok _ |- _ =>
        apply backward_local_calls in E as (args' & Hrun & Hdrop & Hlen)
    end.
    exists args'. eexists. split; [exact Hrun|]. split; [exact Hdrop|]. split; [exact Hlen|].
    right. eexists _, _. split; reflexivity.
Qed.

Lemma backward_replaces_only_the_input_gradient_witness :
  exists args' results,
    op_run convolution_backward_ref args' [] = Ok results
    ∧ drop 2 args'
      = drop 2 (conv_backward_args [1; 1; 1; 1] [1; 2; 3; 4] [1; 1; 1] [1; 1] [0; 1] [1; 1])
    ∧ length args'
      = length (conv_backward_args [1; 1; 1; 1] [1; 2; 3; 4] [1; 1; 1] [1; 1] [0; 1] [1; 1])
    ∧ (ASeq [ATensor (row [2; 3; 3; 9]); ATensor (row [6; 10; 16]); ATensor (row [4])] = results
       ∨ exists l grad_in_tensor,
           results = ASeq l
           ∧ ASeq [ATensor (row [2; 3; 3; 9]); ATensor (row [6; 10; 16]); ATensor (row [4])]
             = ASeq (ATensor grad_in_tensor :: drop 1 l)).
Proof.
  exact (backward_replaces_only_the_input_gradient 0 Z.add convolution_backward_ref 0 2
           (conv_backward_args [1; 1; 1; 1] [1; 2; 3; 4] [1; 1; 1] [1; 1] [0; 1] [1; 1]) []
           (fun _ => [row [0]; row [7]]) _ eq_refl).
Defined.

(** ** The overlap of the gradient *)

Section Aggregate.
Context {elem : Type} (eadd : elem -> elem -> elem).

Lemma add_cols (a b : tensor (elem := elem)) :
  same_lead a b = true -> length (cols a) = length (cols b) ->
  add eadd a b = Ok (with_cols a (zip_with (zip_with eadd) (cols a) (cols b))).
Proof.
  intros Hlead Hlen. unfold add. rewrite Hlead. cbn [negb].
  unfold broadcast_size. rewrite decide_True by exact Hlen. cbn [mbind result_bind].
  unfold broadcast_last. rewrite !decide_True by congruence. reflexivity.
Qed.

Lemma assign_suffix (t v : tensor (elem := elem)) (d : nat) :
  (0 < d <= length (cols t))%nat -> same_lead t v = true -> length (cols v) = d ->
  assign_slice_last (Some (- Z.of_nat d)) None t v
  = Ok (with_cols t (take (length (cols t) - d) (cols t) ++ cols v)).
Proof.
  intros Hd Hlead Hlen. unfold assign_slice_last. rewrite Hlead. cbn [negb from_option].
  unfold slice_bound, width. destruct (Z.ltb_spec (- Z.of_nat d) 0); [|lia].
  rewrite Z.max_r by lia.
  replace (Z.to_nat (Z.of_nat (length (cols t))
                     - (Z.of_nat (length (cols t)) + - Z.of_nat d))) with d by lia.
  replace (Z.to_nat (Z.of_nat (length (cols t)) + - Z.of_nat d))
    with (length (cols t) - d)%nat by lia.
  unfold broadcast_last. rewrite decide_True by exact Hlen. cbn [mbind result_bind].
  rewrite (drop_ge (cols t)) by lia. rewrite app_nil_r. reflexivity.
Qed.

Lemma assign_prefix (t v : tensor (elem := elem)) (d : nat) :
  (d <= length (cols t))%nat -> same_lead t v = true -> length (cols v) = d ->
  assign_slice_last None (Some (Z.of_nat d)) t v
  = Ok (with_cols t (cols v ++ drop d (cols t))).
Proof.
  intros Hd Hlead Hlen. unfold assign_slice_last. rewrite Hlead. cbn [negb from_option].
  unfold slice_bound, width. destruct (Z.ltb_spec (Z.of_nat d) 0); [lia|].
  rewrite Z.min_l by lia. rewrite Z.sub_0_r, Nat2Z.id, Z2Nat.inj_0.
  unfold broadcast_last. rewrite decide_True by exact Hlen. cbn [mbind result_bind].
  rewrite take_0. reflexivity.
Qed.

Lemma same_lead_eq (t u : tensor (elem := elem)) :
  tN t = tN u -> tC t = tC u -> tH t = tH u -> same_lead t u = true.
Proof. unfold same_lead. intros -> -> ->. rewrite !Z.eqb_refl. reflexivity. Qed.

End Aggregate.

(** Property X9.  The overlap is added onto the edge columns and nowhere else.
    The gradient [g] that the local operator returned covers the shard and its
    halos; with overlaps [d1] and [d2] that fit side by side in a shard of [W]
    columns, [aggregate] cuts the halos off and adds what came from the right
    onto the last [d1] columns that remain and what came from the left onto the
    first [d2]; rank 0 has no left side and the last rank no right side. The
    columns in between are those of the operator, and the result has [W]
    columns. *)
Theorem aggregate_adds_the_overlap_at_the_edges {elem : Type} (eadd : elem -> elem -> elem)
    (rank size : Z) (W d1 d2 : nat) (g recv_from_left recv_from_right : tensor (elem := elem)) :
  (0 < d1)%nat -> (0 < d2)%nat -> (d1 + d2 <= W)%nat ->
  same_lead g recv_from_left = true -> same_lead g recv_from_right = true ->
  length (cols recv_from_left) = d2 -> length (cols recv_from_right) = d1 ->
  length (cols g)
  = (W + if (rank =? 0)%Z then d2 else if (rank =? size - 1)%Z then d1 else d1 + d2)%nat ->
  let plus := zip_with (zip_with eadd) in
  let kept :=
    if rank =? 0 then
      take (W - d1) (cols g) ++ plus (take d1 (drop (W - d1) (cols g))) (cols recv_from_right)
    else if rank =? size - 1 then
      plus (take d2 (drop d1 (cols g))) (cols recv_from_left) ++ drop (d1 + d2) (cols g)
    else
      plus (take d2 (drop d1 (cols g))) (cols recv_from_left)
      ++ take (W - d1 - d2) (drop (d1 + d2) (cols g))
      ++ plus (take d1 (drop W (cols g))) (cols recv_from_right) in
  aggregate eadd rank size (Z.of_nat d1) (Z.of_nat d2) g recv_from_left recv_from_right
  = Ok (with_cols g kept)
  ∧ length kept = W.
Proof.
  intros Hd1 Hd2 Hfit Hl Hr Hll Hlr Hg plus kept. subst kept plus. unfold aggregate.
  destruct (rank =? 0).
  - unfold slice_last. cbn [cols with_cols].
    rewrite slice_without_suffix by lia. rewrite Nat2Z.id.
    replace (length (cols g) - d2)%nat with W by lia.
    rewrite slice_suffix by (rewrite length_take; lia).
    rewrite Nat2Z.id, length_take. replace (W `min` length (cols g))%nat with W by lia.
    rewrite add_cols; [|exact Hr|cbn [cols with_cols]; rewrite length_drop, length_take; lia].
    cbn [mbind result_bind cols with_cols].
    rewrite assign_suffix;
      [|cbn [cols with_cols]; rewrite length_take; lia|apply same_lead_eq; reflexivity
       |cbn [cols with_cols]; rewrite length_zip_with, length_drop, length_take; lia].
    cbn [cols with_cols tN tC tH]. rewrite length_take.
    replace (W `min` length (cols g))%nat with W by lia.
    rewrite take_take. replace ((W - d1) `min` W)%nat with (W - d1)%nat by lia.
    assert (drop (W - d1) (take W (cols g)) = take d1 (drop (W - d1) (cols g))) as ->.
    { rewrite take_drop_commute. f_equal. f_equal. lia. }
    split; [reflexivity|].
    rewrite length_app, length_take, length_zip_with, length_take, length_drop. lia.
  - destruct (rank =? size - 1).
    + unfold slice_last. cbn [cols with_cols].
      rewrite slice_from by lia. rewrite Nat2Z.id.
      rewrite slice_prefix by lia. rewrite Nat2Z.id.
      rewrite add_cols; [|exact Hl|cbn [cols with_cols]; rewrite length_take, length_drop; lia].
      cbn [mbind result_bind cols with_cols].
      rewrite assign_prefix;
        [|cbn [cols with_cols]; rewrite length_drop; lia|apply same_lead_eq; reflexivity
         |cbn [cols with_cols]; rewrite length_zip_with, length_take, length_drop; lia].
      cbn [cols with_cols tN tC tH]. rewrite drop_drop.
      split; [reflexivity|].
      rewrite length_app, length_zip_with, length_take, !length_drop. lia.
    + unfold slice_last. cbn [cols with_cols].
      rewrite slice_inside by lia. rewrite !Nat2Z.id.
      replace (length (cols g) - d1 - d2)%nat with W by lia.
      set (G := take W (drop d1 (cols g))).
      assert (length G = W) as HG by (subst G; rewrite length_take, length_drop; lia).
      rewrite slice_suffix by lia. rewrite Nat2Z.id, HG.
      rewrite add_cols; [|exact Hr|cbn [cols with_cols]; rewrite length_drop; lia].
      cbn [mbind result_bind cols with_cols].
      rewrite assign_suffix;
        [|cbn [cols with_cols]; lia|apply same_lead_eq; reflexivity|cbn [cols with_cols]; rewrite length_zip_with, length_drop; lia].
      cbn [mbind result_bind cols with_cols tN tC tH]. rewrite HG.
      rewrite slice_prefix by lia. rewrite Nat2Z.id.
      set (G1 := take (W - d1) G ++ zip_with (zip_with eadd) (drop (W - d1) G) (cols recv_from_right)).
      assert (length G1 = W) as HG1.
      { subst G1. rewrite length_app, length_take, length_zip_with, length_drop. lia. }
      rewrite add_cols; [|exact Hl|cbn [cols with_cols]; rewrite length_take; lia].
      cbn [mbind result_bind cols with_cols].
      rewrite assign_prefix;
        [|cbn [cols with_cols]; lia|apply same_lead_eq; reflexivity|cbn [cols with_cols]; rewrite length_zip_with, length_take; lia].
      cbn [cols with_cols tN tC tH].
      assert (take d2 G1 = take d2 (drop d1 (cols g))) as ->.
      { subst G1 G. rewrite take_app_le by (rewrite length_take, length_take, length_drop; lia).
        rewrite !take_take. f_equal. lia. }
      assert (drop d2 G1 = take (W - d1 - d2) (drop (d1 + d2) (cols g))
                           ++ zip_with (zip_with eadd) (take d1 (drop W (cols g))) (cols recv_from_right)) as ->.
      { subst G1. rewrite drop_app_le by (rewrite length_take; lia). f_equal.
        - subst G. rewrite take_take. replace ((W - d1) `min` W)%nat with (W - d1)%nat by lia.
          rewrite !take_drop_commute, drop_drop. f_equal. f_equal. lia.
        - f_equal. subst G. rewrite !take_drop_commute, drop_drop.
          replace (d1 + (W - d1))%nat with W by lia. f_equal. f_equal. lia. }
      split; [reflexivity|].
      rewrite !length_app, !length_zip_with, !length_take, !length_drop. lia.
Qed.

Lemma aggregate_adds_the_overlap_at_the_edges_witness :
  aggregate Z.add 1 3 (Z.of_nat 1) (Z.of_nat 1) (row [1; 2; 3; 4; 5; 6]) (row [10]) (row [20])
  = Ok (row [12; 3; 4; 25]).
Proof.
  destruct (aggregate_adds_the_overlap_at_the_edges Z.add 1 3 4 1 1 (row [1; 2; 3; 4; 5; 6])
              (row [10]) (row [20]) ltac:(lia) ltac:(lia) ltac:(lia)
              eq_refl eq_refl eq_refl eq_refl eq_refl) as [H _].
  exact H.
Defined.

(** ** The reference convolution under the exchange *)

Lemma dot_local (w y z : list Z) :
  (length w <= length y)%nat -> dot w (y ++ z) = dot w y.
Proof.
  unfold dot. intros H. f_equal. revert y H.
  induction w as [|a w IH]; intros y H; [reflexivity|].
  destruct y as [|b y]; [cbn in H; lia|].
  cbn [app zip_with]. f_equal. apply IH. cbn in H. lia.
Qed.

Lemma correlate_local (w y z : list Z) (n : nat) :
  (n + length w <= length y + 1)%nat ->
  correlate w (y ++ z) 1 n = correlate w y 1 n.
Proof.
  intros H. unfold correlate. apply list_fmap_ext. intros i j Hj.
  apply lookup_seq in Hj as [-> Hj]. cbn [plus].
  rewrite Nat.mul_1_r. rewrite drop_app_le by lia.
  apply dot_local. rewrite length_drop. lia.
Qed.

Lemma correlate_take (w y : list Z) (m n : nat) :
  (m <= n)%nat -> take m (correlate w y 1 n) = correlate w y 1 m.
Proof.
  intros H. unfold correlate. rewrite <- fmap_take. f_equal.
  rewrite take_seq. f_equal. lia.
Qed.

Lemma correlate_drop (w y : list Z) (m n : nat) :
  drop m (correlate w y 1 n) = correlate w (drop m y) 1 (n - m).
Proof.
  unfold correlate. rewrite <- fmap_drop, drop_seq. cbn [plus].
  replace (seq m (n - m)) with ((fun j => m + j)%nat <$> seq 0 (n - m))
    by (rewrite fmap_add_seq; f_equal; lia).
  rewrite <- list_fmap_compose. apply list_fmap_ext. intros i j _. cbn.
  rewrite !Nat.mul_1_r, drop_drop. reflexivity.
Qed.

Lemma row_of_row (l : list Z) : row_of (row l) = l.
Proof.
  unfold row_of, row. cbn [cols]. rewrite <- list_fmap_compose.
  rewrite <- (list_fmap_id l) at 2. apply list_fmap_ext. reflexivity.
Qed.

Lemma slice_between {A} (a b : Z) (l : list A) :
  0 <= a <= b -> b <= Z.of_nat (length l) ->
  py_slice (Some a) (Some b) l = take (Z.to_nat (b - a)) (drop (Z.to_nat a) l).
Proof.
  intros Ha Hb. unfold py_slice, slice_bound. cbn [from_option].
  destruct (Z.ltb_spec a 0); [lia|]. destruct (Z.ltb_spec b 0); [lia|].
  rewrite !Z.min_l by lia. reflexivity.
Qed.

Lemma py_slice_fmap {A B} (f : A -> B) start stop (l : list A) :
  py_slice start stop (f <$> l) = f <$> py_slice start stop l.
Proof. unfold py_slice. rewrite length_fmap, fmap_take, fmap_drop. reflexivity. Qed.

Lemma slice_last_row start stop (l : list Z) :
  slice_last start stop (row l) = row (py_slice start stop l).
Proof. unfold slice_last, with_cols, row. cbn [tN tC tH cols]. rewrite py_slice_fmap. reflexivity. Qed.

Lemma width_row (l : list Z) : width (row l) = Z.of_nat (length l).
Proof. unfold width, row. cbn [cols]. rewrite length_fmap. reflexivity. Qed.

Lemma cat_two_rows (a b : list Z) : cat_last [row a; row b] = Ok (row (a ++ b)).
Proof.
  unfold cat_last, with_cols, row. cbn [forallb same_lead tN tC tH cols Z.eqb Pos.eqb andb].
  cbn [map concat cols]. rewrite app_nil_r, <- fmap_app. reflexivity.
Qed.

Lemma cat_three_rows (a b c : list Z) :
  cat_last [row a; row b; row c] = Ok (row (a ++ b ++ c)).
Proof.
  unfold cat_last, with_cols, row. cbn [forallb same_lead tN tC tH cols Z.eqb Pos.eqb andb].
  cbn [map concat cols]. rewrite app_nil_r, <- !fmap_app. reflexivity.
Qed.

Lemma convolution_ref_run (y w : list Z) (s0 s p : Z) (o : list Z) kw :
  op_run convolution_ref
    [ATensor (row y); ATensor (row w); ANone; AInts [s0; s]; AInts [0; p]; AInts [1; 1];
     ABool false; AInts o; AInt 1] kw
  = ATensor ∘ row <$> conv_row y w s p.
Proof.
  cbn [op_run convolution_ref].
  replace (is_row (row y) && is_row (row w)) with true by reflexivity.
  rewrite !row_of_row. reflexivity.
Qed.

Lemma conv_row_same (y w : list Z) (p : nat) :
  (0 < length y)%nat -> length w = (2 * p + 1)%nat ->
  conv_row y w 1 (Z.of_nat p)
  = Ok (correlate w (zeros (Z.of_nat p) ++ y ++ zeros (Z.of_nat p)) 1 (length y)).
Proof.
  intros Hy Hw. unfold conv_row. rewrite Hw.
  replace ((1 <=? 0) || (Z.of_nat p <? 0)) with false
    by (symmetry; apply orb_false_intro; [reflexivity|apply Z.ltb_ge; lia]).
  destruct (Z.ltb_spec (Z.of_nat (length y) + 2 * Z.of_nat p
                        - (Z.of_nat (2 * p + 1) - 1) - 1) 0) as [H|H].
  - lia.
  - rewrite Z.div_1_r. do 2 f_equal. lia.
Qed.

Lemma zeros_length (n : nat) : length (zeros (Z.of_nat n)) = n.
Proof. unfold zeros. rewrite length_replicate. lia. Qed.

(** Property X10.  With the reference convolution on rows, the exchange
    computes the convolution of the shard with what was received next to
    it.  For stride 1, a kernel of odd width [2 * p + 1] and padding [p], a
    rank that holds the row [x] and receives the rows [l] and [r] of [p]
    entries returns the row whose entry [j] is [sum_t w[t] * y[j + t]],
    where [y] is [from_left ++ x ++ from_right].  On rank 0 [from_left] is
    the [p] zeros of the padding, on every other rank it is [l];
    [from_right] is the [p] zeros of the padding on rank [size - 1] when
    that is not rank 0, and [r] on every other rank.  In a world of one
    rank the test for rank 0 comes first: [r], which that rank received
    from itself, is used, and not the zeros. *)
Theorem halo_convolution_is_the_convolution_of_the_neighbourhood
    (rank size : Z) (x w l r : list Z) (s0 : Z) (p : nat) :
  (0 < p)%nat -> length w = (2 * p + 1)%nat ->
  length l = p -> length r = p -> (p <= length x)%nat ->
  0 <= rank < size ->
  let from_left := if rank =? 0 then zeros (Z.of_nat p) else l in
  let from_right :=
    if rank =? 0 then r else if rank =? size - 1 then zeros (Z.of_nat p) else r in
  outcome (fun _ => [row l; row r])
    (tp_convolution 0 convolution_ref rank size
       (conv_args x w [s0; 1] [0; Z.of_nat p] [1; 1]) [])
  = Ok (ATensor (row (correlate w (from_left ++ x ++ from_right) 1 (length x)))).
Proof.
  intros Hp Hw Hl Hr Hx Hrank from_left from_right.
  assert (_is_supported (elem := Z) (shape (row x)) (shape (row w)) (AInts [s0; 1])
            (AInts [0; Z.of_nat p]) (AInts [1; 1]) = Ok true) as Hsupported.
  { unfold shape. rewrite is_supported_cases by lia.
    cbn [Z.eqb Pos.eqb negb]. destruct (Z.eqb_spec (Z.of_nat p) 0); [lia|]. cbn [negb].
    rewrite !width_row, Hw.
    destruct (Z.ltb_spec (Z.of_nat (length x)) (Z.of_nat (2 * p + 1) / 2)) as [H|H];
      [|reflexivity].
    exfalso. assert (Z.of_nat (2 * p + 1) / 2 = Z.of_nat p) as E
      by (Z.div_mod_to_equations; lia). lia. }
  unfold conv_args.
  rewrite (tp_convolution_takes_exchange 0) by (reflexivity || assumption || lia).
  rewrite exchange_posts by lia. cbn zeta. cbn [outcome].
  unfold tp_convolution_resume. rewrite getitem_0, getitem_1.
  cbn [mbind comm_mbind comm_bind lift outcome].
  unfold tp_convolution_local.
  assert (forall y, (0 < length y)%nat ->
            (local_tensor_args ← setitem
                 [ATensor (row x); ATensor (row w); ANone; AInts [s0; 1];
                  AInts [0; Z.of_nat p]; AInts [1; 1]; ABool false; AInts [0; 0]; AInt 1]
                 0 (ATensor (row y));
             local_results ← op_run convolution_ref local_tensor_args [];
             padding_arg ← getitem local_tensor_args 4;
             padding ← int_at padding_arg 1;
             local_results ← as_tensor local_results;
             let w' := width local_results in
             let local_results :=
               if rank =? 0 then slice_last None (Some (w' - padding)) local_results
               else if rank =? size - 1 then slice_last (Some padding) None local_results
               else slice_last (Some padding) (Some (w' - padding)) local_results in
             Ok (ATensor local_results))
            = let out := correlate w (zeros (Z.of_nat p) ++ y ++ zeros (Z.of_nat p)) 1
                           (length y) in
              let n := Z.of_nat (length out) in
              Ok (ATensor (row
                    (if rank =? 0 then py_slice None (Some (n - Z.of_nat p)) out
                     else if rank =? size - 1 then py_slice (Some (Z.of_nat p)) None out
                     else py_slice (Some (Z.of_nat p)) (Some (n - Z.of_nat p)) out))))
    as Hlocal.
  { intros y Hy.
    pose proof (py_index_nat 9 0 ltac:(lia)) as Hfirst.
    change (Z.of_nat 0) with 0 in Hfirst.
    unfold setitem. cbn [length]. rewrite Hfirst. cbn [mbind result_bind insert list_insert].
    rewrite convolution_ref_run, conv_row_same by assumption.
    cbn [fmap result_fmap mbind result_bind compose].
    rewrite (getitem_nat _ 4 (AInts [0; Z.of_nat p])) by reflexivity.
    cbn [mbind result_bind int_at]. rewrite getitem_1. cbn [mbind result_bind as_tensor].
    cbn zeta. rewrite width_row, !slice_last_row.
    destruct (rank =? 0); [reflexivity|]. destruct (rank =? size - 1); reflexivity. }
  unfold reconstruct.
  assert (forall y, length (correlate w y 1 (length x + p)) = (length x + p)%nat) as Hlen1
    by (intros; unfold correlate; rewrite length_fmap, length_seq; reflexivity).
  assert (forall y, length (correlate w y 1 (length x + (p + p))) = (length x + (p + p))%nat)
    as Hlen2 by (intros; unfold correlate; rewrite length_fmap, length_seq; reflexivity).
  subst from_left from_right.
  destruct (rank =? 0).
  - rewrite cat_two_rows. cbn [mbind result_bind]. rewrite Hlocal by (rewrite length_app; lia).
    cbn zeta. do 3 f_equal. rewrite length_app, Hr, Hlen1.
    rewrite slice_prefix by lia.
    replace (Z.to_nat (Z.of_nat (length x + p) - Z.of_nat p)) with (length x) by lia.
    rewrite correlate_take by lia.
    rewrite (app_assoc (zeros _) (x ++ r) (zeros _)).
    apply correlate_local. rewrite !length_app, zeros_length. lia.
  - destruct (rank =? size - 1).
    + rewrite cat_two_rows. cbn [mbind result_bind].
      rewrite Hlocal by (rewrite length_app; lia).
      cbn zeta. do 3 f_equal. rewrite length_app, Hl.
      rewrite slice_from by lia. rewrite Nat2Z.id, correlate_drop.
      rewrite drop_app_length' by (symmetry; apply zeros_length).
      rewrite <- app_assoc. f_equal. lia.
    + rewrite cat_three_rows. cbn [mbind result_bind].
      rewrite Hlocal by (rewrite !length_app; lia).
      cbn zeta. do 3 f_equal. rewrite !length_app, Hl, Hr.
      replace (p + (length x + p))%nat with (length x + (p + p))%nat by lia.
      rewrite Hlen2. rewrite slice_between by (rewrite ?Hlen2; lia).
      rewrite Nat2Z.id, correlate_drop.
      rewrite drop_app_length' by (symmetry; apply zeros_length).
      replace (Z.to_nat (Z.of_nat (length x + (p + p)) - Z.of_nat p - Z.of_nat p))
        with (length x) by lia.
      rewrite correlate_take by lia.
      apply correlate_local. rewrite !length_app. lia.
Qed.

Lemma halo_convolution_is_the_convolution_of_the_neighbourhood_witness :
  outcome (fun _ => [row [4]; row [9]])
    (tp_convolution 0 convolution_ref 1 3
       (conv_args [5; 6; 7; 8] [1; 10; 100] [1; 1] [0; 1] [1; 1]) [])
  = Ok (ATensor (row [654; 765; 876; 987])).
Proof.
  exact (halo_convolution_is_the_convolution_of_the_neighbourhood 1 3 [5; 6; 7; 8]
           [1; 10; 100] [4] [9] 1 1 ltac:(lia) eq_refl eq_refl eq_refl ltac:(cbn; lia)
           ltac:(lia)).
Defined.

End TPConvMore.

(** * More on the convolution rules *)

Module ConvOpsMore.
Import PyFacts Sharding ConvOps ConvOpsFacts ShardDims.

Lemma from_dim_map_partial_first (mesh : DeviceMesh) (n : nat) tm :
  (0 < mesh_ndim mesh)%nat ->
  from_dim_map mesh (replicate n (-1)) [0] tm
  = Ok {| Sharding.mesh := mesh;
          placements := _Partial :: replicate (mesh_ndim mesh - 1) Replicate;
          tensor_meta := tm |}.
Proof.
  intros Hn. rewrite from_dim_map_unsharded. cbn [foldl mbind result_bind].
  unfold setitem, py_index. rewrite length_replicate.
  destruct (mesh_ndim mesh) as [|k] eqn:E; [lia|].
  replace ((0 <=? 0) && (0 <? Z.of_nat (S k))) with true
    by (symmetry; apply andb_true_intro; split; [reflexivity | apply Z.ltb_lt; lia]).
  cbn. rewrite Nat.sub_0_r. reflexivity.
Qed.

(** Property X11.  The backward rule, whatever the placements. On a schema of
    eleven arguments whose input and weight are descriptors, the input with
    metadata, and whose bias sizes are a sequence of ints, on a mesh of at least
    one dimension, [convolution_backward_rules] resolves three descriptors: the
    gradient of the input takes the descriptor of the input as it is, sharded or
    not; the gradients of the weight and of the bias live on the mesh of the
    input and carry a pending reduction on mesh dimension 0 and Replicate on
    every other, the first with the metadata of the weight, the second with the
    bias sizes, stride [(1,)] and the dtype of the input. The descriptor of the
    gradient of the output, the placements of the weight and the hyperparameters
    play no part. *)
Theorem convolution_backward_rules_resolves (schema : OpSchema) (input weight : DTensorSpec)
    (input_meta : TensorMeta) (bias_size : list Z)
    (grad_output bias_shape_opt stride padding dilation transposed output_padding groups
       output_mask : value) :
  args_schema schema = [grad_output; VSpec input; VSpec weight; bias_shape_opt; stride;
                        padding; dilation; transposed; output_padding; groups; output_mask] ->
  tensor_meta input = Some input_meta ->
  to_size bias_shape_opt = Ok bias_size ->
  (0 < mesh_ndim (mesh input))%nat ->
  let pending := _Partial :: replicate (mesh_ndim (mesh input) - 1) Replicate in
  convolution_backward_rules schema
  = Ok (new_OutputSharding
          (VList [VSpec input;
                  VSpec {| mesh := mesh input; placements := pending;
                           tensor_meta := tensor_meta weight |};
                  VSpec {| mesh := mesh input; placements := pending;
                           tensor_meta := Some {| tm_shape := bias_size;
                                                  tm_stride := [1];
                                                  tm_dtype := tm_dtype input_meta |} |}])).
Proof.
  intros Hargs Hm Hb Hn pending.
  unfold convolution_backward_rules. rewrite Hargs, getitem_0.
  cbn [mbind result_bind as_spec fmap result_fmap]. rewrite Hb. cbn [mbind result_bind].
  unfold meta_of. rewrite Hm. cbn [fmap result_fmap mbind result_bind].
  rewrite (from_dim_map_partial_first _ 4) by exact Hn. cbn [mbind result_bind].
  rewrite (from_dim_map_partial_first _ 1) by exact Hn. reflexivity.
Qed.

Lemma convolution_backward_rules_resolves_witness :
  resolved <$> convolution_backward_rules (convolution_backward_call [Shard 3])
  = Ok [VSpec (descriptor [Shard 3] 2 3 8 8);
        VSpec {| mesh := mesh_of_two; placements := [_Partial];
                 tensor_meta := tensor_meta (descriptor [Replicate] 16 3 3 3) |};
        VSpec {| mesh := mesh_of_two; placements := [_Partial];
                 tensor_meta := Some {| tm_shape := [16]; tm_stride := [1];
                                        tm_dtype := float32 |} |}].
Proof.
  rewrite (convolution_backward_rules_resolves (convolution_backward_call [Shard 3])
             (descriptor [Shard 3] 2 3 8 8) (descriptor [Replicate] 16 3 3 3)
             {| tm_shape := [2; 3; 8; 8]; tm_stride := [3 * 8 * 8; 8 * 8; 8; 1];
                tm_dtype := float32 |} [16]
             (VSpec (descriptor [Shard 3] 2 16 8 8)) (VList [VInt 16]) (pair_of 1 1)
             (pair_of 1 1) (pair_of 1 1) (VBool false) (pair_of 0 0) (VInt 1)
             (VList [VBool true; VBool true; VBool true])
             eq_refl eq_refl eq_refl ltac:(cbn; lia)).
  reflexivity.
Defined.

(** Property X12.  The rules unpack their arguments. [convolution_rules] raises
    ValueError on a schema that has not exactly nine positional arguments.
    [convolution_backward_rules] reads the first argument before it unpacks: on
    a schema without positional arguments it raises IndexError, on one with some
    but not eleven it raises ValueError. *)
Theorem rules_unpack_their_arguments (schema : OpSchema) :
  (length (args_schema schema) ≠ 9%nat -> convolution_rules schema = Raise ValueError)
  ∧ (args_schema schema = [] -> convolution_backward_rules schema = Raise IndexError)
  ∧ (args_schema schema ≠ [] -> length (args_schema schema) ≠ 11%nat ->
     convolution_backward_rules schema = Raise ValueError).
Proof.
  unfold convolution_rules, convolution_backward_rules.
  destruct (args_schema schema) as [|a0 l]; repeat split; try reflexivity; try congruence.
  - do 8 (destruct l as [|? l]; [reflexivity|]). destruct l; [cbn; congruence|reflexivity].
  - intros _ H. rewrite getitem_0. cbn [mbind result_bind].
    do 10 (destruct l as [|? l]; [reflexivity|]). destruct l; [cbn in H; congruence|reflexivity].
Qed.

Lemma rules_unpack_their_arguments_witness :
  convolution_rules (convolution_backward_call [Replicate]) = Raise ValueError
  ∧ convolution_backward_rules (convolution_call [Replicate] 8 8 3 1 1 1) = Raise ValueError.
Proof.
  destruct (rules_unpack_their_arguments (convolution_backward_call [Replicate])) as [H _].
  destruct (rules_unpack_their_arguments (convolution_call [Replicate] 8 8 3 1 1 1))
    as (_ & _ & H').
  split; [apply H; cbn; lia | apply H'; cbn; [discriminate | lia]].
Defined.

(** Property X13.  A zero stride is not caught. On a schema that is otherwise as
    [convolution_rules] expects it, a stride of 0 along the height or along the
    width makes the rule raise ZeroDivisionError, from the floor division of the
    output-size formula. *)
Theorem convolution_rules_zero_stride (schema : OpSchema) (input weight : DTensorSpec)
    (input_meta weight_meta : TensorMeta)
    (bias stride padding dilation transposed output_padding groups : value)
    (N C_in H_in W_in C_out C_k kH kW s0 s1 p0 p1 d0 d1 : Z) :
  args_schema schema = [VSpec input; VSpec weight; bias; stride; padding; dilation;
                        transposed; output_padding; groups] ->
  tensor_meta input = Some input_meta -> tm_shape input_meta = [N; C_in; H_in; W_in] ->
  tensor_meta weight = Some weight_meta -> tm_shape weight_meta = [C_out; C_k; kH; kW] ->
  int_item stride 0 = Ok s0 -> int_item stride 1 = Ok s1 ->
  int_item padding 0 = Ok p0 -> int_item padding 1 = Ok p1 ->
  int_item dilation 0 = Ok d0 -> int_item dilation 1 = Ok d1 ->
  s0 = 0 ∨ s1 = 0 ->
  convolution_rules schema = Raise ZeroDivisionError.
Proof.
  intros Hargs Hmi Hsi Hmw Hsw Hs0 Hs1 Hp0 Hp1 Hd0 Hd1 Hzero.
  unfold convolution_rules. rewrite Hargs. cbn [as_spec mbind result_bind].
  unfold meta_of. rewrite Hmi, Hmw. cbn [fmap result_fmap mbind result_bind].
  rewrite Hsi, Hsw, !getitem_0, !getitem_1, !getitem_2, !getitem_3.
  cbn [mbind result_bind].
  rewrite Hp0, Hd0, Hs0. cbn [mbind result_bind].
  destruct (Z.eq_dec s0 0) as [->|Hn0]; [reflexivity|].
  rewrite floordiv_nonzero by assumption. cbn [mbind result_bind].
  rewrite Hp1, Hd1, Hs1. cbn [mbind result_bind].
  destruct Hzero as [?| ->]; [contradiction|]. reflexivity.
Qed.

Lemma convolution_rules_zero_stride_witness :
  convolution_rules (convolution_call [Shard 3] 8 8 3 0 1 1) = Raise ZeroDivisionError.
Proof.
  exact (convolution_rules_zero_stride (convolution_call [Shard 3] 8 8 3 0 1 1)
           (descriptor [Shard 3] 2 3 8 8) (descriptor [Replicate] 16 3 3 3)
           {| tm_shape := [2; 3; 8; 8]; tm_stride := [3 * 8 * 8; 8 * 8; 8; 1];
              tm_dtype := float32 |}
           {| tm_shape := [16; 3; 3; 3]; tm_stride := [3 * 3 * 3; 3 * 3; 3; 1];
              tm_dtype := float32 |}
           VNone (pair_of 0 0) (pair_of 1 1) (pair_of 1 1) (VBool false) (pair_of 0 0)
           (VInt 1) 2 3 8 8 16 3 3 3 0 0 1 1 1 1
           eq_refl eq_refl eq_refl eq_refl eq_refl eq_refl eq_refl eq_refl eq_refl
           eq_refl eq_refl (or_introl eq_refl)).
Defined.

(** Property X14.  The forward rule looks at the shape of the weight and at
    nothing else of it. Two schemas with the same input descriptor, stride,
    padding and dilation, and weights of the same shape, get the same answer
    from [convolution_rules], whatever the placements and the mesh of the
    weights, the bias, [transposed], [output_padding] and [groups]: a sharded
    weight is treated as a replicated one. *)
Theorem convolution_rules_ignores_the_weight_placement (schema schema' : OpSchema)
    (input weight weight' : DTensorSpec)
    (bias bias' stride padding dilation transposed transposed' output_padding
       output_padding' groups groups' : value) :
  args_schema schema = [VSpec input; VSpec weight; bias; stride; padding; dilation;
                        transposed; output_padding; groups] ->
  args_schema schema' = [VSpec input; VSpec weight'; bias'; stride; padding; dilation;
                         transposed'; output_padding'; groups'] ->
  tm_shape <$> tensor_meta weight' = tm_shape <$> tensor_meta weight ->
  convolution_rules schema' = convolution_rules schema.
Proof.
  intros Hargs Hargs' Hshape.
  unfold convolution_rules. rewrite Hargs, Hargs'. cbn [as_spec mbind result_bind].
  assert (tm_shape <$> meta_of weight' = tm_shape <$> meta_of weight) as ->; [|reflexivity].
  unfold meta_of. destruct (tensor_meta weight'), (tensor_meta weight);
    cbn in Hshape |- *; congruence.
Qed.

Lemma convolution_rules_ignores_the_weight_placement_witness :
  convolution_rules
    {| func_schema := convolution_schema;
       args_schema := [VSpec (descriptor [Shard 3] 2 3 8 8);
                       VSpec (descriptor [Shard 0] 16 3 3 3);
                       VSpec (descriptor [Shard 0] 16 1 1 1);
                       pair_of 1 1; pair_of 1 1; pair_of 1 1; VBool true; pair_of 1 1; VInt 3];
       kwargs_schema := []; is_inplace := false; is_out_variant := false |}
  = convolution_rules (convolution_call [Shard 3] 8 8 3 1 1 1).
Proof.
  apply (convolution_rules_ignores_the_weight_placement
           (convolution_call [Shard 3] 8 8 3 1 1 1)
           {| func_schema := convolution_schema;
              args_schema := [VSpec (descriptor [Shard 3] 2 3 8 8);
                              VSpec (descriptor [Shard 0] 16 3 3 3);
                              VSpec (descriptor [Shard 0] 16 1 1 1);
                              pair_of 1 1; pair_of 1 1; pair_of 1 1; VBool true;
                              pair_of 1 1; VInt 3];
              kwargs_schema := []; is_inplace := false; is_out_variant := false |}
           (descriptor [Shard 3] 2 3 8 8) (descriptor [Replicate] 16 3 3 3)
           (descriptor [Shard 0] 16 3 3 3) VNone (VSpec (descriptor [Shard 0] 16 1 1 1))
           (pair_of 1 1) (pair_of 1 1) (pair_of 1 1) (VBool false) (VBool true)
           (pair_of 0 0) (pair_of 1 1) (VInt 1) (VInt 3) eq_refl eq_refl eq_refl).
Defined.

(** ** The placements of the output *)

Lemma shards_elem (Q : list Placement) i d :
  Q !! i = Some (Shard d) ->
  d ∈ omap (fun p => match p with Shard d => Some d | _ => None end) Q.
Proof.
  intros H. apply (list_elem_of_omap _ Q d). exists (Shard d).
  split; [eapply list_elem_of_lookup_2; exact H|reflexivity].
Qed.

Lemma shards_once (Q : list Placement) i i' d :
  NoDup (omap (fun p => match p with Shard d => Some d | _ => None end) Q) ->
  Q !! i = Some (Shard d) -> Q !! i' = Some (Shard d) -> i = i'.
Proof.
  revert i i'. induction Q as [|p Q IH]; intros i i' Hnd Hi Hi'; [discriminate|].
  assert (NoDup (omap (fun p => match p with Shard d => Some d | _ => None end) Q)) as Hnd'.
  { cbn [omap] in Hnd. destruct p; cbn in Hnd;
      [apply NoDup_cons in Hnd as [_ Hnd]|..]; exact Hnd. }
  destruct i as [|i], i' as [|i']; cbn in Hi, Hi'.
  - reflexivity.
  - injection Hi as ->. cbn in Hnd.
    apply NoDup_cons in Hnd as [Hnot _]. exfalso. apply Hnot. eapply shards_elem. exact Hi'.
  - injection Hi' as ->. cbn in Hnd.
    apply NoDup_cons in Hnd as [Hnot _]. exfalso. apply Hnot. eapply shards_elem. exact Hi.
  - f_equal. apply IH; assumption.
Qed.

Lemma py_index_nonneg (len d : Z) :
  0 <= d < len -> py_index len d = Some (Z.to_nat d).
Proof.
  intros H. unfold py_index.
  destruct (Z.leb_spec 0 d); [|lia]. destruct (Z.ltb_spec d len); [|lia]. reflexivity.
Qed.

Lemma dim_map_fold_exact (n : nat) (P : list Placement) :
  Forall (fun d => 0 <= d < Z.of_nat n)
         (omap (fun p => match p with Shard d => Some d | _ => None end) P) ->
  NoDup (omap (fun p => match p with Shard d => Some d | _ => None end) P) ->
  exists r,
    foldl (fun acc '(i, p) =>
             r ← acc;
             match p with
             | Shard d => setitem r d (Z.of_nat i)
             | _ => Ok r
             end) (Ok (replicate n (-1))) (imap pair P) = Ok r
    ∧ length r = n
    ∧ (forall i d, P !! i = Some (Shard d) -> r !! Z.to_nat d = Some (Z.of_nat i))
    ∧ (forall j m, r !! j = Some m ->
         m = -1 ∨ exists i, m = Z.of_nat i ∧ P !! i = Some (Shard (Z.of_nat j))).
Proof.
  induction P as [|p P IH] using rev_ind; intros Hrange Honce.
  - exists (replicate n (-1)). split; [reflexivity|]. split; [apply length_replicate|].
    split; [discriminate|]. intros j m [-> _]%lookup_replicate. left. reflexivity.
  - rewrite omap_app in Hrange, Honce.
    apply Forall_app in Hrange as [Hrange Hp].
    apply NoDup_app in Honce as (Honce & Hfresh & _).
    destruct (IH Hrange Honce) as (r & Hr & Hlen & Ha & Hb).
    rewrite imap_app, foldl_app, Hr. cbn [imap foldl mbind result_bind].
    assert (forall j m,
              (m = -1 ∨ exists i, m = Z.of_nat i ∧ P !! i = Some (Shard (Z.of_nat j))) ->
              m = -1 ∨ exists i, m = Z.of_nat i ∧ (P ++ [p]) !! i = Some (Shard (Z.of_nat j)))
      as Hweak.
    { intros j m [->|(i & -> & Hi)]; [left; reflexivity|].
      right. exists i. split; [reflexivity|]. apply lookup_app_l_Some. exact Hi. }
    assert (forall i d, (P ++ [p]) !! i = Some (Shard d) ->
              P !! i = Some (Shard d) ∨ (i = length P ∧ p = Shard d)) as Hsplit.
    { intros i d Hi. apply lookup_app_Some in Hi as [Hi|[Hge Hi]]; [left; exact Hi|].
      right. destruct (i - length P)%nat as [|k] eqn:E; [|destruct k; discriminate Hi].
      injection Hi as ->. split; [lia|reflexivity]. }
    destruct p as [d| |].
    + cbn [omap] in Hp, Hfresh. apply Forall_cons in Hp as [Hd _].
      unfold setitem. rewrite Hlen, (py_index_nonneg _ _ Hd).
      replace (length P + 0)%nat with (length P) by lia.
      eexists. split; [reflexivity|]. split; [rewrite length_insert; exact Hlen|]. split.
      * intros i d' Hi. destruct (Hsplit _ _ Hi) as [Hi'|[-> [= <-]]].
        -- assert (d' ≠ d) as Hne.
           { intros ->. apply (Hfresh d); [|apply list_elem_of_here].
             apply (list_elem_of_omap _ P d). exists (Shard d).
             split; [eapply list_elem_of_lookup_2; exact Hi'|reflexivity]. }
           assert (0 <= d' < Z.of_nat n) as Hd'.
           { rewrite Forall_forall in Hrange. apply Hrange.
             apply (list_elem_of_omap _ P d'). exists (Shard d').
             split; [eapply list_elem_of_lookup_2; exact Hi'|reflexivity]. }
           rewrite list_lookup_insert_ne by lia. apply Ha, Hi'.
        -- apply list_lookup_insert_eq. lia.
      * intros j m Hj. destruct (decide (j = Z.to_nat d)) as [->|Hne].
        -- rewrite list_lookup_insert_eq in Hj by lia. injection Hj as <-.
           right. exists (length P). split; [reflexivity|].
           rewrite lookup_app_r by lia. rewrite Nat.sub_diag, Z2Nat.id by lia. reflexivity.
        -- rewrite list_lookup_insert_ne in Hj by congruence. apply Hweak, Hb, Hj.
    + exists r. split; [reflexivity|]. split; [exact Hlen|]. split.
      * intros i d Hi. destruct (Hsplit _ _ Hi) as [Hi'|[_ [=]]]. apply Ha, Hi'.
      * intros j m Hj. apply Hweak, Hb, Hj.
    + exists r. split; [reflexivity|]. split; [exact Hlen|]. split.
      * intros i d Hi. destruct (Hsplit _ _ Hi) as [Hi'|[_ [=]]]. apply Ha, Hi'.
      * intros j m Hj. apply Hweak, Hb, Hj.
Qed.

Lemma sums_fold_exact (P pl : list Placement) :
  (length P <= length pl)%nat ->
  exists pl',
    foldl (fun acc s => pl ← acc; setitem pl s _Partial) (Ok pl)
      (omap (fun '(i, p) => if is_partial p then Some (Z.of_nat i) else None) (imap pair P))
      = Ok pl'
    ∧ length pl' = length pl
    ∧ forall i, pl' !! i = match P !! i with
                           | Some _Partial => Some _Partial
                           | _ => pl !! i
                           end.
Proof.
  induction P as [|p P IH] using rev_ind; intros Hlen.
  - exists pl. split; [reflexivity|]. split; [reflexivity|]. intros i. reflexivity.
  - rewrite length_app in Hlen. cbn in Hlen.
    destruct IH as (pl' & Hpl' & Hlen' & Hinv); [lia|].
    rewrite imap_app, omap_app, foldl_app, Hpl'. cbn [imap omap].
    assert (forall i, i ≠ length P -> (P ++ [p]) !! i = P !! i) as Hother.
    { intros i Hi. destruct (decide (i < length P)%nat).
      - rewrite lookup_app_l by lia. reflexivity.
      - rewrite !lookup_ge_None_2 by (rewrite ?length_app; cbn; lia). reflexivity. }
    assert ((P ++ [p]) !! length P = Some p) as Hlast
      by (rewrite lookup_app_r, Nat.sub_diag by lia; reflexivity).
    assert (P !! length P = None) as Hnone by (apply lookup_ge_None_2; lia).
    destruct p; cbn.
    + exists pl'. split; [reflexivity|]. split; [exact Hlen'|]. intros i.
      destruct (decide (i = length P)) as [->|Hne]; [|rewrite Hother by exact Hne; apply Hinv].
      rewrite Hinv, Hlast, Hnone. reflexivity.
    + exists pl'. split; [reflexivity|]. split; [exact Hlen'|]. intros i.
      destruct (decide (i = length P)) as [->|Hne]; [|rewrite Hother by exact Hne; apply Hinv].
      rewrite Hinv, Hlast, Hnone. reflexivity.
    + unfold setitem. rewrite py_index_nat by lia.
      replace (length P + 0)%nat with (length P) by lia.
      eexists. split; [reflexivity|]. split; [rewrite length_insert; exact Hlen'|].
      intros i. destruct (decide (i = length P)) as [->|Hne].
      * rewrite list_lookup_insert_eq by lia. rewrite Hlast. reflexivity.
      * rewrite list_lookup_insert_ne by congruence. rewrite Hother by exact Hne. apply Hinv.
Qed.

Lemma shard_fold_exact (ms : list (nat * Z)) (pl : list Placement) :
  (forall k i m, ms !! k = Some (i, m) -> 0 <= m -> pl !! Z.to_nat m = Some Replicate) ->
  (forall k k' i i' m, ms !! k = Some (i, m) -> ms !! k' = Some (i', m) -> 0 <= m -> k = k') ->
  exists pl',
    foldl (fun acc '(i, m) =>
             pl ← acc;
             if 0 <=? m then
               placement ← getitem pl m;
               match placement with
               | Shard _ => Raise (RuntimeError "DeviceMesh dimension cann't be mapped to two dimension of the same tensor")
               | _Partial => Raise (RuntimeError "DeviceMesh dimension cannot be both shard and partial!")
               | Replicate => setitem pl m (Shard (Z.of_nat i))
               end
             else Ok pl) (Ok pl) ms = Ok pl'
    ∧ length pl' = length pl
    ∧ (forall k i m, ms !! k = Some (i, m) -> 0 <= m ->
         pl' !! Z.to_nat m = Some (Shard (Z.of_nat i)))
    ∧ (forall x, (forall k i m, ms !! k = Some (i, m) -> 0 <= m -> Z.to_nat m ≠ x) ->
         pl' !! x = pl !! x).
Proof.
  revert pl. induction ms as [|[i m] ms IH]; intros pl Hrep Hdup.
  - exists pl. split; [reflexivity|]. split; [reflexivity|]. split; [discriminate|].
    reflexivity.
  - cbn [foldl mbind result_bind]. destruct (Z.leb_spec 0 m) as [Hm|Hm].
    + pose proof (Hrep 0%nat i m eq_refl Hm) as Hpl.
      assert (py_index (Z.of_nat (length pl)) m = Some (Z.to_nat m)) as Hidx.
      { apply lookup_lt_Some in Hpl. apply py_index_nonneg. lia. }
      unfold getitem, setitem. rewrite Hidx, Hpl. cbn [mbind result_bind].
      assert (forall k i' m', ms !! k = Some (i', m') -> 0 <= m' -> m' ≠ m) as Hne.
      { intros k i' m' Hk Hm' ->.
        pose proof (Hdup 0%nat (S k) i i' m eq_refl Hk Hm). discriminate. }
      destruct (IH (<[Z.to_nat m := Shard (Z.of_nat i)]> pl)) as (pl' & Hpl' & Hlen & Hc & Hd).
      * intros k i' m' Hk Hm'.
        rewrite list_lookup_insert_ne by (pose proof (Hne k i' m' Hk Hm'); lia).
        apply (Hrep (S k) i' m' Hk Hm').
      * intros k k' i1 i2 m' Hk Hk' Hm'.
        pose proof (Hdup (S k) (S k') i1 i2 m' Hk Hk' Hm'). lia.
      * exists pl'. split; [exact Hpl'|]. split; [rewrite Hlen; apply length_insert|]. split.
        -- intros [|k] i' m' Hk Hm'.
           ++ injection Hk as <- <-. rewrite Hd.
              ** apply list_lookup_insert_eq. eapply lookup_lt_Some. exact Hpl.
              ** intros k' i2 m2 Hk2 Hm2. pose proof (Hne k' i2 m2 Hk2 Hm2). lia.
           ++ apply (Hc k i' m' Hk Hm').
        -- intros x Hx. rewrite Hd by (intros k i' m' Hk; apply (Hx (S k) i' m' Hk)).
           apply list_lookup_insert_ne. apply (Hx 0%nat i m eq_refl Hm).
    + destruct (IH pl) as (pl' & Hpl' & Hlen & Hc & Hd).
      * intros k i' m' Hk Hm'. apply (Hrep (S k) i' m' Hk Hm').
      * intros k k' i1 i2 m' Hk Hk' Hm'.
        pose proof (Hdup (S k) (S k') i1 i2 m' Hk Hk' Hm'). lia.
      * exists pl'. split; [exact Hpl'|]. split; [exact Hlen|]. split.
        -- intros [|k] i' m' Hk Hm'; [injection Hk as <- <-; lia|].
           apply (Hc k i' m' Hk Hm').
        -- intros x Hx. apply Hd. intros k i' m' Hk. apply (Hx (S k) i' m' Hk).
Qed.

Lemma from_dim_map_of_dim_map (s : DTensorSpec) (m : TensorMeta) tm :
  tensor_meta s = Some m ->
  length (placements s) = mesh_ndim (mesh s) ->
  Forall (fun d => 0 <= d < Z.of_nat (length (tm_shape m))) (shard_dims s) ->
  NoDup (shard_dims s) ->
  exists dm,
    dim_map s = Ok dm
    ∧ from_dim_map (mesh s) dm (sums s) tm
      = Ok {| mesh := mesh s; placements := placements s; tensor_meta := tm |}.
Proof.
  intros Hm Hlen Hrange Honce. unfold shard_dims in *.
  destruct (dim_map_fold_exact (length (tm_shape m)) (placements s) Hrange Honce)
    as (r & Hr & Hrlen & Ha & Hb).
  exists r. unfold dim_map. rewrite Hm. cbn [mbind result_bind]. split; [exact Hr|].
  unfold from_dim_map, sums.
  destruct (sums_fold_exact (placements s) (replicate (mesh_ndim (mesh s)) Replicate))
    as (pl1 & Hpl1 & Hlen1 & Hinv1).
  { rewrite length_replicate. lia. }
  rewrite Hpl1. cbn [mbind result_bind]. rewrite length_replicate in Hlen1.
  assert (forall k i z, imap pair r !! k = Some (i, z) -> 0 <= z ->
            i = k ∧ exists i', z = Z.of_nat i'
                               ∧ placements s !! i' = Some (Shard (Z.of_nat k))) as Hms.
  { intros k i z Hk Hz. rewrite list_lookup_imap in Hk.
    destruct (r !! k) as [z'|] eqn:Hrk; [|discriminate]. injection Hk as <- <-.
    split; [reflexivity|]. destruct (Hb _ _ Hrk) as [->|(i' & -> & Hi')]; [lia|]. eauto. }
  destruct (shard_fold_exact (imap pair r) pl1) as (pl2 & Hpl2 & Hlen2 & Hc & Hd).
  - intros k i z Hk Hz. destruct (Hms _ _ _ Hk Hz) as (-> & i' & -> & Hi').
    rewrite Nat2Z.id, Hinv1, Hi'. apply lookup_replicate. split; [reflexivity|].
    apply lookup_lt_Some in Hi'. lia.
  - intros k k' i i' z Hk Hk' Hz.
    destruct (Hms _ _ _ Hk Hz) as (-> & i1 & -> & Hi1).
    destruct (Hms _ _ _ Hk' Hz) as (-> & i2 & Heq & Hi2).
    apply Nat2Z.inj in Heq as <-. rewrite Hi1 in Hi2. injection Hi2 as Heq. lia.
  - rewrite Hpl2. cbn [mbind result_bind]. do 2 f_equal.
    apply list_eq. intros i.
    destruct (placements s !! i) as [p|] eqn:Hi.
    + destruct p as [d| |].
      * pose proof (Ha _ _ Hi) as Hrd.
        assert (0 <= d) as Hd0.
        { rewrite Forall_forall in Hrange. apply (Hrange d). eapply shards_elem. exact Hi. }
        specialize (Hc (Z.to_nat d) (Z.to_nat d) (Z.of_nat i)).
        rewrite list_lookup_imap, Hrd, Nat2Z.id, Z2Nat.id in Hc by lia.
        apply Hc; [reflexivity|lia].
      * rewrite Hd.
        -- rewrite Hinv1, Hi. apply lookup_replicate. split; [reflexivity|].
           apply lookup_lt_Some in Hi. lia.
        -- intros k j z Hk Hz Heq. destruct (Hms _ _ _ Hk Hz) as (_ & i' & -> & Hi').
           rewrite Nat2Z.id in Heq. subst i'. congruence.
      * rewrite Hd.
        -- rewrite Hinv1, Hi. reflexivity.
        -- intros k j z Hk Hz Heq. destruct (Hms _ _ _ Hk Hz) as (_ & i' & -> & Hi').
           rewrite Nat2Z.id in Heq. subst i'. congruence.
    + apply lookup_ge_None_2. apply lookup_ge_None_1 in Hi. lia.
Qed.

(** Property X15.  The output is sharded as the input is. When the input
    descriptor has one placement for each mesh dimension and its [Shard]
    placements name dimensions of the tensor, counted from the front, each at
    most once, [convolution_rules] resolves a descriptor on the mesh of the
    input with the very placements of the input, pending reductions included,
    and with the metadata of the output. *)
Theorem convolution_rules_keeps_the_placements (schema : OpSchema) (input weight : DTensorSpec)
    (input_meta weight_meta : TensorMeta)
    (bias stride padding dilation transposed output_padding groups : value)
    (N C_in H_in W_in C_out C_k kH kW s0 s1 p0 p1 d0 d1 : Z) :
  args_schema schema = [VSpec input; VSpec weight; bias; stride; padding; dilation;
                        transposed; output_padding; groups] ->
  tensor_meta input = Some input_meta -> tm_shape input_meta = [N; C_in; H_in; W_in] ->
  tensor_meta weight = Some weight_meta -> tm_shape weight_meta = [C_out; C_k; kH; kW] ->
  int_item stride 0 = Ok s0 -> int_item stride 1 = Ok s1 ->
  int_item padding 0 = Ok p0 -> int_item padding 1 = Ok p1 ->
  int_item dilation 0 = Ok d0 -> int_item dilation 1 = Ok d1 ->
  s0 ≠ 0 -> s1 ≠ 0 ->
  length (placements input) = mesh_ndim (mesh input) ->
  Forall (fun d => 0 <= d < 4) (shard_dims input) ->
  NoDup (shard_dims input) ->
  let H_out := (H_in + 2 * p0 - d0 * (kH - 1) - 1) / s0 + 1 in
  let W_out := (W_in + 2 * p1 - d1 * (kW - 1) - 1) / s1 + 1 in
  convolution_rules schema
  = Ok (new_OutputSharding
          (VSpec {| mesh := mesh input;
                    placements := placements input;
                    tensor_meta :=
                      Some {| tm_shape := [N; C_out; H_out; W_out];
                              tm_stride := [C_out * H_out * W_out; H_out * W_out; W_out; 1];
                              tm_dtype := tm_dtype input_meta |} |})).
Proof.
  intros Hargs Hmi Hsi Hmw Hsw Hs0 Hs1 Hp0 Hp1 Hd0 Hd1 Hn0 Hn1 Hlen Hrange Honce H_out W_out.
  unfold convolution_rules. rewrite Hargs. cbn [as_spec mbind result_bind].
  unfold meta_of. rewrite Hmi, Hmw. cbn [fmap result_fmap mbind result_bind].
  rewrite Hsi, Hsw, !getitem_0, !getitem_1, !getitem_2, !getitem_3.
  cbn [mbind result_bind].
  rewrite Hp0, Hd0, Hs0. cbn [mbind result_bind].
  rewrite floordiv_nonzero by assumption. cbn [mbind result_bind].
  rewrite Hp1, Hd1, Hs1. cbn [mbind result_bind].
  rewrite floordiv_nonzero by assumption. cbn [mbind result_bind].
  fold H_out W_out.
  edestruct (from_dim_map_of_dim_map input input_meta) as (dm & Hdm & Hspec);
    [exact Hmi | exact Hlen | rewrite Hsi; exact Hrange | exact Honce |].
  rewrite Hdm. cbn [mbind result_bind]. rewrite Hspec. reflexivity.
Qed.

Lemma convolution_rules_keeps_the_placements_witness :
  resolved <$> convolution_rules (convolution_call [Shard 3] 8 8 3 1 1 1)
  = Ok [VSpec {| mesh := mesh_of_two;
                 placements := [Shard 3];
                 tensor_meta := Some {| tm_shape := [2; 16; 8; 8];
                                        tm_stride := [16 * 8 * 8; 8 * 8; 8; 1];
                                        tm_dtype := float32 |} |}].
Proof.
  rewrite (convolution_rules_keeps_the_placements (convolution_call [Shard 3] 8 8 3 1 1 1)
             (descriptor [Shard 3] 2 3 8 8) (descriptor [Replicate] 16 3 3 3)
             {| tm_shape := [2; 3; 8; 8]; tm_stride := [3 * 8 * 8; 8 * 8; 8; 1];
                tm_dtype := float32 |}
             {| tm_shape := [16; 3; 3; 3]; tm_stride := [3 * 3 * 3; 3 * 3; 3; 1];
                tm_dtype := float32 |}
             VNone (pair_of 1 1) (pair_of 1 1) (pair_of 1 1) (VBool false) (pair_of 0 0)
             (VInt 1) 2 3 8 8 16 3 3 3 1 1 1 1 1 1
             eq_refl eq_refl eq_refl eq_refl eq_refl eq_refl eq_refl eq_refl eq_refl
             eq_refl eq_refl ltac:(lia) ltac:(lia) eq_refl
             ltac:(repeat constructor; lia) ltac:(apply NoDup_singleton)).
  reflexivity.
Defined.

End ConvOpsMore.

(** * More on operator dispatch *)

Module DispatchMore.
Import PyFacts Sharding Dispatch DispatchViews DispatchFacts.

(** ** Trees, flattened and rebuilt *)

Lemma tree_flatten_VList vs :
  tree_flatten (VList vs) = ((flatten_list vs).1, ListSpec (flatten_list vs).2).
Proof. reflexivity. Qed.

Lemma tree_flatten_VTuple vs :
  tree_flatten (VTuple vs) = ((flatten_list vs).1, TupleSpec (flatten_list vs).2).
Proof. reflexivity. Qed.

Lemma tree_flatten_VDict kvs :
  tree_flatten (VDict kvs) = ((flatten_items kvs).1, DictSpec kvs.*1 (flatten_items kvs).2).
Proof. reflexivity. Qed.

Lemma flatten_list_cons x xs :
  flatten_list (x :: xs)
  = ((tree_flatten x).1 ++ (flatten_list xs).1, (tree_flatten x).2 :: (flatten_list xs).2).
Proof.
  cbn [flatten_list]. destruct (tree_flatten x), (flatten_list xs). reflexivity.
Qed.

Lemma flatten_items_cons k x xs :
  flatten_items ((k, x) :: xs)
  = ((tree_flatten x).1 ++ (flatten_items xs).1, (tree_flatten x).2 :: (flatten_items xs).2).
Proof.
  cbn [flatten_items]. destruct (tree_flatten x), (flatten_items xs). reflexivity.
Qed.

Lemma unflatten_ListSpec cs leaves :
  unflatten_from (ListSpec cs) leaves
  = ('(vs, rest) ← unflatten_children cs leaves; Some (VList vs, rest)).
Proof. reflexivity. Qed.

Lemma unflatten_TupleSpec cs leaves :
  unflatten_from (TupleSpec cs) leaves
  = ('(vs, rest) ← unflatten_children cs leaves; Some (VTuple vs, rest)).
Proof. reflexivity. Qed.

Lemma unflatten_DictSpec keys cs leaves :
  unflatten_from (DictSpec keys cs) leaves
  = ('(vs, rest) ← unflatten_children cs leaves; Some (VDict (zip keys vs), rest)).
Proof. reflexivity. Qed.

Lemma unflatten_flatten v rest :
  unflatten_from (tree_flatten v).2 ((tree_flatten v).1 ++ rest) = Some (v, rest).
Proof.
  revert rest. induction v as [v Hv|vs IH|vs IH|kvs IH] using value_nested_ind; intros rest.
  - destruct v; try contradiction; reflexivity.
  - rewrite tree_flatten_VList. cbn [fst snd]. rewrite unflatten_ListSpec.
    assert (unflatten_children (flatten_list vs).2 ((flatten_list vs).1 ++ rest)
            = Some (vs, rest)) as ->; [|reflexivity].
    revert rest. induction IH as [|x xs Hx _ IHxs]; intros rest; [reflexivity|].
    rewrite flatten_list_cons. cbn [fst snd unflatten_children].
    rewrite <- app_assoc, Hx. cbn. rewrite IHxs. reflexivity.
  - rewrite tree_flatten_VTuple. cbn [fst snd]. rewrite unflatten_TupleSpec.
    assert (unflatten_children (flatten_list vs).2 ((flatten_list vs).1 ++ rest)
            = Some (vs, rest)) as ->; [|reflexivity].
    revert rest. induction IH as [|x xs Hx _ IHxs]; intros rest; [reflexivity|].
    rewrite flatten_list_cons. cbn [fst snd unflatten_children].
    rewrite <- app_assoc, Hx. cbn. rewrite IHxs. reflexivity.
  - rewrite tree_flatten_VDict. cbn [fst snd]. rewrite unflatten_DictSpec.
    assert (unflatten_children (flatten_items kvs).2 ((flatten_items kvs).1 ++ rest)
            = Some (kvs.*2, rest)) as ->; [|cbn; rewrite zip_fst_snd; reflexivity].
    revert rest. induction IH as [|[k x] xs Hx _ IHxs]; intros rest; [reflexivity|].
    rewrite flatten_items_cons. cbn [fst snd unflatten_children].
    rewrite <- app_assoc. cbn [snd] in Hx. rewrite Hx. cbn. rewrite IHxs. reflexivity.
Qed.

Lemma tree_unflatten_flatten v :
  tree_unflatten (tree_flatten v).1 (tree_flatten v).2 = Ok v.
Proof.
  unfold tree_unflatten. rewrite <- (app_nil_r (tree_flatten v).1).
  rewrite unflatten_flatten. reflexivity.
Qed.

(** ** [tree_map] on arguments whose wrappers are in the store *)

Section TreeMaps.
Context {world : Type}.
Local Abbreviation M := (M (world := world)).
Local Abbreviation state := (state (world := world)).
Variable s : state.
Variables (f : value -> M value) (g : value -> value).
Hypothesis Hf : forall x,
  is_leaf x = true -> live (wrappers s) x = true -> f x s = (s, Ok (g x)).

Lemma tree_map_list_pure vs :
  Forall (fun v => live (wrappers s) v = true ->
                   tree_map f v s = (s, Ok (map_leaves g v))) vs ->
  forallb (live (wrappers s)) vs = true ->
  tree_map_list f vs s = (s, Ok (map (map_leaves g) vs)).
Proof.
  induction 1 as [|x xs Hx _ IHxs]; intros Hlive; [reflexivity|].
  cbn [forallb] in Hlive. apply andb_prop in Hlive as [Hlx Hlxs].
  cbn [tree_map_list map]. unfold mbind at 1, M_bind at 1. rewrite (Hx Hlx).
  unfold mbind at 1, M_bind at 1. rewrite (IHxs Hlxs). reflexivity.
Qed.

Lemma tree_map_items_pure kvs :
  Forall (fun kv => live (wrappers s) kv.2 = true ->
                    tree_map f kv.2 s = (s, Ok (map_leaves g kv.2))) kvs ->
  forallb (fun '(_, x) => live (wrappers s) x) kvs = true ->
  tree_map_items f kvs s = (s, Ok (map (fun '(k, x) => (k, map_leaves g x)) kvs)).
Proof.
  induction 1 as [|[k x] xs Hx _ IHxs]; intros Hlive; [reflexivity|].
  cbn [forallb] in Hlive. apply andb_prop in Hlive as [Hlx Hlxs].
  cbn [snd] in Hx. cbn [tree_map_items map]. unfold mbind at 1, M_bind at 1. rewrite (Hx Hlx).
  unfold mbind at 1, M_bind at 1. rewrite (IHxs Hlxs). reflexivity.
Qed.

Lemma tree_map_pure v :
  live (wrappers s) v = true -> tree_map f v s = (s, Ok (map_leaves g v)).
Proof.
  induction v as [v Hv|vs IH|vs IH|kvs IH] using value_nested_ind; intros Hlive.
  - destruct v; try contradiction; apply Hf; try reflexivity; exact Hlive.
  - rewrite tree_map_VList. unfold mbind, M_bind.
    rewrite (tree_map_list_pure vs IH Hlive). reflexivity.
  - rewrite tree_map_VTuple. unfold mbind, M_bind.
    rewrite (tree_map_list_pure vs IH Hlive). reflexivity.
  - rewrite tree_map_VDict. unfold mbind, M_bind.
    rewrite (tree_map_items_pure kvs IH Hlive). reflexivity.
Qed.

End TreeMaps.

Section Unwrapping.
Context {world : Type}.
Local Abbreviation state := (state (world := world)).
Variable s : state.

Lemma unwrap_schema_leaf x :
  is_leaf x = true -> live (wrappers s) x = true ->
  unwrap_schema x s = (s, Ok (leaf_schema (wrappers s) x)).
Proof.
  intros _ Hlive. destruct x; try reflexivity.
  cbn [live] in Hlive. cbn [unwrap_schema leaf_schema]. unfold mbind, M_bind, read_wrapper.
  destruct (wrappers s !! l); [reflexivity|discriminate].
Qed.

Lemma unwrap_local_tensor_leaf x :
  is_leaf x = true -> live (wrappers s) x = true ->
  unwrap_local_tensor x s = (s, Ok (leaf_local (wrappers s) x)).
Proof.
  intros _ Hlive. destruct x; try reflexivity.
  cbn [live] in Hlive. cbn [unwrap_local_tensor leaf_local]. unfold mbind, M_bind, read_wrapper.
  destruct (wrappers s !! l); [reflexivity|discriminate].
Qed.

Lemma tree_map_args_schema args :
  forallb (live (wrappers s)) args = true ->
  tree_map_args unwrap_schema args s = (s, Ok (map (schema_of (wrappers s)) args)).
Proof.
  intros Hlive. unfold tree_map_args, mbind, M_bind.
  rewrite (tree_map_pure s _ _ unwrap_schema_leaf (VTuple args) Hlive). reflexivity.
Qed.

Lemma tree_map_kwargs_schema kwargs :
  forallb (fun '(_, x) => live (wrappers s) x) kwargs = true ->
  tree_map_kwargs unwrap_schema kwargs s = (s, Ok (schema_of_kwargs (wrappers s) kwargs)).
Proof.
  intros Hlive. unfold tree_map_kwargs, mbind, M_bind.
  rewrite (tree_map_pure s _ _ unwrap_schema_leaf (VDict kwargs) Hlive). reflexivity.
Qed.

Lemma tree_map_args_local args :
  forallb (live (wrappers s)) args = true ->
  tree_map_args unwrap_local_tensor args s = (s, Ok (map (local_of (wrappers s)) args)).
Proof.
  intros Hlive. unfold tree_map_args, mbind, M_bind.
  rewrite (tree_map_pure s _ _ unwrap_local_tensor_leaf (VTuple args) Hlive). reflexivity.
Qed.

Lemma tree_map_kwargs_local kwargs :
  forallb (fun '(_, x) => live (wrappers s) x) kwargs = true ->
  tree_map_kwargs unwrap_local_tensor kwargs s
  = (s, Ok (local_of_kwargs (wrappers s) kwargs)).
Proof.
  intros Hlive. unfold tree_map_kwargs, mbind, M_bind.
  rewrite (tree_map_pure s _ _ unwrap_local_tensor_leaf (VDict kwargs) Hlive). reflexivity.
Qed.

End Unwrapping.

(** ** The leaves of a tree and of its views *)

Section Leaves.
Variable h : gmap loc DTensor.
Variable g : value -> value.
Hypothesis Hg : forall x, is_leaf x = true -> live h x = true -> is_leaf (g x) = true.

Lemma flatten_leaf x : is_leaf x = true -> tree_flatten x = ([x], LeafSpec).
Proof. destruct x; try discriminate; reflexivity. Qed.

Lemma flatten_map_leaves v :
  live h v = true ->
  tree_flatten (map_leaves g v) = (g <$> (tree_flatten v).1, (tree_flatten v).2).
Proof using Hg.
  induction v as [v Hv|vs IH|vs IH|kvs IH] using value_nested_ind; intros Hlive.
  - assert (is_leaf v = true) as Hleaf by (destruct v; try contradiction; reflexivity).
    rewrite (flatten_leaf v Hleaf). cbn [fst snd fmap list_fmap].
    replace (map_leaves g v) with (g v) by (destruct v; try contradiction; reflexivity).
    apply flatten_leaf, Hg; assumption.
  - cbn [map_leaves]. rewrite !tree_flatten_VList. cbn [fst snd].
    assert (flatten_list (map (map_leaves g) vs)
            = (g <$> (flatten_list vs).1, (flatten_list vs).2)) as ->; [|reflexivity].
    cbn [live] in Hlive. induction IH as [|x xs Hx _ IHxs]; [reflexivity|].
    cbn [forallb] in Hlive. apply andb_prop in Hlive as [Hlx Hlxs].
    cbn [map]. rewrite !flatten_list_cons, (Hx Hlx), (IHxs Hlxs). cbn [fst snd].
    rewrite fmap_app. reflexivity.
  - cbn [map_leaves]. rewrite !tree_flatten_VTuple. cbn [fst snd].
    assert (flatten_list (map (map_leaves g) vs)
            = (g <$> (flatten_list vs).1, (flatten_list vs).2)) as ->; [|reflexivity].
    cbn [live] in Hlive. induction IH as [|x xs Hx _ IHxs]; [reflexivity|].
    cbn [forallb] in Hlive. apply andb_prop in Hlive as [Hlx Hlxs].
    cbn [map]. rewrite !flatten_list_cons, (Hx Hlx), (IHxs Hlxs). cbn [fst snd].
    rewrite fmap_app. reflexivity.
  - cbn [map_leaves]. rewrite !tree_flatten_VDict. cbn [fst snd].
    assert (flatten_items (map (fun '(k, x) => (k, map_leaves g x)) kvs)
            = (g <$> (flatten_items kvs).1, (flatten_items kvs).2)
            ∧ (map (fun '(k, x) => (k, map_leaves g x)) kvs).*1 = kvs.*1) as [-> ->];
      [|reflexivity].
    cbn [live] in Hlive. induction IH as [|[k x] xs Hx _ IHxs]; [split; reflexivity|].
    cbn [forallb] in Hlive. apply andb_prop in Hlive as [Hlx Hlxs].
    destruct (IHxs Hlxs) as [IH1 IH2]. cbn [snd] in Hx.
    cbn [map]. rewrite !flatten_items_cons, (Hx Hlx), IH1. cbn [fst snd fmap list_fmap].
    rewrite fmap_app. split; [reflexivity|]. f_equal. exact IH2.
Qed.

Lemma live_leaves v :
  live h v = true ->
  Forall (fun x => is_leaf x = true ∧ live h x = true) (tree_flatten v).1.
Proof.
  induction v as [v Hv|vs IH|vs IH|kvs IH] using value_nested_ind; intros Hlive.
  - assert (is_leaf v = true) as Hleaf by (destruct v; try contradiction; reflexivity).
    rewrite (flatten_leaf v Hleaf). repeat constructor; assumption.
  - rewrite tree_flatten_VList. cbn [fst live] in *.
    induction IH as [|x xs Hx _ IHxs]; [constructor|].
    cbn [forallb] in Hlive. apply andb_prop in Hlive as [Hlx Hlxs].
    rewrite flatten_list_cons. cbn [fst]. apply Forall_app. split; [apply Hx, Hlx|apply IHxs, Hlxs].
  - rewrite tree_flatten_VTuple. cbn [fst live] in *.
    induction IH as [|x xs Hx _ IHxs]; [constructor|].
    cbn [forallb] in Hlive. apply andb_prop in Hlive as [Hlx Hlxs].
    rewrite flatten_list_cons. cbn [fst]. apply Forall_app. split; [apply Hx, Hlx|apply IHxs, Hlxs].
  - rewrite tree_flatten_VDict. cbn [fst live] in *.
    induction IH as [|[k x] xs Hx _ IHxs]; [constructor|].
    cbn [forallb] in Hlive. apply andb_prop in Hlive as [Hlx Hlxs].
    rewrite flatten_items_cons. cbn [fst snd] in *.
    apply Forall_app. split; [apply Hx, Hlx|apply IHxs, Hlxs].
Qed.

End Leaves.

(** ** [pack_args_kwargs_with_local_tensor] *)

Section Packing.
Context {world : Type}.
Local Abbreviation M := (M (world := world)).
Local Abbreviation state := (state (world := world)).
Variable redistribute_dtensor :
  DTensor -> DeviceMesh -> list Placement -> world -> world * result DTensor.
Variable s : state.

Lemma pack_leaf_plain (entries : list value) (i : nat) (arg entry : value) :
  is_leaf arg = true -> live (wrappers s) arg = true -> entries !! i = Some entry ->
  pack_leaf redistribute_dtensor false entries i arg s
  = (s, Ok (<[i := packed_leaf (wrappers s) arg entry]> entries)).
Proof.
  intros Hleaf Hlive Hi.
  destruct arg; try discriminate Hleaf;
    try (cbn [pack_leaf packed_leaf]; rewrite list_insert_id by exact Hi; reflexivity).
  cbn [live] in Hlive. cbn [pack_leaf packed_leaf leaf_local].
  unfold mbind at 1, M_bind at 1, read_wrapper.
  destruct (wrappers s !! l) as [d|]; [|discriminate Hlive].
  unfold mbind, M_bind, mret, M_ret, lift, setitem.
  rewrite py_index_nat by (eapply lookup_lt_Some; exact Hi). reflexivity.
Qed.

Lemma pack_fold (leaves entries : list value) :
  Forall (fun x => is_leaf x = true ∧ live (wrappers s) x = true) leaves ->
  (length leaves <= length entries)%nat ->
  foldl (fun acc '(i, arg) =>
           schema ← acc; pack_leaf redistribute_dtensor false schema i arg)
        (mret entries) (imap pair leaves) s
  = (s, Ok (zip_with (packed_leaf (wrappers s)) leaves (take (length leaves) entries)
            ++ drop (length leaves) entries)).
Proof.
  induction leaves as [|a leaves IH] using rev_ind; intros Hlive Hlen.
  - cbn. rewrite drop_0. reflexivity.
  - apply Forall_app in Hlive as [Hlive Ha]. apply Forall_cons in Ha as [[Haleaf Halive] _].
    rewrite length_app in Hlen |- *. cbn [length] in Hlen |- *.
    rewrite imap_app, foldl_app. cbn [imap foldl].
    unfold mbind at 1, M_bind at 1. rewrite IH by (assumption || lia).
    replace (length leaves + 0)%nat with (length leaves) by lia.
    destruct (lookup_lt_is_Some_2 entries (length leaves)) as [entry Hentry]; [lia|].
    assert (length (zip_with (packed_leaf (wrappers s)) leaves (take (length leaves) entries))
            = length leaves) as Hzip.
    { rewrite length_zip_with, length_take. lia. }
    rewrite (pack_leaf_plain _ _ a entry); [|assumption|assumption|].
    + do 2 f_equal.
      rewrite insert_app_r_alt by lia. rewrite Hzip, Nat.sub_diag.
      rewrite (drop_S _ _ _ Hentry). cbn [insert list_insert].
      replace (length leaves + 1)%nat with (S (length leaves)) by lia.
      rewrite (take_S_r _ _ _ Hentry).
      rewrite zip_with_app by (rewrite length_take; lia).
      cbn [zip_with]. rewrite <- app_assoc. reflexivity.
    + rewrite lookup_app_r by lia. rewrite Hzip, Nat.sub_diag.
      rewrite (drop_S _ _ _ Hentry). reflexivity.
Qed.

Lemma pack_unfold args schema flag :
  pack_args_kwargs_with_local_tensor redistribute_dtensor args schema flag s
  = match foldl (fun acc '(i, arg) =>
                   schema ← acc; pack_leaf redistribute_dtensor flag schema i arg)
                (mret (tree_flatten schema).1) (imap pair (tree_flatten args).1) s with
    | (s', Ok flatten_args_schema) =>
        (s', tree_unflatten flatten_args_schema (tree_flatten args).2)
    | (s', Raise e) => (s', Raise e)
    end.
Proof.
  unfold pack_args_kwargs_with_local_tensor.
  destruct (tree_flatten args), (tree_flatten schema). reflexivity.
Qed.

End Packing.

Section Packed.
Context {world : Type}.
Variable redistribute_dtensor :
  DTensor -> DeviceMesh -> list Placement -> world -> world * result DTensor.
Variables (args : value) (s : state (world := world)).
Hypothesis Hlive : live (wrappers s) args = true.

Lemma pack_entries schema :
  length (tree_flatten schema).1 = length (tree_flatten args).1 ->
  pack_args_kwargs_with_local_tensor redistribute_dtensor args schema false s
  = (s, tree_unflatten
          (zip_with (packed_leaf (wrappers s)) (tree_flatten args).1 (tree_flatten schema).1)
          (tree_flatten args).2).
Proof using Hlive.
  intros Hlen. rewrite pack_unfold.
  rewrite pack_fold by (apply live_leaves, Hlive || lia).
  rewrite <- Hlen, firstn_all, drop_all, app_nil_r. reflexivity.
Qed.

Lemma pack_schema_of :
  pack_args_kwargs_with_local_tensor redistribute_dtensor args
    (schema_of (wrappers s) args) false s
  = (s, Ok (local_of (wrappers s) args)).
Proof using Hlive.
  assert (tree_flatten (schema_of (wrappers s) args)
          = (leaf_schema (wrappers s) <$> (tree_flatten args).1, (tree_flatten args).2))
    as Hschema.
  { apply (flatten_map_leaves (wrappers s)); [|exact Hlive].
    intros x Hleaf Hx. destruct x; try discriminate Hleaf; try reflexivity.
    cbn [live] in Hx. cbn [leaf_schema]. destruct (wrappers s !! l); [exact Hx|reflexivity]. }
  rewrite pack_entries by (rewrite Hschema; cbn [fst]; apply length_fmap).
  rewrite Hschema. cbn [fst].
  assert (zip_with (packed_leaf (wrappers s)) (tree_flatten args).1
            (leaf_schema (wrappers s) <$> (tree_flatten args).1)
          = leaf_local (wrappers s) <$> (tree_flatten args).1) as ->.
  { clear. generalize (tree_flatten args).1. intros leaves.
    induction leaves as [|x xs IH]; [reflexivity|].
    cbn [fmap list_fmap zip_with]. f_equal; [|exact IH]. destruct x; reflexivity. }
  assert (tree_flatten (local_of (wrappers s) args)
          = (leaf_local (wrappers s) <$> (tree_flatten args).1, (tree_flatten args).2))
    as Hlocal.
  { apply (flatten_map_leaves (wrappers s)); [|exact Hlive].
    intros x Hleaf Hx. destruct x; try discriminate Hleaf; try reflexivity.
    cbn [leaf_local]. destruct (wrappers s !! l); reflexivity. }
  pose proof (tree_unflatten_flatten (local_of (wrappers s) args)) as Hround.
  rewrite Hlocal in Hround. cbn [fst snd] in Hround. rewrite Hround. reflexivity.
Qed.

End Packed.

(** Property X16.  Without redistribution, [pack_args_kwargs_with_local_tensor]
    rebuilds the tree of the arguments from the leaves of the schema, with the
    local tensor at every place where the arguments hold a distributed tensor:
    every other leaf is the one of the schema, which is how an entry that a
    sharding rule rewrote reaches the local operator. The state is left as it
    was. On the schema that [unwrap_schema] makes of the arguments, the result
    is the arguments with every distributed tensor replaced by its local tensor. *)
Theorem pack_takes_local_tensors_and_schema_entries {world : Type}
    (redistribute_dtensor :
       DTensor -> DeviceMesh -> list Placement -> world -> world * result DTensor)
    (args schema : value) (s : state (world := world)) :
  live (wrappers s) args = true ->
  let leaves := (tree_flatten args).1 in
  let entries := (tree_flatten schema).1 in
  (length entries = length leaves ->
   pack_args_kwargs_with_local_tensor redistribute_dtensor args schema false s
   = (s, tree_unflatten (zip_with (packed_leaf (wrappers s)) leaves entries)
           (tree_flatten args).2))
  ∧ pack_args_kwargs_with_local_tensor redistribute_dtensor args
      (schema_of (wrappers s) args) false s
    = (s, Ok (local_of (wrappers s) args)).
Proof.
  intros Hlive leaves entries. split.
  - apply pack_entries. exact Hlive.
  - apply pack_schema_of. exact Hlive.
Qed.

Lemma pack_takes_local_tensors_and_schema_entries_witness :
  pack_args_kwargs_with_local_tensor redistribute_nothing
    (VTuple [VDTensor 0%nat; VList [VDTensor 2%nat; VInt 7]; VInt 3])
    (VTuple [sharded; VList [replicated; VInt 8]; VInt 4]) false three_wrappers
  = (three_wrappers, Ok (VTuple [VTensor 10%nat; VList [VTensor 12%nat; VInt 8]; VInt 4])).
Proof.
  destruct (pack_takes_local_tensors_and_schema_entries redistribute_nothing
              (VTuple [VDTensor 0%nat; VList [VDTensor 2%nat; VInt 7]; VInt 3])
              (VTuple [sharded; VList [replicated; VInt 8]; VInt 4]) three_wrappers
              eq_refl) as [H _].
  rewrite H by reflexivity. reflexivity.
Defined.

(** ** The regular path of [operator_dispatch] *)

Lemma last_char_none (name : string) : last_char name = None <-> name = "".
Proof.
  split; [|intros ->; reflexivity].
  induction name as [|c [|c' rest] IH]; [reflexivity|discriminate|].
  intros H. cbn [last_char] in H, IH. discriminate (IH H).
Qed.

Lemma new_OpSchema_fields fs a k sch :
  new_OpSchema fs a k = Ok sch ->
  func_schema sch = fs ∧ args_schema sch = a ∧ kwargs_schema sch = k.
Proof.
  unfold new_OpSchema. destruct (last_char (name fs)); [|discriminate].
  intros [= <-]. repeat split.
Qed.

Lemma resolved_branch {A} (v : value) (a b : A) :
  v ≠ VNone -> match v with VNone => a | _ => b end = b.
Proof. intros H. destruct v; try reflexivity. contradiction. Qed.

Section Propagated.
Context {world : Type}.
Local Abbreviation state := (state (world := world)).
Variables (fallback : bool) (repr : OpSchema -> string).
Variables (op_call : OpOverload (world := world)) (args : list value)
          (kwargs : list (string * value)) (rules : gmap string rule) (s : state).
Hypothesis Hargs : forallb (live (wrappers s)) args = true.
Hypothesis Hkwargs : forallb (fun '(_, x) => live (wrappers s) x) kwargs = true.

Lemma propagate_on_live_arguments :
  propagate_input_sharding fallback repr op_call args kwargs rules s
  = match new_OpSchema (_schema op_call) (map (schema_of (wrappers s)) args)
            (schema_of_kwargs (wrappers s) kwargs) with
    | Raise e => (s, Raise e)
    | Ok op_schema => propagate_from fallback repr (op_key op_call) rules op_schema s
    end.
Proof using Hargs Hkwargs.
  rewrite propagate_unfold, tree_map_args_schema, tree_map_kwargs_schema by assumption.
  reflexivity.
Qed.

End Propagated.

(** Property X17.  The regular path, from end to end. For an operator that is
    neither decomposed nor overridden, with arguments whose distributed tensors
    are in the store, and a rule that leaves the schema alone and resolves an
    output descriptor for a schema that is neither in place nor an out variant:
    [operator_dispatch] invokes the rule once, calls the operator once, on the
    arguments and keyword arguments with every distributed tensor replaced by
    its local tensor, and returns what [wrap] makes of the local result and the
    resolved descriptor; an exception of the operator propagates. No wrapper is
    changed before [wrap]. *)
Theorem regular_dispatch_wraps_the_local_result {world : Type} (fallback : bool)
    (repr : OpSchema -> string)
    (redistribute_dtensor :
       DTensor -> DeviceMesh -> list Placement -> world -> world * result DTensor)
    (wrap aten_view : value -> value -> M (world := world) value)
    (op_call : OpOverload (world := world)) (args : list value)
    (kwargs : list (string * value)) (rules : gmap string rule)
    (custom : gmap string (list value -> list (string * value) -> M (world := world) value))
    (s : state (world := world)) (sharding_prop_func : rule) (op_schema : OpSchema)
    (output_sharding : OutputSharding) :
  op_key op_call ≠ "aten._reshape_alias.default" ->
  custom !! op_key op_call = None ->
  rules !! op_key op_call = Some sharding_prop_func ->
  forallb (live (wrappers s)) args = true ->
  forallb (fun '(_, x) => live (wrappers s) x) kwargs = true ->
  new_OpSchema (_schema op_call) (map (schema_of (wrappers s)) args)
    (schema_of_kwargs (wrappers s) kwargs) = Ok op_schema ->
  sharding_prop_func op_schema = (op_schema, Ok output_sharding) ->
  output_spec output_sharding ≠ VNone ->
  is_inplace op_schema = false ->
  is_out_variant op_schema = false ->
  let called :=
    op_run op_call (map (local_of (wrappers s)) args)
      (local_of_kwargs (wrappers s) kwargs) (ext s) in
  let after := {| wrappers := wrappers s; foreign_specs := foreign_specs s;
                  rule_calls := rule_calls s ++ [op_schema]; ext := called.1 |} in
  operator_dispatch fallback repr redistribute_dtensor wrap aten_view op_call
    args kwargs rules custom s
  = match called.2 with
    | Ok local_results => wrap local_results (output_spec output_sharding) after
    | Raise e => (after, Raise e)
    end.
Proof.
  intros Hkey Hcustom Hrule Hargs Hkwargs Hschema Hf Hspec Hin Hout called after.
  destruct (new_OpSchema_fields _ _ _ _ Hschema) as (_ & Has & Hks).
  unfold operator_dispatch. rewrite decomposition_table_other, Hcustom by assumption.
  unfold mbind at 1, M_bind at 1.
  rewrite propagate_on_live_arguments by assumption. rewrite Hschema.
  unfold propagate_from. rewrite Hrule.
  unfold mbind at 1, M_bind at 1, call_rule. rewrite Hf.
  rewrite (resolved_branch _ _ _ Hspec). cbn [mret M_ret].
  set (s1 := {| wrappers := wrappers s; foreign_specs := foreign_specs s;
                rule_calls := rule_calls s ++ [op_schema]; ext := ext s |}).
  rewrite Has, Hks.
  change (VTuple (map (schema_of (wrappers s)) args))
    with (schema_of (wrappers s1) (VTuple args)).
  change (VDict (schema_of_kwargs (wrappers s) kwargs))
    with (schema_of (wrappers s1) (VDict kwargs)).
  unfold mbind at 1, M_bind at 1. rewrite pack_schema_of by exact Hargs.
  unfold mbind at 1, M_bind at 1. rewrite pack_schema_of by exact Hkwargs.
  subst called after s1. unfold local_of, local_of_kwargs. cbn [map_leaves wrappers ext].
  unfold mbind, M_bind, Dispatch.lift, outside. cbv beta iota. cbn [wrappers foreign_specs rule_calls ext].
  destruct (op_run op_call _ _ (ext s)) as [outside_world [local_results|e]];
    cbn [fst snd]; [|reflexivity].
  rewrite Hin, Hout. reflexivity.
Qed.

Lemma regular_dispatch_wraps_the_local_result_witness :
  operator_dispatch false repr_name redistribute_nothing wrap view_unreached aten_add
    [VDTensor 0%nat; VDTensor 1%nat] [] {[ "aten.add.Tensor" := pointwise_rule ]} ∅
    three_wrappers
  = wrap (VTensor 21%nat) sharded
      {| wrappers := wrappers three_wrappers; foreign_specs := [];
         rule_calls := [{| func_schema := _schema aten_add;
                           args_schema := [sharded; sharded]; kwargs_schema := [];
                           is_inplace := false; is_out_variant := false |}];
         ext := 1%nat |}.
Proof.
  assert (op_key aten_add ≠ "aten._reshape_alias.default") as Hkey by discriminate.
  assert (output_spec (new_OutputSharding sharded) ≠ VNone) as Hspec by discriminate.
  rewrite (regular_dispatch_wraps_the_local_result false repr_name redistribute_nothing wrap
             view_unreached aten_add [VDTensor 0%nat; VDTensor 1%nat] []
             {[ "aten.add.Tensor" := pointwise_rule ]} ∅ three_wrappers pointwise_rule
             {| func_schema := _schema aten_add;
                args_schema := [sharded; sharded]; kwargs_schema := [];
                is_inplace := false; is_out_variant := false |}
             (new_OutputSharding sharded)
             Hkey (lookup_empty _) (lookup_singleton_eq _ _) eq_refl eq_refl eq_refl eq_refl Hspec
             eq_refl eq_refl).
  reflexivity.
Defined.

(** Property X18.  The in-place path, from end to end. Under the conditions of
    the regular path, but for a schema that is in place and a first positional
    argument that is a distributed tensor: [operator_dispatch] invokes the rule
    once, calls the operator once on the local tensors, drops what the operator
    returned and returns the first argument itself, whose descriptor is now the
    resolved one; its local tensor and every other wrapper are as before, or the
    exception of the operator propagates with no wrapper changed. *)
Theorem inplace_dispatch_updates_self {world : Type} (fallback : bool)
    (repr : OpSchema -> string)
    (redistribute_dtensor :
       DTensor -> DeviceMesh -> list Placement -> world -> world * result DTensor)
    (wrap aten_view : value -> value -> M (world := world) value)
    (op_call : OpOverload (world := world)) (self : loc) (others : list value)
    (kwargs : list (string * value)) (rules : gmap string rule)
    (custom : gmap string (list value -> list (string * value) -> M (world := world) value))
    (s : state (world := world)) (sharding_prop_func : rule) (op_schema : OpSchema)
    (output_sharding : OutputSharding) (d : DTensor) :
  let args := VDTensor self :: others in
  op_key op_call ≠ "aten._reshape_alias.default" ->
  custom !! op_key op_call = None ->
  rules !! op_key op_call = Some sharding_prop_func ->
  wrappers s !! self = Some d ->
  forallb (live (wrappers s)) args = true ->
  forallb (fun '(_, x) => live (wrappers s) x) kwargs = true ->
  new_OpSchema (_schema op_call) (map (schema_of (wrappers s)) args)
    (schema_of_kwargs (wrappers s) kwargs) = Ok op_schema ->
  sharding_prop_func op_schema = (op_schema, Ok output_sharding) ->
  output_spec output_sharding ≠ VNone ->
  is_inplace op_schema = true ->
  let called :=
    op_run op_call (map (local_of (wrappers s)) args)
      (local_of_kwargs (wrappers s) kwargs) (ext s) in
  operator_dispatch fallback repr redistribute_dtensor wrap aten_view op_call
    args kwargs rules custom s
  = match called.2 with
    | Ok _ =>
        ({| wrappers := <[self := {| _local_tensor := _local_tensor d;
                                     _spec := output_spec output_sharding |}]> (wrappers s);
            foreign_specs := foreign_specs s;
            rule_calls := rule_calls s ++ [op_schema];
            ext := called.1 |},
         Ok (VDTensor self))
    | Raise e =>
        ({| wrappers := wrappers s; foreign_specs := foreign_specs s;
            rule_calls := rule_calls s ++ [op_schema]; ext := called.1 |},
         Raise e)
    end.
Proof.
  intros args Hkey Hcustom Hrule Hself Hargs Hkwargs Hschema Hf Hspec Hin called.
  destruct (new_OpSchema_fields _ _ _ _ Hschema) as (_ & Has & Hks).
  unfold operator_dispatch. rewrite decomposition_table_other, Hcustom by assumption.
  unfold mbind at 1, M_bind at 1.
  rewrite propagate_on_live_arguments by assumption. rewrite Hschema.
  unfold propagate_from. rewrite Hrule.
  unfold mbind at 1, M_bind at 1, call_rule. rewrite Hf.
  rewrite (resolved_branch _ _ _ Hspec). cbn [mret M_ret].
  set (s1 := {| wrappers := wrappers s; foreign_specs := foreign_specs s;
                rule_calls := rule_calls s ++ [op_schema]; ext := ext s |}).
  rewrite Has, Hks.
  change (VTuple (map (schema_of (wrappers s)) args))
    with (schema_of (wrappers s1) (VTuple args)).
  change (VDict (schema_of_kwargs (wrappers s) kwargs))
    with (schema_of (wrappers s1) (VDict kwargs)).
  unfold mbind at 1, M_bind at 1. rewrite pack_schema_of by exact Hargs.
  unfold mbind at 1, M_bind at 1. rewrite pack_schema_of by exact Hkwargs.
  subst called s1. unfold local_of, local_of_kwargs. cbn [map_leaves wrappers ext].
  unfold mbind, M_bind, Dispatch.lift, outside. cbv beta iota.
  cbn [wrappers foreign_specs rule_calls ext].
  destruct (op_run op_call _ _ (ext s)) as [outside_world [local_results|e]];
    cbn [fst snd]; [|reflexivity].
  rewrite Hin. subst args. rewrite getitem_0.
  unfold set_spec. cbn [wrappers foreign_specs rule_calls ext]. rewrite Hself. reflexivity.
Qed.

Lemma inplace_dispatch_updates_self_witness :
  dispatch false aten_add_ [VDTensor 2%nat; VDTensor 2%nat] [] three_wrappers
  = ({| wrappers := <[2%nat := {| _local_tensor := 12%nat; _spec := replicated |}]>
                      (wrappers three_wrappers);
        foreign_specs := [];
        rule_calls := [{| func_schema := _schema aten_add_;
                          args_schema := [replicated; replicated]; kwargs_schema := [];
                          is_inplace := true; is_out_variant := false |}];
        ext := 1%nat |},
     Ok (VDTensor 2%nat)).
Proof.
  assert (op_key aten_add_ ≠ "aten._reshape_alias.default") as Hkey by discriminate.
  assert (output_spec (new_OutputSharding replicated) ≠ VNone) as Hspec by discriminate.
  exact (inplace_dispatch_updates_self false repr_name redistribute_nothing wrap
           view_unreached aten_add_ 2%nat [VDTensor 2%nat] [] registry ∅ three_wrappers
           replicated_only_rule
           {| func_schema := _schema aten_add_;
              args_schema := [replicated; replicated]; kwargs_schema := [];
              is_inplace := true; is_out_variant := false |}
           (new_OutputSharding replicated) {| _local_tensor := 12%nat; _spec := replicated |}
           Hkey (lookup_empty _) eq_refl eq_refl eq_refl eq_refl eq_refl eq_refl Hspec eq_refl).
Defined.

(** ** Operators without a rule *)

(** Property X19.  An operator without a rule is refused before anything
    happens. With [_ENABLE_FALLBACK] off, for an operator that is neither
    decomposed nor overridden and has no sharding rule, [operator_dispatch]
    raises NotImplementedError with the name of the operator, and leaves the
    state as it was: no rule was invoked, the local operator was not called, no
    wrapper was touched. *)
Theorem unregistered_operator_is_refused {world : Type} (repr : OpSchema -> string)
    (redistribute_dtensor :
       DTensor -> DeviceMesh -> list Placement -> world -> world * result DTensor)
    (wrap aten_view : value -> value -> M (world := world) value)
    (op_call : OpOverload (world := world)) (args : list value)
    (kwargs : list (string * value)) (rules : gmap string rule)
    (custom : gmap string (list value -> list (string * value) -> M (world := world) value))
    (s : state (world := world)) :
  op_key op_call ≠ "aten._reshape_alias.default" ->
  custom !! op_key op_call = None ->
  rules !! op_key op_call = None ->
  forallb (live (wrappers s)) args = true ->
  forallb (fun '(_, x) => live (wrappers s) x) kwargs = true ->
  name (_schema op_call) ≠ "" ->
  operator_dispatch false repr redistribute_dtensor wrap aten_view op_call
    args kwargs rules custom s
  = (s, Raise (NotImplementedError
                 ("Operator " +:+ op_key op_call
                  +:+ " does not have a DistributedTensor rule registered."))).
Proof.
  intros Hkey Hcustom Hrule Hargs Hkwargs Hname.
  unfold operator_dispatch. rewrite decomposition_table_other, Hcustom by assumption.
  unfold mbind, M_bind.
  rewrite propagate_on_live_arguments by assumption.
  unfold new_OpSchema. destruct (last_char (name (_schema op_call))) eqn:E.
  - unfold propagate_from. rewrite Hrule. reflexivity.
  - apply last_char_none in E. contradiction.
Qed.

Lemma unregistered_operator_is_refused_witness :
  dispatch false aten_add [VDTensor 0%nat; VDTensor 1%nat] [] three_wrappers
  = (three_wrappers,
     Raise (NotImplementedError
              "Operator aten.add.Tensor does not have a DistributedTensor rule registered.")).
Proof.
  assert (op_key aten_add ≠ "aten._reshape_alias.default") as Hkey by discriminate.
  assert (name (_schema aten_add) ≠ "") as Hname by discriminate.
  exact (unregistered_operator_is_refused repr_name redistribute_nothing wrap view_unreached
           aten_add [VDTensor 0%nat; VDTensor 1%nat] [] registry ∅ three_wrappers
           Hkey (lookup_empty _) eq_refl eq_refl eq_refl Hname).
Defined.

Lemma args_spec_of_plain_arguments h (args : list value) fs k sch :
  forallb (fun a => match a with VDTensor _ | VSpec _ => false | _ => true end) args = true ->
  new_OpSchema fs (map (schema_of h) args) k = Ok sch ->
  args_spec sch = [].
Proof.
  intros Hplain Hsch. apply new_OpSchema_fields in Hsch as (_ & Ha & _).
  unfold args_spec. rewrite Ha. clear Ha.
  induction args as [|a args IH]; [reflexivity|].
  cbn [forallb] in Hplain. apply andb_prop in Hplain as [Ha Hargs].
  cbn [map List.filter]. rewrite (IH Hargs).
  destruct a; try discriminate Ha; reflexivity.
Qed.

(** Property X20.  The fallback needs a distributed tensor among the positional
    arguments. With [_ENABLE_FALLBACK] on and no rule for the operator, when no
    positional argument is itself a distributed tensor, as when they all sit in
    a list, [operator_dispatch] calls the local operator on the local tensors
    and then, instead of wrapping what it returned, raises IndexError on
    [args_spec[0]]; an exception of the operator itself propagates. *)
Theorem fallback_needs_a_distributed_positional_argument {world : Type}
    (repr : OpSchema -> string)
    (redistribute_dtensor :
       DTensor -> DeviceMesh -> list Placement -> world -> world * result DTensor)
    (wrap aten_view : value -> value -> M (world := world) value)
    (op_call : OpOverload (world := world)) (args : list value)
    (kwargs : list (string * value)) (rules : gmap string rule)
    (custom : gmap string (list value -> list (string * value) -> M (world := world) value))
    (s : state (world := world)) :
  op_key op_call ≠ "aten._reshape_alias.default" ->
  custom !! op_key op_call = None ->
  rules !! op_key op_call = None ->
  forallb (live (wrappers s)) args = true ->
  forallb (fun '(_, x) => live (wrappers s) x) kwargs = true ->
  name (_schema op_call) ≠ "" ->
  forallb (fun a => match a with VDTensor _ | VSpec _ => false | _ => true end) args = true ->
  let called :=
    op_run op_call (map (local_of (wrappers s)) args)
      (local_of_kwargs (wrappers s) kwargs) (ext s) in
  operator_dispatch true repr redistribute_dtensor wrap aten_view op_call
    args kwargs rules custom s
  = ({| wrappers := wrappers s; foreign_specs := foreign_specs s;
        rule_calls := rule_calls s; ext := called.1 |},
     match called.2 with
     | Ok _ => Raise IndexError
     | Raise e => Raise e
     end).
Proof.
  intros Hkey Hcustom Hrule Hargs Hkwargs Hname Hplain called.
  unfold operator_dispatch. rewrite decomposition_table_other, Hcustom by assumption.
  unfold mbind at 1, M_bind at 1.
  rewrite propagate_on_live_arguments by assumption.
  destruct (new_OpSchema _ _ _) as [op_schema|] eqn:Hschema.
  - unfold propagate_from. rewrite Hrule. cbn [negb mret M_ret].
    unfold mbind at 1, M_bind at 1. rewrite tree_map_args_local by assumption.
    unfold mbind at 1, M_bind at 1. rewrite tree_map_kwargs_local by assumption.
    unfold mbind at 1, M_bind at 1. unfold outside. fold called.
    destruct called as [outside_world [local_results|e]]; cbn [fst snd]; [|reflexivity].
    rewrite (args_spec_of_plain_arguments _ _ _ _ _ Hplain Hschema). reflexivity.
  - unfold new_OpSchema in Hschema.
    destruct (last_char (name (_schema op_call))) eqn:E; [discriminate Hschema|].
    apply last_char_none in E. contradiction.
Qed.

Lemma fallback_needs_a_distributed_positional_argument_witness :
  dispatch true aten_add [VTensor 5%nat; VTensor 6%nat] [("alpha", VDTensor 2%nat)]
    three_wrappers
  = ({| wrappers := wrappers three_wrappers; foreign_specs := []; rule_calls := [];
        ext := 1%nat |},
     Raise IndexError).
Proof.
  assert (op_key aten_add ≠ "aten._reshape_alias.default") as Hkey by discriminate.
  assert (name (_schema aten_add) ≠ "") as Hname by discriminate.
  exact (fallback_needs_a_distributed_positional_argument repr_name redistribute_nothing wrap
           view_unreached aten_add [VTensor 5%nat; VTensor 6%nat] [("alpha", VDTensor 2%nat)]
           registry ∅ three_wrappers Hkey (lookup_empty _) eq_refl eq_refl eq_refl Hname
           eq_refl).
Defined.

(** ** Who answers a call *)

(** Property X21.  Decompositions come first, custom operators second. A call of
    [aten._reshape_alias.default] is answered by [_reshape_alias], which passes
    [x] and [shape] to [aten.view] and drops [strides], even when a custom
    operator or a sharding rule is registered under that name; a call of any
    other operator for which a custom operator is registered is answered by that
    operator on the arguments as they are, and no sharding rule is consulted. *)
Theorem decompositions_then_custom_operators {world : Type} (fallback : bool)
    (repr : OpSchema -> string)
    (redistribute_dtensor :
       DTensor -> DeviceMesh -> list Placement -> world -> world * result DTensor)
    (wrap aten_view : value -> value -> M (world := world) value)
    (op_call : OpOverload (world := world)) (args : list value)
    (kwargs : list (string * value)) (rules : gmap string rule)
    (custom : gmap string (list value -> list (string * value) -> M (world := world) value)) :
  let run := operator_dispatch fallback repr redistribute_dtensor wrap aten_view op_call
               args kwargs rules custom in
  (op_key op_call = "aten._reshape_alias.default" ->
     run = _reshape_alias aten_view args kwargs
     ∧ forall x shape strides,
         bind_call ["x"; "shape"; "strides"] args kwargs = Ok [x; shape; strides] ->
         run = aten_view x shape)
  ∧ (forall custom_op,
       op_key op_call ≠ "aten._reshape_alias.default" ->
       custom !! op_key op_call = Some custom_op ->
       run = custom_op args kwargs).
Proof.
  intros run. subst run. unfold operator_dispatch. split.
  - intros ->. unfold _CURRENT_DECOMPOSITION_TABLE. rewrite lookup_singleton_eq.
    split; [reflexivity|]. intros x shape strides Hbind.
    unfold _reshape_alias. rewrite Hbind. reflexivity.
  - intros custom_op Hkey Hcustom.
    rewrite decomposition_table_other, Hcustom by assumption. reflexivity.
Qed.

Lemma decompositions_then_custom_operators_witness :
  let reshape_alias : OpOverload (world := nat) :=
    {| op_key := "aten._reshape_alias.default";
       _schema := {| name := "aten::_reshape_alias"; overload_name := "";
                     arguments := plain <$> ["self"; "size"; "stride"] |};
       op_run := fun _ _ w => (w, Raise TypeError) |} in
  let view (x shape : value) : M (world := nat) value := mret (VTuple [x; shape]) in
  operator_dispatch false repr_name redistribute_nothing wrap view reshape_alias
    [VDTensor 0%nat; VList [VInt 2; VInt 2]] [("strides", VList [VInt 2; VInt 1])]
    registry ∅
  = view (VDTensor 0%nat) (VList [VInt 2; VInt 2]).
Proof.
  intros reshape_alias view.
  destruct (decompositions_then_custom_operators false repr_name redistribute_nothing wrap
              view reshape_alias [VDTensor 0%nat; VList [VInt 2; VInt 2]]
              [("strides", VList [VInt 2; VInt 1])] registry ∅) as [H _].
  destruct (H eq_refl) as [_ H']. apply (H' _ _ (VList [VInt 2; VInt 1])). reflexivity.
Defined.

(** ** What the regular path leaves alone *)

(** Property X22.  On the regular path nothing but [wrap] touches the wrappers.
    When propagation resolves an output sharding for a schema that is neither in
    place nor an out variant, with or without a retry on a suggested schema,
    [operator_dispatch] either raises with every wrapper and every attribute as
    they were, or ends in [wrap], called in a state whose wrappers and
    attributes are those of the start: redistributing the inputs for the local
    operator never changes the descriptor of an argument. *)
Theorem regular_dispatch_changes_wrappers_only_by_wrap {world : Type} (fallback : bool)
    (repr : OpSchema -> string)
    (redistribute_dtensor :
       DTensor -> DeviceMesh -> list Placement -> world -> world * result DTensor)
    (wrap aten_view : value -> value -> M (world := world) value)
    (op_call : OpOverload (world := world)) (args : list value)
    (kwargs : list (string * value)) (rules : gmap string rule)
    (custom : gmap string (list value -> list (string * value) -> M (world := world) value))
    (s s1 : state (world := world)) (target : OpSchema) (redistribute : bool)
    (output_sharding : OutputSharding) :
  op_key op_call ≠ "aten._reshape_alias.default" ->
  custom !! op_key op_call = None ->
  propagate_input_sharding fallback repr op_call args kwargs rules s
    = (s1, Ok (target, redistribute, Some output_sharding)) ->
  is_inplace target = false ->
  is_out_variant target = false ->
  let run := operator_dispatch fallback repr redistribute_dtensor wrap aten_view op_call
               args kwargs rules custom s in
  (wrappers run.1 = wrappers s ∧ foreign_specs run.1 = foreign_specs s
   ∧ exists e, run.2 = Raise e)
  ∨ exists before_wrap local_results,
      wrappers before_wrap = wrappers s
      ∧ foreign_specs before_wrap = foreign_specs s
      ∧ run = wrap local_results (output_spec output_sharding) before_wrap.
Proof.
  intros Hkey Hcustom Hprop Hin Hout run.
  pose proof (keeps_wrappers_propagate fallback repr op_call args kwargs rules s) as [Hw1 Hf1].
  rewrite Hprop in Hw1, Hf1. cbn [fst] in Hw1, Hf1.
  assert (run = operator_dispatch fallback repr redistribute_dtensor wrap aten_view op_call
                  args kwargs rules custom s) as Hrun by reflexivity.
  clearbody run. unfold operator_dispatch in Hrun.
  rewrite decomposition_table_other, Hcustom in Hrun by assumption.
  unfold mbind at 1, M_bind at 1 in Hrun. rewrite Hprop in Hrun.
  unfold mbind at 1, M_bind at 1 in Hrun.
  destruct (pack_args_kwargs_with_local_tensor redistribute_dtensor (VTuple args) _ _ s1)
    as [s2 r2] eqn:E2.
  pose proof (keeps_wrappers_pack redistribute_dtensor (VTuple args)
                (VTuple (args_schema target)) redistribute s1) as [Hw2 Hf2].
  rewrite E2 in Hw2, Hf2. cbn [fst] in Hw2, Hf2.
  destruct r2 as [packed_args|e];
    [|subst run; left; cbn [fst snd]; split; [congruence|]; split; [congruence|]; eauto].
  unfold mbind at 1, M_bind at 1 in Hrun.
  destruct (pack_args_kwargs_with_local_tensor redistribute_dtensor (VDict kwargs) _ _ s2)
    as [s3 r3] eqn:E3.
  pose proof (keeps_wrappers_pack redistribute_dtensor (VDict kwargs)
                (VDict (kwargs_schema target)) redistribute s2) as [Hw3 Hf3].
  rewrite E3 in Hw3, Hf3. cbn [fst] in Hw3, Hf3.
  destruct r3 as [packed_kwargs|e];
    [|subst run; left; cbn [fst snd]; split; [congruence|]; split; [congruence|]; eauto].
  unfold mbind at 1, M_bind at 1, Dispatch.lift in Hrun.
  destruct (match packed_args with VTuple l | VList l => Ok l | _ => Raise TypeError end)
    as [local_args|e];
    [|subst run; left; cbn [fst snd]; split; [congruence|]; split; [congruence|]; eauto].
  unfold mbind at 1, M_bind at 1 in Hrun.
  destruct (match packed_kwargs with VDict l => Ok l | _ => Raise TypeError end)
    as [local_kwargs|e];
    [|subst run; left; cbn [fst snd]; split; [congruence|]; split; [congruence|]; eauto].
  unfold mbind at 1, M_bind at 1, outside in Hrun.
  destruct (op_run op_call local_args local_kwargs (ext s3)) as [w [local_results|e]];
    [|subst run; left; cbn [fst snd wrappers foreign_specs]; split; [congruence|];
      split; [congruence|]; eauto].
  rewrite Hin, Hout in Hrun. right. eexists _, local_results.
  split; [|split; [|exact Hrun]]; cbn [wrappers foreign_specs]; congruence.
Qed.

Lemma regular_dispatch_changes_wrappers_only_by_wrap_witness :
  let rules := <["aten.add.Tensor" := replicated_only_rule]> registry in
  let run := operator_dispatch false repr_name redistribute_nothing wrap view_unreached
               aten_add [VDTensor 0%nat; VDTensor 1%nat] [] rules ∅ three_wrappers in
  exists before_wrap local_results,
    wrappers before_wrap = wrappers three_wrappers
    ∧ run = wrap local_results (VSpec (replicate_all (descriptor [Shard 0] 4 1 1 1)))
              before_wrap.
Proof.
  intros rules run.
  assert (op_key aten_add ≠ "aten._reshape_alias.default") as Hkey by discriminate.
  destruct (regular_dispatch_changes_wrappers_only_by_wrap false repr_name
              redistribute_nothing wrap view_unreached aten_add
              [VDTensor 0%nat; VDTensor 1%nat] [] rules ∅ three_wrappers _ _ _ _
              Hkey (lookup_empty _) eq_refl eq_refl eq_refl)
    as [(_ & _ & e & He)|(before_wrap & local_results & Hw & _ & Hrun)].
  - discriminate He.
  - exists before_wrap, local_results. split; [exact Hw|exact Hrun].
Defined.

(** ** The schema of a call *)

Lemma last_char_ends (name : string) (c : Ascii.ascii) :
  last_char name = Some c <-> exists p, name = p +:+ String c "".
Proof.
  split.
  - induction name as [|a [|a' rest] IH].
    + discriminate.
    + intros [= ->]. exists "". reflexivity.
    + intros H. destruct (IH H) as [p Hp]. exists (String a p).
      change (String a p +:+ String c "") with (String a (p +:+ String c "")).
      f_equal. exact Hp.
  - intros [p ->]. induction p as [|a p IH]; [reflexivity|].
    change (String a p +:+ String c "") with (String a (p +:+ String c "")).
    destruct (p +:+ String c "") as [|a0 s] eqn:E; [destruct p; discriminate E|exact IH].
Qed.

Lemma is_prefix_starts (p name : string) :
  is_prefix p name = true <-> exists q, name = p +:+ q.
Proof.
  revert name. induction p as [|a p IH]; intros name.
  - split; [intros _; exists name; reflexivity|reflexivity].
  - destruct name as [|b name]; cbn [is_prefix].
    + split; [discriminate|intros [q Hq]; discriminate Hq].
    + destruct (Ascii.eqb_spec a b) as [->|Hne].
      * rewrite IH. split.
        -- intros [q ->]. exists q. reflexivity.
        -- intros [q Hq]. exists q.
           change (String b p +:+ q) with (String b (p +:+ q)) in Hq. congruence.
      * split; [discriminate|]. intros [q Hq].
        change (String a p +:+ q) with (String a (p +:+ q)) in Hq. congruence.
Qed.

Lemma contains_somewhere (p name : string) :
  contains p name = true <-> exists a b, name = a +:+ p +:+ b.
Proof.
  induction name as [|c name IH].
  - cbn [contains]. rewrite orb_false_r, is_prefix_starts. split.
    + intros [q Hq]. exists "", q. exact Hq.
    + intros (a & b & H). destruct a; [exists b; exact H|discriminate H].
  - cbn [contains]. rewrite orb_true_iff, is_prefix_starts, IH. split.
    + intros [[q Hq]|(a & b & H)].
      * exists "", q. exact Hq.
      * exists (String c a), b.
        change (String c a +:+ p +:+ b) with (String c (a +:+ p +:+ b)). f_equal. exact H.
    + intros ([|c' a] & b & H).
      * left. exists b. exact H.
      * right. change (String c' a +:+ p +:+ b) with (String c' (a +:+ p +:+ b)) in H.
        injection H as -> H. eauto.
Qed.

(** Property X23.  [OpSchema.__post_init__] reads the two flags off the names.
    Building a schema raises IndexError exactly when the name of the function
    schema is empty. Otherwise the schema holds the function schema and the
    arguments it was given, it is in place exactly when the name ends with an
    underscore, and it is an out variant exactly when the overload name has
    [out] somewhere in it, be it as a part of a longer word. *)
Theorem post_init_reads_the_flags_off_the_names (func_schema : FunctionSchema)
    (args_schema : list value) (kwargs_schema : list (string * value)) :
  let built := new_OpSchema func_schema args_schema kwargs_schema in
  (built = Raise IndexError <-> name func_schema = "")
  ∧ match built with
    | Ok schema =>
        Sharding.func_schema schema = func_schema
        ∧ Sharding.args_schema schema = args_schema
        ∧ Sharding.kwargs_schema schema = kwargs_schema
        ∧ (is_inplace schema = true <-> exists p, name func_schema = p +:+ "_")
        ∧ (is_out_variant schema = true <->
           exists p q, overload_name func_schema = p +:+ "out" +:+ q)
    | Raise e => e = IndexError
    end.
Proof.
  intros built. subst built. unfold new_OpSchema.
  destruct (last_char (name func_schema)) as [c|] eqn:E.
  - split.
    + split; [discriminate|]. intros H. apply last_char_none in H. congruence.
    + cbn [Sharding.func_schema Sharding.args_schema Sharding.kwargs_schema
           is_inplace is_out_variant].
      repeat split; try apply contains_somewhere.
      * intros H. apply Ascii.eqb_eq in H as ->. apply last_char_ends. exact E.
      * intros H. apply last_char_ends in H. rewrite H in E. injection E as <-. reflexivity.
  - split; [|reflexivity]. split; [|reflexivity]. intros _. apply last_char_none. exact E.
Qed.

(** Property X24.  The descriptors a rule sees in [args_spec] are those of the
    distributed tensors that are positional arguments themselves, in their
    order: the schema built from the arguments lists under [args_spec] the
    descriptor of every positional argument that is a distributed tensor or a
    descriptor; a distributed tensor inside a list or a tuple and one passed by
    keyword are not listed. *)
Theorem args_spec_lists_the_positional_descriptors (h : gmap loc DTensor)
    (func_schema : FunctionSchema) (args : list value) (kwargs : list (string * value))
    (schema : OpSchema) :
  new_OpSchema func_schema (map (schema_of h) args) (schema_of_kwargs h kwargs) = Ok schema ->
  args_spec schema
  = List.filter (fun v => match v with VSpec _ => true | _ => false end)
                (leaf_schema h <$> args).
Proof.
  intros H. apply new_OpSchema_fields in H as (_ & H & _).
  unfold args_spec. rewrite H. clear.
  induction args as [|a args IH]; [reflexivity|].
  cbn [map fmap list_fmap List.filter]. rewrite IH.
  destruct a; reflexivity.
Qed.

Lemma args_spec_lists_the_positional_descriptors_witness :
  args_spec {| func_schema := _schema aten_add;
               args_schema := [sharded; VList [replicated]; VInt 1];
               kwargs_schema := [("alpha", sharded)];
               is_inplace := false; is_out_variant := false |}
  = [sharded].
Proof.
  exact (args_spec_lists_the_positional_descriptors (wrappers three_wrappers)
           (_schema aten_add) [VDTensor 0%nat; VList [VDTensor 2%nat]; VInt 1]
           [("alpha", VDTensor 1%nat)]
           {| func_schema := _schema aten_add;
              args_schema := [sharded; VList [replicated]; VInt 1];
              kwargs_schema := [("alpha", sharded)];
              is_inplace := false; is_out_variant := false |} eq_refl).
Defined.

End DispatchMore.
